(** * luckyjet-backend: the round engine of [index.js]

    A shallow embedding of the crash-point generator, the two tables the
    server keeps its rounds in, the tick that drives the live score and the
    loop of [startGameLoop], followed by the properties of them.

    Numbers.  A number is modelled by its exact value, a rational.  The
    arithmetic of [generateCrashPoint] is double-precision arithmetic: each
    product and sum is rounded to the nearest binary64 number ([b64], ties to
    even), and the literal [0.3] is the binary64 number nearest to 3/10.
    [+(x).toFixed(2)] rounds the exact value of [x] to the nearest
    hundredth, halves away from zero, and the number it gives is identified
    with that decimal value.  The score of the tick only ever holds such
    two-decimal values and its steps are added exactly, which gives the same
    decimal after [toFixed(2)] as the double-precision sum.  The counter
    [crashCounter] only ever holds integers and is a [Z] (a double counts
    exactly up to 2^53, one call at a time).

    Randomness and time.  [Math.random()] and the wall clock ([Date.now()],
    [CURRENT_TIMESTAMP]) are oracles: a sequence of draws and a sequence of
    readings, and the state counts how many of each have been consumed.
    A draw is assumed to lie in [0, 1) and nothing more.  Where the
    distribution of the draws matters, the draws are counted over the grid
    of the [2^52] numbers [k / 2^52], which an engine that fills the 52 bits
    of a significand at random returns with equal probability.

    Store.  [./db] is outside this file's source; a table is the list of its
    rows in insertion order together with its AUTO_INCREMENT counter, and
    each statement the program executes is given its SQL meaning on that
    list.  A row of the model holds the values the program passed to the
    statement that wrote it.  The columns [crashPoint] are FLOAT columns,
    which keep a value to single precision: [f32] gives what such a column
    keeps of a value, and the rows of the model do not apply it. *)

From Stdlib Require Import ZArith QArith Qround Qpower List Bool Lia Lqa.
From Stdlib Require Import Sorted Permutation.
Import ListNotations.

Open Scope Z_scope.
Open Scope Q_scope.

(** ** Numbers *)

(** [x < y] and [x >= y] on numbers, as booleans. *)
Definition Qltb (x y : Q) : bool := (Qnum x * QDen y <? Qnum y * QDen x)%Z.
Definition Qgeb (x y : Q) : bool := (Qnum y * QDen x <=? Qnum x * QDen y)%Z.

(** [+(x).toFixed(2)]: the integer [n] for which [n / 100 - x] is closest to
    zero, the larger one on a tie; a negative [x] is rounded through [-x].
    [toFixed] rounds the exact value of its argument, as is done here. *)
Definition toFixed2 (x : Q) : Q :=
  if Qltb x 0 then - (Qfloor (- x * 100 + (1 # 2)) # 100)
  else Qfloor (x * 100 + (1 # 2)) # 100.

(** ** Binary floating point *)

Definition pow2 (k : Z) : Q := 2 ^ k.

(** The exponent [e] with [2^e <= x < 2^(e+1)], for a positive [x]. *)
Definition binade (x : Q) : Z :=
  let e0 := (Z.log2 (Qnum x) - Z.log2 (QDen x))%Z in
  if Qle_bool (pow2 e0) x then e0 else (e0 - 1)%Z.

(** The nearest integer, the even one on a tie. *)
Definition rne (y : Q) : Z :=
  let f := Qfloor y in
  match Qcompare (y - inject_Z f) (1 # 2) with
  | Lt => f
  | Gt => (f + 1)%Z
  | Eq => if Z.even f then f else (f + 1)%Z
  end.

(** The nearest number with a significand of [p] bits, for a positive [x].
    The exponent is not bounded: the numbers of this program are zero or
    lie between 2^-52 and 128, far from the ends of either format. *)
Definition nearest_pos (p : Z) (x : Q) : Q :=
  let e := binade x in
  inject_Z (rne (x * pow2 (p - 1 - e))) * pow2 (e - (p - 1)).

Definition nearest (p : Z) (x : Q) : Q :=
  match Qcompare x 0 with
  | Eq => 0
  | Gt => nearest_pos p x
  | Lt => - nearest_pos p (- x)
  end.

(** Rounding to double precision, what every arithmetic operation of
    JavaScript ends with, and to the single precision of a FLOAT column. *)
Definition b64 : Q -> Q := nearest 53.
Definition f32 : Q -> Q := nearest 24.

Arguments b64 : simpl never.
Arguments f32 : simpl never.

(** ** Rows, tables and events *)

(** A row of [luckyjet_round]. *)
Record Round : Type := mkRound {
  id : Z;
  roundId : Z;
  crashPoint : Q;
  isRunning : bool;
  createdAt : Z
}.

(** A row of [luckyjet_round_log]. *)
Record LogRow : Type := mkLogRow {
  log_id : Z;
  log_roundId : Z;
  log_crashPoint : Q;
  log_createdAt : Z
}.

(** What [io.emit] broadcasts. *)
Inductive Event : Type :=
| roundStart (rid : Z) (cp : Q) (previousRounds : list LogRow)
| liveScoreEvent (score : Q)
| crashed (cp : Q).

(** The payload of [socket.emit('initData', ...)]; an [undefined] field is
    [None]. *)
Record InitData : Type := mkInitData {
  init_roundId : option Z;
  init_crashPoint : option Q;
  init_previousRounds : list LogRow;
  init_liveScore : Q
}.

(** ** State *)

(** The module-level variables of [index.js], the two tables, the timer
    created by [setInterval], the oracle cursors and the broadcasts made so
    far (oldest first). *)
Record State : Type := mkState {
  currentRound : option Round;
  isCrashed : bool;
  liveScore : Q;
  crashCounter : Z;
  interval : bool;
  luckyjet_round : list Round;
  round_auto : Z;
  luckyjet_round_log : list LogRow;
  log_auto : Z;
  rng : nat;
  clk : nat;
  emitted : list Event
}.

Definition set_currentRound (v : option Round) (s : State) : State :=
  mkState v (isCrashed s) (liveScore s) (crashCounter s) (interval s)
    (luckyjet_round s) (round_auto s) (luckyjet_round_log s) (log_auto s)
    (rng s) (clk s) (emitted s).

Definition set_isCrashed (v : bool) (s : State) : State :=
  mkState (currentRound s) v (liveScore s) (crashCounter s) (interval s)
    (luckyjet_round s) (round_auto s) (luckyjet_round_log s) (log_auto s)
    (rng s) (clk s) (emitted s).

Definition set_liveScore (v : Q) (s : State) : State :=
  mkState (currentRound s) (isCrashed s) v (crashCounter s) (interval s)
    (luckyjet_round s) (round_auto s) (luckyjet_round_log s) (log_auto s)
    (rng s) (clk s) (emitted s).

Definition set_crashCounter (v : Z) (s : State) : State :=
  mkState (currentRound s) (isCrashed s) (liveScore s) v (interval s)
    (luckyjet_round s) (round_auto s) (luckyjet_round_log s) (log_auto s)
    (rng s) (clk s) (emitted s).

Definition set_interval (v : bool) (s : State) : State :=
  mkState (currentRound s) (isCrashed s) (liveScore s) (crashCounter s) v
    (luckyjet_round s) (round_auto s) (luckyjet_round_log s) (log_auto s)
    (rng s) (clk s) (emitted s).

Definition set_round_table (rows : list Round) (auto : Z) (s : State) : State :=
  mkState (currentRound s) (isCrashed s) (liveScore s) (crashCounter s)
    (interval s) rows auto (luckyjet_round_log s) (log_auto s)
    (rng s) (clk s) (emitted s).

Definition set_log_table (rows : list LogRow) (auto : Z) (s : State) : State :=
  mkState (currentRound s) (isCrashed s) (liveScore s) (crashCounter s)
    (interval s) (luckyjet_round s) (round_auto s) rows auto
    (rng s) (clk s) (emitted s).

Definition set_rng (v : nat) (s : State) : State :=
  mkState (currentRound s) (isCrashed s) (liveScore s) (crashCounter s)
    (interval s) (luckyjet_round s) (round_auto s) (luckyjet_round_log s)
    (log_auto s) v (clk s) (emitted s).

Definition set_clk (v : nat) (s : State) : State :=
  mkState (currentRound s) (isCrashed s) (liveScore s) (crashCounter s)
    (interval s) (luckyjet_round s) (round_auto s) (luckyjet_round_log s)
    (log_auto s) (rng s) v (emitted s).

(** [io.emit(e)]. *)
Definition emit (e : Event) (s : State) : State :=
  mkState (currentRound s) (isCrashed s) (liveScore s) (crashCounter s)
    (interval s) (luckyjet_round s) (round_auto s) (luckyjet_round_log s)
    (log_auto s) (rng s) (clk s) (emitted s ++ [e]).

(** The state when the process starts, over empty tables. *)
Definition boot : State :=
  mkState None false 1.00 0%Z false [] 1%Z [] 1%Z 0%nat 0%nat [].

(** ** The state monad the program runs in *)

Definition M (A : Type) : Type := State -> A * State.

Definition ret {A : Type} (a : A) : M A := fun s => (a, s).

Definition bind {A B : Type} (m : M A) (k : A -> M B) : M B :=
  fun s => let (a, s') := m s in k a s'.

Definition modify (f : State -> State) : M unit := fun s => (tt, f s).

Definition gets {A : Type} (f : State -> A) : M A := fun s => (f s, s).

Notation "x <- m ;; k" := (bind m (fun x => k))
  (at level 61, m at next level, right associativity).
Notation "m ;;; k" := (bind m (fun _ => k))
  (at level 61, right associativity).

Section Program.

(** The draws of [Math.random()] and the readings of the clock. *)
Variable random : nat -> Q.
Variable clock : nat -> Z.

Definition Math_random : M Q :=
  fun s => (random (rng s), set_rng (S (rng s)) s).

Definition Date_now : M Z :=
  fun s => (clock (clk s), set_clk (S (clk s)) s).

(** ** [generateCrashPoint] *)

(** [crashCounter++], giving the incremented value. *)
Definition incr_crashCounter : M Z :=
  fun s => ((crashCounter s + 1)%Z, set_crashCounter (crashCounter s + 1)%Z s).

(** The condition of the first [if]: [&&] draws the coin only when the
    counter is in range, and compares it with the double [0.3]. *)
Definition high_value_test (c : Z) : M bool :=
  if ((7 <=? c) && (c <=? 15))%Z
  then u <- Math_random ;; ret (Qltb u (b64 0.3))
  else ret false.

(** Each product and each sum is a double-precision operation; [toFixed]
    is applied to the double the sum gives. *)
Definition generateCrashPoint : M Q :=
  c <- incr_crashCounter ;;
  hit <- high_value_test c ;;
  if hit then
    modify (set_crashCounter 0%Z) ;;;
    u <- Math_random ;;
    ret (toFixed2 (b64 (b64 (u * 30) + 20)))
  else
    r <- Math_random ;;
    let roll := b64 (r * 100) in
    if Qltb roll 55 then
      u <- Math_random ;; ret (toFixed2 (b64 (1 + u)))
    else if Qltb roll 80 then
      u <- Math_random ;; ret (toFixed2 (b64 (b64 (u * 8) + 2)))
    else if Qltb roll 95 then
      u <- Math_random ;; ret (toFixed2 (b64 (b64 (u * 20) + 10)))
    else
      u <- Math_random ;; ret (toFixed2 (b64 (b64 (u * 20) + 30))).

(** Whether a call made in state [s] takes the high-value branch, and the
    band roll it makes when it does not: the draw that follows the test. *)
Definition takes_high_value (s : State) : bool :=
  fst (high_value_test (crashCounter s + 1)%Z s).

Definition band_roll (s : State) : Q :=
  b64 (random (rng (snd (high_value_test (crashCounter s + 1)%Z s))) * 100).

(** The state after [n] successive calls. *)
Fixpoint generate_many (n : nat) (s : State) : State :=
  match n with
  | O => s
  | S n' => generate_many n' (snd (generateCrashPoint s))
  end.

(** ** The statements run against the store *)

(** [ORDER BY key]: insertion sort on an integer column, ascending or
    descending. *)
Section OrderBy.

Context {A : Type} (key : A -> Z) (desc : bool).

Definition comes_first (a b : A) : bool :=
  if desc then (key b <=? key a)%Z else (key a <=? key b)%Z.

Fixpoint insert_row (x : A) (l : list A) : list A :=
  match l with
  | [] => [x]
  | y :: l' => if comes_first x y then x :: y :: l' else y :: insert_row x l'
  end.

Definition order_by (l : list A) : list A := fold_right insert_row [] l.

End OrderBy.

(** [SELECT * FROM luckyjet_round ORDER BY id ASC LIMIT 1] *)
Definition select_earliest_round : M (list Round) :=
  gets (fun s => firstn 1 (order_by id false (luckyjet_round s))).

(** [SELECT COUNT( * ) AS total FROM luckyjet_round] *)
Definition count_rounds : M Z :=
  gets (fun s => Z.of_nat (length (luckyjet_round s))).

(** [INSERT INTO luckyjet_round (roundId, crashPoint) VALUES (?, ?)]: the
    row takes the next AUTO_INCREMENT id, [isRunning] defaults to false and
    [createdAt] to the current time. *)
Definition insert_round (rid : Z) (cp : Q) : M unit :=
  t <- Date_now ;;
  modify (fun s =>
    set_round_table (luckyjet_round s ++ [mkRound (round_auto s) rid cp false t])
                    (round_auto s + 1)%Z s).

(** What the UPDATE below does to one row. *)
Definition mark_running (k : Z) (r : Round) : Round :=
  if (id r =? k)%Z
  then mkRound (id r) (roundId r) (crashPoint r) true (createdAt r)
  else r.

(** [UPDATE luckyjet_round SET isRunning = true WHERE id = ?] *)
Definition update_running (k : Z) : M unit :=
  modify (fun s =>
    set_round_table (map (mark_running k) (luckyjet_round s)) (round_auto s) s).

(** [DELETE FROM luckyjet_round WHERE id = ?] *)
Definition delete_round (k : Z) : M unit :=
  modify (fun s =>
    set_round_table (filter (fun r => negb (id r =? k)%Z) (luckyjet_round s))
                    (round_auto s) s).

(** [INSERT INTO luckyjet_round_log (roundId, crashPoint) VALUES (?, ?)] *)
Definition insert_log (rid : Z) (cp : Q) : M unit :=
  t <- Date_now ;;
  modify (fun s =>
    set_log_table (luckyjet_round_log s ++ [mkLogRow (log_auto s) rid cp t])
                  (log_auto s + 1)%Z s).

(** [SELECT * FROM luckyjet_round_log ORDER BY id DESC LIMIT n] *)
Definition latest_log (n : nat) (rows : list LogRow) : list LogRow :=
  firstn n (order_by log_id true rows).

Definition getLast20Rounds : M (list LogRow) :=
  gets (fun s => latest_log 20 (luckyjet_round_log s)).

(** [DELETE FROM luckyjet_round_log WHERE id NOT IN (the 200 largest ids)] *)
Definition trim_log (rows : list LogRow) : list LogRow :=
  let keep := map log_id (latest_log 200 rows) in
  filter (fun r => existsb (Z.eqb (log_id r)) keep) rows.

Definition maintainLogLimit : M unit :=
  modify (fun s => set_log_table (trim_log (luckyjet_round_log s)) (log_auto s) s).

(** ** [setupTables] and [prefillRounds] *)

(** [CREATE TABLE IF NOT EXISTS]: the tables of the state are left as they
    are. *)
Definition setupTables : M unit := ret tt.

(** The [for] loop, [n] iterations left, loop variable [i]. *)
Fixpoint prefill_loop (n : nat) (i : Z) : M unit :=
  match n with
  | O => ret tt
  | S n' =>
      now <- Date_now ;;
      let rid := (now + i * 1000)%Z in
      cp <- generateCrashPoint ;;
      insert_round rid cp ;;;
      prefill_loop n' (i + 1)%Z
  end.

Definition prefillRounds : M unit :=
  total <- count_rounds ;;
  let remaining := (30 - total)%Z in
  prefill_loop (Z.to_nat remaining) 0%Z.

(** ** The tick: the callback given to [setInterval] *)

(** The additive step chosen by the [if] chain. *)
Definition advance (ls : Q) : Q :=
  if Qltb ls 1.5 then ls + 0.01
  else if Qltb ls 3 then ls + 0.02
  else if Qltb ls 5 then ls + 0.05
  else if Qltb ls 10 then ls + 0.1
  else if Qltb ls 50 then ls + 0.15
  else ls + 0.2.

(** The crash test at the end of the callback.  [currentRound] is assigned
    before the timer is created; were it still [null] the property access
    would throw, and the test is skipped here: no run reaches that case. *)
Definition crash_check : M unit :=
  ls <- gets liveScore ;;
  cur <- gets currentRound ;;
  match cur with
  | None => ret tt
  | Some r =>
      if Qgeb ls (crashPoint r) then
        modify (set_isCrashed true) ;;;
        modify (emit (crashed (crashPoint r))) ;;;
        modify (set_interval false)
      else ret tt
  end.

Definition tick : M unit :=
  c <- gets isCrashed ;;
  if c then ret tt
  else
    ls <- gets liveScore ;;
    modify (set_liveScore (advance ls)) ;;;
    ls <- gets liveScore ;;
    modify (set_liveScore (toFixed2 ls)) ;;;
    ls <- gets liveScore ;;
    modify (emit (liveScoreEvent ls)) ;;;
    crash_check.

(** The timer runs its callback only while it has not been cleared. *)
Definition timer_fire : M unit :=
  armed <- gets interval ;;
  if armed then tick else ret tt.

(** ** [startGameLoop] *)

(** Lines 129-135: what the loop does once the round's promise resolved.
    It runs with [currentRound] assigned; the [None] case is never reached. *)
Definition settle : M unit :=
  cur <- gets currentRound ;;
  match cur with
  | None => ret tt
  | Some r =>
      delete_round (id r) ;;;
      insert_log (roundId r) (crashPoint r) ;;;
      maintainLogLimit ;;;
      newRoundId <- Date_now ;;
      newCrashPoint <- generateCrashPoint ;;
      insert_round newRoundId newCrashPoint
  end.

(** Lines 97-107: the pulled round is marked, announced and its timer
    started.  [currentRound] was assigned just before. *)
Definition start_round : M unit :=
  cur <- gets currentRound ;;
  match cur with
  | None => ret tt
  | Some r =>
      update_running (id r) ;;;
      previousRounds <- getLast20Rounds ;;
      modify (emit (roundStart (roundId r) (crashPoint r) previousRounds)) ;;;
      modify (set_interval true)
  end.

(** Where the server is: not yet listening, at the top of the loop, between
    pulling a round and marking it, ticking, past the crash and before the
    clean-up, or in the 8000 ms pause. *)
Inductive Phase : Type :=
| Idle | BacklogCheck | RoundStart | LiveProgression | Crashed | InterRoundPause.

(** One transition of the server: the body of the [while (true)] of
    [startGameLoop] cut at its phases.  From [Idle] the [listen] callback
    provisions the tables and prefills them; a [LiveProgression] step is one
    firing of the timer; the step out of [Crashed] is Settle. *)
Definition step (p : Phase) : M Phase :=
  match p with
  | Idle => setupTables ;;; prefillRounds ;;; ret BacklogCheck
  | BacklogCheck =>
      rows <- select_earliest_round ;;
      match rows with
      | [] => prefillRounds ;;; ret BacklogCheck
      | r :: _ =>
          modify (set_currentRound (Some r)) ;;;
          modify (set_isCrashed false) ;;;
          modify (set_liveScore 1.00) ;;;
          ret RoundStart
      end
  | RoundStart => start_round ;;; ret LiveProgression
  | LiveProgression =>
      timer_fire ;;;
      resolved <- gets isCrashed ;;
      ret (if resolved then Crashed else LiveProgression)
  | Crashed => settle ;;; ret InterRoundPause
  | InterRoundPause => ret BacklogCheck
  end.

Fixpoint run (n : nat) (c : Phase * State) : Phase * State :=
  match n with
  | O => c
  | S n' => run n' (step (fst c) (snd c))
  end.

(** [startGameLoop] for [n] transitions: the loop is entered at its top. *)
Definition startGameLoop (n : nat) (s : State) : Phase * State :=
  run n (BacklogCheck, s).

(** [n] firings of the timer. *)
Fixpoint fire (n : nat) (s : State) : State :=
  match n with
  | O => s
  | S n' => fire n' (snd (timer_fire s))
  end.

(** ** The connection handler *)

(** The handler awaits the history query and then reads [currentRound] and
    [liveScore]; it is taken here as one step, at one state. *)
Definition on_connection : M InitData :=
  previousRounds <- getLast20Rounds ;;
  cur <- gets currentRound ;;
  ls <- gets liveScore ;;
  ret (mkInitData (option_map roundId cur) (option_map crashPoint cur)
                  previousRounds ls).

End Program.

(** ** Observations *)

Definition backlogSize (s : State) : Z := Z.of_nat (length (luckyjet_round s)).

Definition running_rows (s : State) : list Round :=
  filter isRunning (luckyjet_round s).

Definition is_liveScore (e : Event) : bool :=
  match e with liveScoreEvent _ => true | _ => false end.

Definition is_crashed (e : Event) : bool :=
  match e with crashed _ => true | _ => false end.

(** The value a band call rounds: what the [if] chain on the roll selects. *)
Definition band_value (roll u : Q) : Q :=
  if Qltb roll 55 then b64 (1 + u)
  else if Qltb roll 80 then b64 (b64 (u * 8) + 2)
  else if Qltb roll 95 then b64 (b64 (u * 20) + 10)
  else b64 (b64 (u * 20) + 30).

(** The result of the high-value branch for the draw [u]. *)
Definition high_value (u : Q) : Q := toFixed2 (b64 (b64 (u * 30) + 20)).

(** The state a live tick leaves before its crash test: the score advanced,
    rounded and broadcast. *)
Definition scored (s : State) : State :=
  let ls := toFixed2 (advance (liveScore s)) in
  emit (liveScoreEvent ls) (set_liveScore ls s).

(** The [liveScore] broadcasts of the first [n] firings from [s]. *)
Definition scores (n : nat) (s : State) : list Event :=
  map (fun k => liveScoreEvent (liveScore (fire k s))) (seq 1 n).

(** The last [n] elements of a list. *)
Definition lastn {A : Type} (n : nat) (l : list A) : list A :=
  skipn (length l - n) l.

(** ** Well-formed tables *)

(** The keys of [l] increase strictly along the list and lie in [lo, hi):
    what AUTO_INCREMENT gives a table whose next id is [hi]. *)
Fixpoint ascending {A : Type} (key : A -> Z) (lo : Z) (l : list A) (hi : Z)
  : Prop :=
  match l with
  | [] => (lo <= hi)%Z
  | x :: l' => (lo <= key x)%Z /\ ascending key (key x + 1)%Z l' hi
  end.

Definition not_running (rows : list Round) : Prop :=
  Forall (fun x => isRunning x = false) rows.

(** What holds of the server at each point of the loop when it started over
    empty tables. *)
Definition Inv (c : Phase * State) : Prop :=
  let s := snd c in
  ascending id 1%Z (luckyjet_round s) (round_auto s) /\
  ascending log_id 1%Z (luckyjet_round_log s) (log_auto s) /\
  1 <= liveScore s /\ toFixed2 (liveScore s) = liveScore s /\
  match fst c with
  | Idle => luckyjet_round s = [] /\ currentRound s = None
  | BacklogCheck | InterRoundPause =>
      length (luckyjet_round s) = 30%nat /\ not_running (luckyjet_round s)
  | RoundStart =>
      length (luckyjet_round s) = 30%nat /\ not_running (luckyjet_round s) /\
      exists r rest,
        currentRound s = Some r /\ luckyjet_round s = r :: rest /\
        isCrashed s = false /\ liveScore s = 1.00
  | LiveProgression =>
      length (luckyjet_round s) = 30%nat /\
      exists r rest,
        currentRound s = Some r /\
        luckyjet_round s = mark_running (id r) r :: rest /\
        not_running rest /\ isCrashed s = false /\ interval s = true
  | Crashed =>
      length (luckyjet_round s) = 30%nat /\
      exists r rest,
        currentRound s = Some r /\
        luckyjet_round s = mark_running (id r) r :: rest /\
        not_running rest /\ isCrashed s = true /\ interval s = false
  end.

(** ** Concrete oracles *)

Definition tiny_draws : nat -> Q := fun _ => 1 # 1024.
Definition half_draws : nat -> Q := fun _ => 1 # 2.
Definition zero_clock : nat -> Z := fun _ => 0%Z.

(** A coin draw of 1/1024, then the draw [8256599316846 / 2^52]. *)
Definition grid_draws (i : nat) : Q :=
  match i with
  | O => 1 # 1024
  | S _ => 8256599316846 # 4503599627370496
  end.

(** The double 0.95, then draws of 1/2. *)
Definition boundary_draws (i : nat) : Q :=
  match i with
  | O => b64 0.95
  | S _ => 1 # 2
  end.

(** Draws that are all the double 0.3. *)
Definition coin_draws : nat -> Q := fun _ => b64 0.3.

(** A round about to tick: round 42 with crash point 1.05, timer armed. *)
Definition sample_round : Round := mkRound 1 42 1.05 false 0.
Definition sample_live : State :=
  set_interval true
    (set_round_table [mkRound 1 42 1.05 true 0; mkRound 2 43 2.00 false 0] 3%Z
       (set_currentRound (Some sample_round) boot)).

(** The same round once it has crashed. *)
Definition sample_crashed : State := fire 5 sample_live.


(** A log of [n] rows with ids 1 to [n]. *)
Definition sample_log (n : nat) : list LogRow :=
  map (fun k => mkLogRow (Z.of_nat k) (Z.of_nat k) 1.00 0) (seq 1 n).

(** ** What an observer of the broadcasts sees *)

(** An observer is between rounds, in a round of announced crash point [cp]
    whose last score was [ls], or has seen the score reach [cp] and awaits
    the crash. *)
Inductive Observer : Type :=
| Waiting
| Watching (cp ls : Q)
| Crashing (cp : Q).

(** The broadcasts an observer accepts: a round start between rounds, a
    score above the last one while watching, and the crash of the announced
    point once a score has reached it. *)
Definition observe (o : Observer) (e : Event) : option Observer :=
  match o, e with
  | Waiting, roundStart _ cp _ => Some (Watching cp 1.00)
  | Watching cp ls, liveScoreEvent v =>
      if Qltb ls v
      then Some (if Qgeb v cp then Crashing cp else Watching cp v)
      else None
  | Crashing cp, crashed c => if Qeq_bool c cp then Some Waiting else None
  | _, _ => None
  end.

Definition observe_all (o : Observer) (evs : list Event) : option Observer :=
  fold_left (fun acc e => match acc with
                          | Some o' => observe o' e
                          | None => None
                          end) evs (Some o).

(** Where an observer of all broadcasts stands at a point of the loop. *)
Definition observer_of (c : Phase * State) : Observer :=
  match fst c, currentRound (snd c) with
  | LiveProgression, Some r => Watching (crashPoint r) (liveScore (snd c))
  | _, _ => Waiting
  end.

(** ** Further observations *)

(** A crash point within the generator's range, both as the program passes
    it to the store and as a FLOAT column, of single precision, keeps it. *)
Definition valid_crashPoint (cp : Q) : Prop :=
  1 <= cp <= 50 /\ 1 <= f32 cp <= 50.

(** The round ids [prefillRounds] gives to a batch of [n] rows when its
    loop starts with variable [i] after [k] clock readings: each iteration
    reads the clock twice, for [Date.now()] and for [createdAt]. *)
Definition batch_roundIds (clock : nat -> Z) (k : nat) (i : Z) (n : nat)
  : list Z :=
  map (fun j => (clock (k + 2 * j)%nat + (i + Z.of_nat j) * 1000)%Z) (seq 0 n).

(** What the loop keeps besides [Inv]: the log stays within its limit,
    every stored crash point satisfies what the generator guarantees of its
    results ([P]), and the broadcasts so far are ones an observer accepts. *)
Definition Inv2 (P : Q -> Prop) (c : Phase * State) : Prop :=
  let s := snd c in
  (length (luckyjet_round_log s) <= 200)%nat /\
  Forall (fun x => P (crashPoint x)) (luckyjet_round s) /\
  Forall (fun x => P (log_crashPoint x)) (luckyjet_round_log s) /\
  (forall r, currentRound s = Some r -> P (crashPoint r)) /\
  observe_all Waiting (emitted s) = Some (observer_of c).

(** A state whose current round has no row in the backlog. *)
Definition sample_orphan : State :=
  set_round_table [mkRound 2 43 2.00 false 0] 3%Z
    (set_currentRound (Some sample_round) boot).

(** A clock that ticks once per reading. *)
Definition ticking_clock : nat -> Z := fun k => (1700000000000 + Z.of_nat k)%Z.

(** ** The draws of the 52-bit grid *)

(** The draws [k / 2^52], for [0 <= k < 2^52]: the numbers an engine that
    fills the 52 bits of a significand at random returns, each as likely as
    the others. *)
Definition grid : Z := 4503599627370496.
Definition grid_draw (k : Z) : Q := k # 4503599627370496.

(** The number of [k] among [lo], [lo + 1], ... ([len] of them) that
    satisfy [p]. *)
Fixpoint count_from (p : Z -> bool) (lo : Z) (len : nat) : Z :=
  match len with
  | O => 0%Z
  | S len' => ((if p lo then 1 else 0) + count_from p (lo + 1) len')%Z
  end.

Definition count_range (p : Z -> bool) (lo hi : Z) : Z :=
  count_from p lo (Z.to_nat (hi - lo)).

(** The number of draws of the grid that satisfy [p]. *)
Definition count_draws (p : Q -> bool) : Z :=
  count_range (fun k => p (grid_draw k)) 0 grid.

(** Whether the high-value branch returns [n] hundredths for the draw
    [u], and whether the roll made from the draw [d] is below [t]. *)
Definition high_value_is (n : Z) (u : Q) : bool :=
  Qeq_bool (high_value u) (n # 100).

Definition roll_below (t : Z) (d : Q) : bool :=
  Qltb (b64 (d * 100)) (inject_Z t).

(** * Properties *)

(** Case analysis on every comparison the goal branches on. *)
Ltac case_Qltb :=
  repeat match goal with |- context [Qltb ?a ?b] => destruct (Qltb a b) end.

(** A constant stream of draws lies in [0, 1). *)
Ltac draws_in_range :=
  intro; split; vm_compute; [discriminate | reflexivity].

(** ** Numbers *)

Lemma Qltb_lt (x y : Q) : Qltb x y = true <-> x < y.
Proof. unfold Qltb, Qlt. apply Z.ltb_lt. Qed.

Lemma Qltb_ge (x y : Q) : Qltb x y = false <-> y <= x.
Proof. unfold Qltb, Qle. apply Z.ltb_ge. Qed.

Lemma Qgeb_le (x y : Q) : Qgeb x y = true <-> y <= x.
Proof. unfold Qgeb, Qle. apply Z.leb_le. Qed.

Lemma Qgeb_gt (x y : Q) : Qgeb x y = false <-> x < y.
Proof. unfold Qgeb, Qlt. apply Z.leb_gt. Qed.

(** An integer over 100 as a product. *)
Lemma cents_eq (n : Z) : n # 100 == inject_Z n * (1 # 100).
Proof. unfold Qeq; simpl. lia. Qed.

Lemma cents_le (n : Z) (x : Q) : n # 100 <= x <-> inject_Z n <= x * 100.
Proof. rewrite cents_eq. split; intro H; lra. Qed.

Lemma cents_ge (n : Z) (x : Q) : x <= n # 100 <-> x * 100 <= inject_Z n.
Proof. rewrite cents_eq. split; intro H; lra. Qed.

Lemma cents_mono (n m : Z) : (n <= m)%Z -> n # 100 <= m # 100.
Proof. intro H. unfold Qle; cbn [Qnum Qden]. lia. Qed.

Lemma toFixed2_nonneg (x : Q) :
  0 <= x -> toFixed2 x = Qfloor (x * 100 + (1 # 2)) # 100.
Proof.
  intro H. unfold toFixed2.
  destruct (Qltb x 0) eqn:E; [|reflexivity].
  apply Qltb_lt in E. lra.
Qed.

(** The result of rounding is within half a hundredth of the argument. *)
Lemma toFixed2_close (x : Q) :
  0 <= x -> x - (1 # 200) < toFixed2 x /\ toFixed2 x <= x + (1 # 200).
Proof.
  intro H. rewrite (toFixed2_nonneg x H).
  pose proof (Qfloor_le (x * 100 + (1 # 2))) as Hlo.
  pose proof (Qlt_floor (x * 100 + (1 # 2))) as Hhi.
  set (n := Qfloor (x * 100 + (1 # 2))) in *.
  rewrite inject_Z_plus in Hhi.
  split.
  - apply Qnot_le_lt. intro Hc. apply cents_le in Hc.
    change (inject_Z 1) with 1 in Hhi. lra.
  - apply cents_le. lra.
Qed.

Lemma toFixed2_mono (x y : Q) :
  0 <= x -> x <= y -> toFixed2 x <= toFixed2 y.
Proof.
  intros Hx Hxy.
  rewrite (toFixed2_nonneg x), (toFixed2_nonneg y) by lra.
  apply cents_mono, Qfloor_resp_le. lra.
Qed.

(** A non-negative number of hundredths is left as it is. *)
Lemma toFixed2_cents (n : Z) : (0 <= n)%Z -> toFixed2 (n # 100) = n # 100.
Proof.
  intro Hn. rewrite toFixed2_nonneg by (unfold Qle; simpl; lia).
  f_equal. unfold Qfloor, Qmult, Qplus; simpl.
  symmetry. apply Z.div_unique with (r := 100%Z); lia.
Qed.

Lemma toFixed2_is_cents (x : Q) :
  0 <= x -> exists n : Z, (0 <= n)%Z /\ toFixed2 x = n # 100.
Proof.
  intro Hx. exists (Qfloor (x * 100 + (1 # 2))). split.
  - change 0%Z with (Qfloor 0). apply Qfloor_resp_le. lra.
  - apply toFixed2_nonneg, Hx.
Qed.

Lemma toFixed2_idem (x : Q) : 0 <= x -> toFixed2 (toFixed2 x) = toFixed2 x.
Proof.
  intro Hx. destruct (toFixed2_is_cents x Hx) as (n & Hn & ->).
  apply toFixed2_cents, Hn.
Qed.

(** Rounding a number of an interval whose ends are hundredths stays in the
    interval. *)
Lemma toFixed2_between (a b : Z) (x : Q) :
  (0 <= a)%Z -> a # 100 <= x -> x <= b # 100 ->
  a # 100 <= toFixed2 x <= b # 100.
Proof.
  intros Ha Hlo Hhi.
  assert (H0 : 0 <= a # 100) by (unfold Qle; simpl; lia).
  assert (Hb : (0 <= b)%Z).
  { assert (Hab : a # 100 <= b # 100) by lra.
    unfold Qle in Hab; simpl in Hab. lia. }
  split.
  - rewrite <- (toFixed2_cents a Ha). apply toFixed2_mono; lra.
  - rewrite <- (toFixed2_cents b Hb). apply toFixed2_mono; lra.
Qed.

(** ** Powers of two *)

Lemma pow2_pos (k : Z) : 0 < pow2 k.
Proof. apply Qpower_0_lt. reflexivity. Qed.

Lemma pow2_add (a b : Z) : pow2 (a + b) == pow2 a * pow2 b.
Proof. apply Qpower_plus. discriminate. Qed.

Lemma pow2_lt (a b : Z) : (a < b)%Z -> pow2 a < pow2 b.
Proof. intro H. apply Qpower_lt_compat_l; [exact H | reflexivity]. Qed.

Lemma pow2_le (a b : Z) : (a <= b)%Z -> pow2 a <= pow2 b.
Proof. intro H. apply Qpower_le_compat_l; [exact H | discriminate]. Qed.

Lemma pow2_lt_inv (a b : Z) : pow2 a < pow2 b -> (a < b)%Z.
Proof. intro H. apply (Qpower_lt_compat_l_inv 2); [exact H | reflexivity]. Qed.

Lemma pow2_Z (k : Z) : (0 <= k)%Z -> pow2 k == inject_Z (2 ^ k).
Proof. intro H. unfold pow2. rewrite (Zpower_Qpower 2 k H). reflexivity. Qed.

Lemma pow2_succ (a : Z) : pow2 (a + 1) == 2 * pow2 a.
Proof. rewrite pow2_add. change (pow2 1) with 2. ring. Qed.

Lemma pow2_cancel (a : Z) : pow2 a * pow2 (- a) == 1.
Proof. rewrite <- pow2_add, Z.add_opp_diag_r. reflexivity. Qed.

(** ** Rounding to a binary format *)

(** [binade] finds the power of two below a positive number. *)
Lemma binade_spec (x : Q) :
  0 < x -> pow2 (binade x) <= x /\ x < pow2 (binade x + 1).
Proof.
  intro Hx. unfold binade.
  set (n := Qnum x). set (d := QDen x).
  assert (Hn : (0 < n)%Z).
  { unfold Qlt in Hx. cbn in Hx. unfold n. lia. }
  assert (Hd : (0 < d)%Z) by (unfold d; lia).
  set (a := Z.log2 n). set (b := Z.log2 d).
  destruct (Z.log2_spec n Hn) as [A1 A2]. fold a in A1, A2.
  destruct (Z.log2_spec d Hd) as [B1 B2]. fold b in B1, B2.
  assert (Ha0 : (0 <= a)%Z) by apply Z.log2_nonneg.
  assert (Hb0 : (0 <= b)%Z) by apply Z.log2_nonneg.
  assert (QA1 : pow2 a <= inject_Z n) by (rewrite (pow2_Z a Ha0), <- Zle_Qle; exact A1).
  assert (QA2 : inject_Z n < 2 * pow2 a).
  { rewrite <- pow2_succ, (pow2_Z (a + 1)) by lia. rewrite <- Zlt_Qlt. exact A2. }
  assert (QB1 : pow2 b <= inject_Z d) by (rewrite (pow2_Z b Hb0), <- Zle_Qle; exact B1).
  assert (QB2 : inject_Z d < 2 * pow2 b).
  { rewrite <- pow2_succ, (pow2_Z (b + 1)) by lia. rewrite <- Zlt_Qlt. exact B2. }
  assert (Hxd : x * inject_Z d == inject_Z n).
  { unfold Qeq, Qmult, inject_Z, n, d. cbn. lia. }
  assert (HE : pow2 (a - b) * pow2 b == pow2 a).
  { rewrite <- pow2_add. replace (a - b + b)%Z with a by lia. reflexivity. }
  pose proof (pow2_pos (a - b)) as PE. pose proof (pow2_pos b) as PB.
  pose proof (pow2_pos a) as PA.
  assert (Hup : x < 2 * pow2 (a - b)).
  { apply Qnot_le_lt. intro Hc.
    assert (2 * pow2 (a - b) * inject_Z d <= x * inject_Z d).
    { apply Qmult_le_compat_r; [exact Hc | lra]. }
    assert (2 * pow2 (a - b) * pow2 b <= 2 * pow2 (a - b) * inject_Z d).
    { apply Qmult_le_l; lra. }
    nra. }
  assert (Hlo : pow2 (a - b) <= 2 * x).
  { apply Qnot_lt_le. intro Hc.
    assert (2 * x * inject_Z d <= pow2 (a - b) * inject_Z d).
    { apply Qmult_le_compat_r; lra. }
    assert (pow2 (a - b) * inject_Z d <= pow2 (a - b) * (2 * pow2 b)).
    { apply Qmult_le_l; lra. }
    nra. }
  destruct (Qle_bool (pow2 (a - b)) x) eqn:E.
  - apply Qle_bool_iff in E. split; [exact E|]. rewrite pow2_succ. exact Hup.
  - assert (Hlt : x < pow2 (a - b)).
    { apply Qnot_le_lt. intro Hc. apply Qle_bool_iff in Hc. congruence. }
    replace (a - b - 1 + 1)%Z with (a - b)%Z by lia.
    split; [|exact Hlt].
    assert (E2 : pow2 (a - b) == 2 * pow2 (a - b - 1)).
    { rewrite <- pow2_succ. replace (a - b - 1 + 1)%Z with (a - b)%Z by lia. reflexivity. }
    lra.
Qed.

Lemma binade_unique (x : Q) (e : Z) :
  pow2 e <= x -> x < pow2 (e + 1) -> binade x = e.
Proof.
  intros H1 H2.
  assert (Hx : 0 < x) by (pose proof (pow2_pos e); lra).
  destruct (binade_spec x Hx) as [S1 S2].
  assert (pow2 e < pow2 (binade x + 1)) by lra.
  assert (pow2 (binade x) < pow2 (e + 1)) by lra.
  apply pow2_lt_inv in H. apply pow2_lt_inv in H0. lia.
Qed.

(** Rounding to the nearest integer. *)
Lemma floor_unique (y : Q) (k : Z) :
  inject_Z k <= y -> y < inject_Z k + 1 -> Qfloor y = k.
Proof.
  intros H1 H2.
  pose proof (Qfloor_le y) as F1. pose proof (Qlt_floor y) as F2.
  rewrite inject_Z_plus in F2. change (inject_Z 1) with 1 in F2.
  assert (A : inject_Z (Qfloor y) < inject_Z k + 1) by lra.
  assert (B : inject_Z k < inject_Z (Qfloor y) + 1) by lra.
  change 1 with (inject_Z 1) in A, B. rewrite <- inject_Z_plus in A, B.
  rewrite <- Zlt_Qlt in A, B. lia.
Qed.

Lemma rne_cases (y : Q) :
  (y - inject_Z (Qfloor y) < 1 # 2 /\ rne y = Qfloor y) \/
  (y - inject_Z (Qfloor y) == 1 # 2 /\
   (rne y = Qfloor y \/ rne y = (Qfloor y + 1)%Z)) \/
  (1 # 2 < y - inject_Z (Qfloor y) /\ rne y = (Qfloor y + 1)%Z).
Proof.
  unfold rne. cbv zeta.
  destruct (Qcompare (y - inject_Z (Qfloor y)) (1 # 2)) eqn:E.
  - right; left. apply Qeq_alt in E. split; [exact E|].
    destruct (Z.even (Qfloor y)); auto.
  - left. apply Qlt_alt in E. auto.
  - right; right. apply Qgt_alt in E. auto.
Qed.

Lemma rne_close (y : Q) :
  y - (1 # 2) <= inject_Z (rne y) <= y + (1 # 2).
Proof.
  pose proof (Qfloor_le y) as F1. pose proof (Qlt_floor y) as F2.
  rewrite inject_Z_plus in F2. change (inject_Z 1) with 1 in F2.
  destruct (rne_cases y) as [[H ->] | [[H [-> | ->]] | [H ->]]];
    rewrite ?inject_Z_plus; change (inject_Z 1) with 1; lra.
Qed.

Lemma rne_Z (k : Z) : rne (inject_Z k) = k.
Proof.
  assert (F : Qfloor (inject_Z k) = k) by apply Qfloor_Z.
  destruct (rne_cases (inject_Z k)) as [[H E] | [[H E] | [H E]]];
    rewrite F in *; [exact E | lra | lra].
Qed.

Lemma rne_comp (y z : Q) : y == z -> rne y = rne z.
Proof.
  intro H. unfold rne. cbv zeta. rewrite (Qfloor_comp _ _ H).
  assert (E : y - inject_Z (Qfloor z) == z - inject_Z (Qfloor z)) by (rewrite H; reflexivity).
  rewrite (Qcompare_comp _ _ E _ _ (Qeq_refl (1 # 2))). reflexivity.
Qed.

Lemma rne_mono (y z : Q) : y <= z -> (rne y <= rne z)%Z.
Proof.
  intro H. pose proof (Qfloor_resp_le y z H) as Hf.
  destruct (Z.eq_dec (Qfloor y) (Qfloor z)) as [E | N].
  - destruct (rne_cases y) as [[Hy Ey] | [[Hy Ey] | [Hy Ey]]];
    destruct (rne_cases z) as [[Hz Ez] | [[Hz Ez] | [Hz Ez]]];
    rewrite E in *; try lia; try lra.
    unfold rne in *. cbv zeta in *. rewrite E.
    assert (C : Qcompare (y - inject_Z (Qfloor z)) (1 # 2) = Eq) by (apply Qeq_alt; exact Hy).
    assert (C' : Qcompare (z - inject_Z (Qfloor z)) (1 # 2) = Eq) by (apply Qeq_alt; exact Hz).
    rewrite C, C'. lia.
  - assert (Hlt : (Qfloor y + 1 <= Qfloor z)%Z) by lia.
    destruct (rne_cases y) as [[_ Ey] | [[_ [Ey|Ey]] | [_ Ey]]];
    destruct (rne_cases z) as [[_ Ez] | [[_ [Ez|Ez]] | [_ Ez]]]; lia.
Qed.

(** Rounding to [p] bits: the result is monotone, within a relative
    [2^-p] of the argument, and exact on the integers below [2^p]. *)
Section Rounding.

Variable p : Z.
Hypothesis p_pos : (1 <= p)%Z.

Lemma scaled_range (x : Q) :
  0 < x ->
  pow2 (p - 1) <= x * pow2 (p - 1 - binade x) /\
  x * pow2 (p - 1 - binade x) < pow2 p.
Proof.
  intro Hx. destruct (binade_spec x Hx) as [S1 S2].
  set (e := binade x) in *.
  pose proof (pow2_pos (p - 1 - e)) as Pc.
  assert (E1 : pow2 e * pow2 (p - 1 - e) == pow2 (p - 1)).
  { rewrite <- pow2_add. replace (e + (p - 1 - e))%Z with (p - 1)%Z by lia. reflexivity. }
  assert (E2 : pow2 (e + 1) * pow2 (p - 1 - e) == pow2 p).
  { rewrite <- pow2_add. replace (e + 1 + (p - 1 - e))%Z with p by lia. reflexivity. }
  split.
  - rewrite <- E1. apply Qmult_le_compat_r; lra.
  - rewrite <- E2. apply Qmult_lt_compat_r; lra.
Qed.

Lemma nearest_pos_unscale (x : Q) :
  x * pow2 (p - 1 - binade x) * pow2 (binade x - (p - 1)) == x.
Proof.
  rewrite <- Qmult_assoc, <- pow2_add.
  replace (p - 1 - binade x + (binade x - (p - 1)))%Z with 0%Z by lia.
  change (pow2 0) with 1. ring.
Qed.

Lemma nearest_pos_range (x : Q) :
  0 < x ->
  pow2 (binade x) <= nearest_pos p x /\ nearest_pos p x <= pow2 (binade x + 1).
Proof.
  intro Hx. destruct (scaled_range x Hx) as [R1 R2]. unfold nearest_pos. cbv zeta.
  set (e := binade x) in *. set (sc := x * pow2 (p - 1 - e)) in *.
  pose proof (pow2_pos (e - (p - 1))) as Pc.
  assert (L : (2 ^ (p - 1) <= rne sc)%Z).
  { rewrite <- (rne_Z (2 ^ (p - 1))). apply rne_mono.
    rewrite <- pow2_Z by lia. exact R1. }
  assert (U : (rne sc <= 2 ^ p)%Z).
  { rewrite <- (rne_Z (2 ^ p)). apply rne_mono.
    rewrite <- pow2_Z by lia. lra. }
  rewrite Zle_Qle in L, U. rewrite <- pow2_Z in L, U by lia.
  assert (E1 : pow2 (p - 1) * pow2 (e - (p - 1)) == pow2 e).
  { rewrite <- pow2_add. replace (p - 1 + (e - (p - 1)))%Z with e by lia. reflexivity. }
  assert (E2 : pow2 p * pow2 (e - (p - 1)) == pow2 (e + 1)).
  { rewrite <- pow2_add. replace (p + (e - (p - 1)))%Z with (e + 1)%Z by lia. reflexivity. }
  split.
  - rewrite <- E1. apply Qmult_le_compat_r; lra.
  - rewrite <- E2. apply Qmult_le_compat_r; lra.
Qed.

Lemma nearest_pos_mono (x y : Q) :
  0 < x -> x <= y -> nearest_pos p x <= nearest_pos p y.
Proof.
  intros Hx Hxy. assert (Hy : 0 < y) by lra.
  destruct (binade_spec x Hx) as [X1 X2]. destruct (binade_spec y Hy) as [Y1 Y2].
  destruct (Z.eq_dec (binade x) (binade y)) as [E | N].
  - unfold nearest_pos. cbv zeta. rewrite E.
    pose proof (pow2_pos (binade y - (p - 1))) as Pc.
    pose proof (pow2_pos (p - 1 - binade y)) as Pd.
    apply Qmult_le_compat_r; [|lra].
    rewrite <- Zle_Qle. apply rne_mono. apply Qmult_le_compat_r; lra.
  - assert (Hlt : (binade x < binade y)%Z).
    { assert (H : pow2 (binade x) < pow2 (binade y + 1)) by lra.
      apply pow2_lt_inv in H. lia. }
    destruct (nearest_pos_range x Hx) as [_ U]. destruct (nearest_pos_range y Hy) as [L _].
    pose proof (pow2_le (binade x + 1) (binade y) ltac:(lia)). lra.
Qed.

Lemma nearest_pos_err (x : Q) :
  0 < x ->
  x - x * pow2 (- p) <= nearest_pos p x /\ nearest_pos p x <= x + x * pow2 (- p).
Proof.
  intro Hx. destruct (binade_spec x Hx) as [S1 _].
  pose proof (nearest_pos_unscale x) as Eu. unfold nearest_pos. cbv zeta.
  set (e := binade x) in *. set (sc := x * pow2 (p - 1 - e)) in *.
  pose proof (rne_close sc) as [C1 C2].
  pose proof (pow2_pos (e - (p - 1))) as Pc.
  assert (Eh : (1 # 2) * pow2 (e - (p - 1)) == pow2 e * pow2 (- p)).
  { rewrite <- pow2_add. replace (e + - p)%Z with (e - (p - 1) + -1)%Z by lia.
    rewrite pow2_add. change (pow2 (-1)) with (1 # 2). ring. }
  pose proof (pow2_pos (- p)) as Pp.
  assert (Hb : pow2 e * pow2 (- p) <= x * pow2 (- p))
    by (apply Qmult_le_compat_r; lra).
  assert (A : (sc - (1 # 2)) * pow2 (e - (p - 1)) <= inject_Z (rne sc) * pow2 (e - (p - 1)))
    by (apply Qmult_le_compat_r; lra).
  assert (B : inject_Z (rne sc) * pow2 (e - (p - 1)) <= (sc + (1 # 2)) * pow2 (e - (p - 1)))
    by (apply Qmult_le_compat_r; lra).
  split; nra.
Qed.

Lemma nearest_pos_Z (a : Z) :
  (0 < a < 2 ^ p)%Z -> nearest_pos p (inject_Z a) == inject_Z a.
Proof.
  intros [H0 Hp].
  destruct (Z.log2_spec a H0) as [L1 L2].
  assert (He : binade (inject_Z a) = Z.log2 a).
  { apply binade_unique.
    - rewrite pow2_Z by apply Z.log2_nonneg. rewrite <- Zle_Qle. exact L1.
    - rewrite pow2_Z by (pose proof (Z.log2_nonneg a); lia).
      rewrite <- Zlt_Qlt. exact L2. }
  assert (Hle : (Z.log2 a <= p - 1)%Z).
  { assert (Z.log2 a < p)%Z; [|lia].
    apply Z.log2_lt_pow2; lia. }
  pose proof (nearest_pos_unscale (inject_Z a)) as Eu.
  unfold nearest_pos. cbv zeta. rewrite He in *.
  assert (Es : inject_Z a * pow2 (p - 1 - Z.log2 a)
               == inject_Z (a * 2 ^ (p - 1 - Z.log2 a))).
  { rewrite inject_Z_mult, pow2_Z by lia. reflexivity. }
  rewrite (rne_comp _ _ Es), rne_Z, <- Es. exact Eu.
Qed.

Lemma nearest_0 : nearest p 0 = 0.
Proof. reflexivity. Qed.

Lemma nearest_pos_eq (x : Q) : 0 < x -> nearest p x = nearest_pos p x.
Proof.
  intro H. unfold nearest. apply Qgt_alt in H. rewrite H. reflexivity.
Qed.

Lemma nearest_zero (x : Q) : x == 0 -> nearest p x = 0.
Proof.
  intro H. unfold nearest. apply Qeq_alt in H. rewrite H. reflexivity.
Qed.

Lemma nearest_nonneg (x : Q) : 0 <= x -> 0 <= nearest p x.
Proof.
  intro H. destruct (Qlt_le_dec 0 x) as [Hp | Hz].
  - rewrite (nearest_pos_eq x Hp). destruct (nearest_pos_range x Hp) as [L _].
    pose proof (pow2_pos (binade x)). lra.
  - rewrite (nearest_zero x) by lra. lra.
Qed.

Lemma nearest_mono (x y : Q) : 0 <= x -> x <= y -> nearest p x <= nearest p y.
Proof.
  intros H0 Hxy. destruct (Qlt_le_dec 0 x) as [Hp | Hz].
  - rewrite (nearest_pos_eq x Hp), (nearest_pos_eq y) by lra.
    apply nearest_pos_mono; assumption.
  - rewrite (nearest_zero x) by lra. apply nearest_nonneg. lra.
Qed.

Lemma nearest_Z (a : Z) :
  (0 <= a < 2 ^ p)%Z -> nearest p (inject_Z a) == inject_Z a.
Proof.
  intros [H0 Hp]. destruct (Z.eq_dec a 0) as [-> | N]; [reflexivity|].
  rewrite nearest_pos_eq by (change 0 with (inject_Z 0); rewrite <- Zlt_Qlt; lia).
  apply nearest_pos_Z. lia.
Qed.

Lemma nearest_between (a b : Z) (x : Q) :
  (0 <= a < 2 ^ p)%Z -> (0 <= b < 2 ^ p)%Z ->
  inject_Z a <= x -> x <= inject_Z b ->
  inject_Z a <= nearest p x <= inject_Z b.
Proof.
  intros Ha Hb H1 H2.
  assert (A0 : 0 <= inject_Z a)
    by (change 0 with (inject_Z 0); rewrite <- Zle_Qle; lia).
  split.
  - rewrite <- (nearest_Z a Ha). apply nearest_mono; assumption.
  - rewrite <- (nearest_Z b Hb). apply nearest_mono; lra.
Qed.

Lemma nearest_err (x : Q) :
  0 <= x ->
  x - x * pow2 (- p) <= nearest p x /\ nearest p x <= x + x * pow2 (- p).
Proof.
  intro H. destruct (Qlt_le_dec 0 x) as [Hp | Hz].
  - rewrite (nearest_pos_eq x Hp). apply nearest_pos_err, Hp.
  - rewrite (nearest_zero x) by lra.
    assert (E : x == 0) by lra. rewrite E. split; lra.
Qed.

End Rounding.

(** ** Double and single precision *)

(** Single precision keeps a number between the integers it lies
    between. *)
Lemma f32_between (a b : Z) (x : Q) :
  (0 <= a)%Z -> (b < 2 ^ 24)%Z ->
  inject_Z a <= x -> x <= inject_Z b ->
  inject_Z a <= f32 x <= inject_Z b.
Proof.
  intros Ha Hb H1 H2.
  assert (Hab : (a <= b)%Z) by (rewrite Zle_Qle; lra).
  apply nearest_between; [lia | lia | lia | exact H1 | exact H2].
Qed.

Lemma b64_nonneg (x : Q) : 0 <= x -> 0 <= b64 x.
Proof. apply nearest_nonneg. lia. Qed.

Lemma b64_mono (x y : Q) : 0 <= x -> x <= y -> b64 x <= b64 y.
Proof. apply nearest_mono. lia. Qed.

(** Rounding stays between two integers the argument lies between. *)
Lemma b64_between (a b : Z) (x : Q) :
  (0 <= a)%Z -> (b < 2 ^ 53)%Z ->
  inject_Z a <= x -> x <= inject_Z b ->
  inject_Z a <= b64 x <= inject_Z b.
Proof.
  intros Ha Hb H1 H2.
  assert (Hab : (a <= b)%Z) by (rewrite Zle_Qle; lra).
  apply nearest_between; [lia | lia | lia | exact H1 | exact H2].
Qed.

(** Below 128 a rounding moves a number by [2^-46] at most. *)
Lemma b64_err (x : Q) :
  0 <= x -> x <= 128 ->
  x - (1 # 70368744177664) <= b64 x <= x + (1 # 70368744177664).
Proof.
  intros H0 H1.
  destruct (nearest_err 53 x H0) as [E1 E2]. fold b64 in E1, E2.
  assert (P : pow2 (- 53) == 1 # 9007199254740992) by reflexivity.
  rewrite P in E1, E2. split; lra.
Qed.

(** The argument whose hundredths lie within a half of [n] rounds to
    [n] hundredths. *)
Lemma toFixed2_near (n : Z) (x : Q) :
  0 <= x ->
  inject_Z n - (1 # 2) <= x * 100 -> x * 100 < inject_Z n + (1 # 2) ->
  toFixed2 x = n # 100.
Proof.
  intros H0 H1 H2. rewrite toFixed2_nonneg by exact H0.
  f_equal. apply floor_unique; lra.
Qed.

(** ** Counting *)

Lemma count_from_app (p : Z -> bool) (a b : nat) :
  forall lo : Z,
    count_from p lo (a + b) =
      (count_from p lo a + count_from p (lo + Z.of_nat a) b)%Z.
Proof.
  induction a as [|a IH]; intro lo.
  - cbn [count_from Nat.add]. rewrite Z.add_0_r. reflexivity.
  - cbn [count_from Nat.add]. rewrite IH.
    replace (lo + 1 + Z.of_nat a)%Z with (lo + Z.of_nat (S a))%Z by lia.
    lia.
Qed.

Lemma count_from_bounds (p : Z -> bool) (len : nat) :
  forall lo : Z, (0 <= count_from p lo len <= Z.of_nat len)%Z.
Proof.
  induction len as [|len IH]; intro lo; cbn [count_from]; [lia|].
  specialize (IH (lo + 1)%Z). destruct (p lo); lia.
Qed.

Lemma count_from_true (p : Z -> bool) (len : nat) :
  forall lo : Z,
    (forall k : Z, (lo <= k < lo + Z.of_nat len)%Z -> p k = true) ->
    count_from p lo len = Z.of_nat len.
Proof.
  induction len as [|len IH]; intros lo H; cbn [count_from]; [reflexivity|].
  rewrite (H lo) by lia. rewrite IH; [lia|].
  intros k Hk. apply H. lia.
Qed.

Lemma count_from_false (p : Z -> bool) (len : nat) :
  forall lo : Z,
    (forall k : Z, (lo <= k < lo + Z.of_nat len)%Z -> p k = false) ->
    count_from p lo len = 0%Z.
Proof.
  induction len as [|len IH]; intros lo H; cbn [count_from]; [reflexivity|].
  rewrite (H lo) by lia. rewrite IH; [lia|].
  intros k Hk. apply H. lia.
Qed.

Lemma count_range_split (p : Z -> bool) (lo mid hi : Z) :
  (lo <= mid <= hi)%Z ->
  count_range p lo hi = (count_range p lo mid + count_range p mid hi)%Z.
Proof.
  intro H. unfold count_range.
  replace (Z.to_nat (hi - lo))
    with (Z.to_nat (mid - lo) + Z.to_nat (hi - mid))%nat by lia.
  rewrite count_from_app.
  replace (lo + Z.of_nat (Z.to_nat (mid - lo)))%Z with mid by lia.
  reflexivity.
Qed.

Lemma count_range_bounds (p : Z -> bool) (lo hi : Z) :
  (lo <= hi)%Z -> (0 <= count_range p lo hi <= hi - lo)%Z.
Proof.
  intro H. unfold count_range.
  pose proof (count_from_bounds p (Z.to_nat (hi - lo)) lo). lia.
Qed.

Lemma count_range_true (p : Z -> bool) (lo hi : Z) :
  (lo <= hi)%Z ->
  (forall k : Z, (lo <= k < hi)%Z -> p k = true) ->
  count_range p lo hi = (hi - lo)%Z.
Proof.
  intros H Hp. unfold count_range. rewrite count_from_true; [lia|].
  intros k Hk. apply Hp. lia.
Qed.

Lemma count_range_false (p : Z -> bool) (lo hi : Z) :
  (forall k : Z, (lo <= k < hi)%Z -> p k = false) ->
  count_range p lo hi = 0%Z.
Proof.
  intro Hp. unfold count_range. apply count_from_false.
  intros k Hk. apply Hp. lia.
Qed.

(** A predicate that holds from [b] to [c] and fails below [a] and from
    [d] on is satisfied by [c - b] numbers at least and [d - a] at most. *)
Lemma count_range_window (p : Z -> bool) (lo a b c d hi : Z) :
  (lo <= a <= b)%Z -> (b <= c)%Z -> (c <= d <= hi)%Z ->
  (forall k : Z, (lo <= k < a)%Z -> p k = false) ->
  (forall k : Z, (b <= k < c)%Z -> p k = true) ->
  (forall k : Z, (d <= k < hi)%Z -> p k = false) ->
  (c - b <= count_range p lo hi <= d - a)%Z.
Proof.
  intros H1 H2 H3 Plo Pin Phi.
  rewrite (count_range_split p lo a hi) by lia.
  rewrite (count_range_split p a b hi) by lia.
  rewrite (count_range_split p b c hi) by lia.
  rewrite (count_range_split p c d hi) by lia.
  rewrite (count_range_false p lo a Plo), (count_range_false p d hi Phi).
  rewrite (count_range_true p b c H2 Pin).
  pose proof (count_range_bounds p a b ltac:(lia)).
  pose proof (count_range_bounds p c d ltac:(lia)).
  lia.
Qed.

(** The integers next to a rational: what [Qfloor] gives, for [lra]. *)
Lemma floor_bounds (x : Q) :
  inject_Z (Qfloor x) <= x /\ x < inject_Z (Qfloor x) + 1.
Proof.
  pose proof (Qfloor_le x) as F1. pose proof (Qlt_floor x) as F2.
  rewrite inject_Z_plus in F2. change (inject_Z 1) with 1 in F2.
  split; assumption.
Qed.

Lemma inject_Z_sub (a b : Z) : inject_Z (a - b) == inject_Z a - inject_Z b.
Proof. unfold Z.sub. rewrite inject_Z_plus, inject_Z_opp. reflexivity. Qed.

(** An order between integers read from the rationals, and back. *)
Ltac from_Q := first [rewrite Zle_Qle | rewrite Zlt_Qlt];
  repeat first [rewrite inject_Z_plus | rewrite inject_Z_sub
               | rewrite inject_Z_mult];
  unfold inject_Z in *; lra.
Ltac to_Q H := first [rewrite Zle_Qle in H | rewrite Zlt_Qlt in H];
  repeat first [rewrite inject_Z_plus in H | rewrite inject_Z_sub in H
               | rewrite inject_Z_mult in H].

(** ** The grid *)

Lemma grid_draw_eq (k : Z) :
  grid_draw k == inject_Z k * (1 # 4503599627370496).
Proof. unfold grid_draw, Qeq; simpl. lia. Qed.

Lemma grid_draw_range (k : Z) :
  (0 <= k < grid)%Z -> 0 <= grid_draw k /\ grid_draw k < 1.
Proof.
  unfold grid. intros [H0 H1]. unfold grid_draw, Qle, Qlt; cbn [Qnum Qden].
  lia.
Qed.

(** The draw of the grid next below a number of [0, 1). *)
Lemma grid_below (t : Q) :
  0 <= t -> t < 1 ->
  exists k : Z,
    (0 <= k < grid)%Z /\
    t - (1 # 4503599627370496) < grid_draw k /\ grid_draw k <= t.
Proof.
  intros H0 H1. exists (Qfloor (t * 4503599627370496)).
  destruct (floor_bounds (t * 4503599627370496)) as [F1 F2].
  set (k := Qfloor (t * 4503599627370496)) in *.
  split; [split|].
  - assert (A : (-1 < k)%Z) by from_Q. lia.
  - unfold grid. from_Q.
  - rewrite (grid_draw_eq k). split; lra.
Qed.

(** ** The generator *)

(** The comparisons of the generator against the integers. *)
Ltac b64_bounds a b :=
  apply (b64_between a b); [lia | reflexivity | unfold inject_Z; lra ..].

Section Generator.

Variable random : nat -> Q.

(** The test reads the counter it is given and the cursor only. *)
Lemma high_value_test_cases (c : Z) (s : State) :
  (((7 <= c <= 15)%Z /\ random (rng s) < b64 0.3) /\
   high_value_test random c s = (true, set_rng (S (rng s)) s))
  \/
  (((7 <= c <= 15)%Z /\ b64 0.3 <= random (rng s)) /\
   high_value_test random c s = (false, set_rng (S (rng s)) s))
  \/
  (~ (7 <= c <= 15)%Z /\ high_value_test random c s = (false, s)).
Proof.
  unfold high_value_test, bind, Math_random, ret.
  destruct ((7 <=? c) && (c <=? 15))%Z eqn:E.
  - apply andb_true_iff in E. destruct E as [E1 E2].
    apply Z.leb_le in E1. apply Z.leb_le in E2.
    destruct (Qltb (random (rng s)) (b64 0.3)) eqn:Ec.
    + left. apply Qltb_lt in Ec. auto.
    + right; left. apply Qltb_ge in Ec. auto.
  - right; right. split; [|reflexivity].
    apply andb_false_iff in E. intros [H1 H2].
    destruct E as [E|E]; apply Z.leb_gt in E; lia.
Qed.

(** The two paths of a call, with the draws they consume. *)
Lemma generateCrashPoint_high (s : State) :
  takes_high_value random s = true ->
  generateCrashPoint random s =
    (toFixed2 (b64 (b64 (random (S (rng s)) * 30) + 20)),
     set_rng (S (S (rng s)))
       (set_crashCounter 0%Z
          (set_rng (S (rng s)) (set_crashCounter (crashCounter s + 1)%Z s)))).
Proof.
  unfold takes_high_value. intro H.
  unfold generateCrashPoint, bind, incr_crashCounter.
  destruct (high_value_test_cases (crashCounter s + 1)
              (set_crashCounter (crashCounter s + 1)%Z s))
    as [[[Hc Hr] E] | [[[Hc Hr] E] | [Hc E]]];
  destruct (high_value_test_cases (crashCounter s + 1) s)
    as [[[Hc' Hr'] E'] | [[[Hc' Hr'] E'] | [Hc' E']]];
  rewrite E' in H; cbn [fst] in H; try discriminate H;
  try (cbn [rng set_crashCounter] in Hr; lra); try contradiction;
  rewrite E; reflexivity.
Qed.

Lemma generateCrashPoint_band (s : State) :
  takes_high_value random s = false ->
  exists s2 : State,
    high_value_test random (crashCounter s + 1)
      (set_crashCounter (crashCounter s + 1)%Z s) = (false, s2) /\
    rng s2 = rng (snd (high_value_test random (crashCounter s + 1) s)) /\
    crashCounter s2 = (crashCounter s + 1)%Z /\
    generateCrashPoint random s =
      (toFixed2 (band_value (band_roll random s) (random (S (rng s2)))),
       set_rng (S (S (rng s2))) s2).
Proof.
  unfold takes_high_value, band_roll. intro H.
  unfold generateCrashPoint, bind, incr_crashCounter.
  destruct (high_value_test_cases (crashCounter s + 1)
              (set_crashCounter (crashCounter s + 1)%Z s))
    as [[[Hc Hr] E] | [[[Hc Hr] E] | [Hc E]]];
  destruct (high_value_test_cases (crashCounter s + 1) s)
    as [[[Hc' Hr'] E'] | [[[Hc' Hr'] E'] | [Hc' E']]];
  rewrite E' in H |- *; cbn [fst] in H; try discriminate H;
  try (cbn [rng set_crashCounter] in Hr; lra); try contradiction;
  rewrite E; eexists; (split; [reflexivity|]);
  unfold band_value, Math_random, ret;
  cbn [fst snd rng crashCounter set_rng set_crashCounter];
  (split; [reflexivity|]); (split; [reflexivity|]);
  case_Qltb; reflexivity.
Qed.

Lemma high_value_between (u : Q) :
  0 <= u < 1 -> 20 <= toFixed2 (b64 (b64 (u * 30) + 20)) <= 50.
Proof.
  intro Hu.
  assert (P : 0 <= b64 (u * 30) <= 30) by (b64_bounds 0%Z 30%Z).
  assert (T : 20 <= b64 (b64 (u * 30) + 20) <= 50) by (b64_bounds 20%Z 50%Z).
  assert (H : 2000 # 100 <= toFixed2 (b64 (b64 (u * 30) + 20)) <= 5000 # 100).
  { apply toFixed2_between; [lia | lra | lra]. }
  lra.
Qed.

(** The value of each band before [toFixed]. *)
Lemma band_value_cases (roll u : Q) :
  0 <= u < 1 ->
  (roll < 55 -> 1 <= band_value roll u <= 2) /\
  (55 <= roll < 80 -> 2 <= band_value roll u <= 10) /\
  (80 <= roll < 95 -> 10 <= band_value roll u <= 30) /\
  (95 <= roll -> 30 <= band_value roll u <= 50).
Proof.
  intro Hu. unfold band_value.
  assert (P8 : 0 <= b64 (u * 8) <= 8) by (b64_bounds 0%Z 8%Z).
  assert (P20 : 0 <= b64 (u * 20) <= 20) by (b64_bounds 0%Z 20%Z).
  destruct (Qltb roll 55) eqn:E1;
    [apply Qltb_lt in E1 | apply Qltb_ge in E1];
  (destruct (Qltb roll 80) eqn:E2;
    [apply Qltb_lt in E2 | apply Qltb_ge in E2]);
  (destruct (Qltb roll 95) eqn:E3;
    [apply Qltb_lt in E3 | apply Qltb_ge in E3]);
  (split; [|split; [|split]]); intro Hr; try lra.
  all: match goal with
       | |- 1 <= _ <= _ => b64_bounds 1%Z 2%Z
       | |- 2 <= _ <= _ => b64_bounds 2%Z 10%Z
       | |- 10 <= _ <= _ => b64_bounds 10%Z 30%Z
       | |- 30 <= _ <= _ => b64_bounds 30%Z 50%Z
       end.
Qed.

Lemma band_value_between (roll u : Q) :
  0 <= u < 1 ->
  (roll < 55 -> 1 <= toFixed2 (band_value roll u) <= 2) /\
  (55 <= roll < 80 -> 2 <= toFixed2 (band_value roll u) <= 10) /\
  (80 <= roll < 95 -> 10 <= toFixed2 (band_value roll u) <= 30) /\
  (95 <= roll -> 30 <= toFixed2 (band_value roll u) <= 50).
Proof.
  intro Hu. destruct (band_value_cases roll u Hu) as (B1 & B2 & B3 & B4).
  (split; [|split; [|split]]); intro Hr.
  - assert (H : 100 # 100 <= toFixed2 (band_value roll u) <= 200 # 100).
    { specialize (B1 Hr). apply toFixed2_between; [lia | lra | lra]. }
    lra.
  - assert (H : 200 # 100 <= toFixed2 (band_value roll u) <= 1000 # 100).
    { specialize (B2 Hr). apply toFixed2_between; [lia | lra | lra]. }
    lra.
  - assert (H : 1000 # 100 <= toFixed2 (band_value roll u) <= 3000 # 100).
    { specialize (B3 Hr). apply toFixed2_between; [lia | lra | lra]. }
    lra.
  - assert (H : 3000 # 100 <= toFixed2 (band_value roll u) <= 5000 # 100).
    { specialize (B4 Hr). apply toFixed2_between; [lia | lra | lra]. }
    lra.
Qed.

Lemma band_value_nonneg (roll u : Q) : 0 <= u -> 0 <= band_value roll u.
Proof.
  intro Hu. unfold band_value.
  pose proof (b64_nonneg (u * 8)) as P8.
  pose proof (b64_nonneg (u * 20)) as P20.
  case_Qltb; apply b64_nonneg; lra.
Qed.

(** The roll of the band path: a draw below 1 gives a roll of 100 at most,
    and a draw that is a double gives a roll below 100. *)
Lemma roll_range (u : Q) :
  0 <= u < 1 ->
  0 <= b64 (u * 100) <= 100 /\
  (u <= 1 - (1 # 9007199254740992) -> b64 (u * 100) < 100).
Proof.
  intro Hu. split; [b64_bounds 0%Z 100%Z|].
  intro Hd.
  assert (M : b64 (u * 100) <= b64 ((1 - (1 # 9007199254740992)) * 100))
    by (apply b64_mono; lra).
  assert (E : b64 ((1 - (1 # 9007199254740992)) * 100) < 100)
    by (vm_compute; reflexivity).
  lra.
Qed.

(** A draw equal to the double 0.3 fails the coin, and so does every
    draw from there on. *)
Lemma coin_at_threshold (s : State) :
  (7 <= crashCounter s + 1 <= 15)%Z ->
  b64 0.3 <= random (rng s) ->
  takes_high_value random s = false.
Proof.
  intros Hc Hr. unfold takes_high_value.
  destruct (high_value_test_cases (crashCounter s + 1) s)
    as [[[_ Hlt] _] | [[_ E] | [_ E]]];
    [lra | rewrite E; reflexivity ..].
Qed.

(** ** The high value as a function of the draw *)

(** Two roundings move the sum by [2^-45] at most. *)
Lemma high_value_arg (u : Q) :
  0 <= u -> u <= 1 ->
  u * 30 + 20 - (1 # 35184372088832) <= b64 (b64 (u * 30) + 20) /\
  b64 (b64 (u * 30) + 20) <= u * 30 + 20 + (1 # 35184372088832).
Proof.
  intros H0 H1.
  assert (P : 0 <= b64 (u * 30) <= 30) by (b64_bounds 0%Z 30%Z).
  assert (E1 : u * 30 - (1 # 70368744177664) <= b64 (u * 30)
               <= u * 30 + (1 # 70368744177664))
    by (apply b64_err; lra).
  assert (E2 : b64 (u * 30) + 20 - (1 # 70368744177664)
               <= b64 (b64 (u * 30) + 20)
               <= b64 (u * 30) + 20 + (1 # 70368744177664))
    by (apply b64_err; lra).
  split; lra.
Qed.

Lemma high_value_arg_nonneg (u : Q) :
  0 <= u -> u <= 1 -> 0 <= b64 (b64 (u * 30) + 20).
Proof.
  intros H0 H1.
  assert (P : 0 <= b64 (u * 30) <= 30) by (b64_bounds 0%Z 30%Z).
  apply b64_nonneg. lra.
Qed.

(** The high value is within half a hundredth, and the error of the two
    roundings, of [20 + 30 u]. *)
Lemma high_value_close (u : Q) :
  0 <= u -> u <= 1 ->
  u * 30 + 20 - ((1 # 200) + (1 # 10000000000000)) <= high_value u /\
  high_value u <= u * 30 + 20 + ((1 # 200) + (1 # 10000000000000)).
Proof.
  intros H0 H1. unfold high_value.
  destruct (high_value_arg u H0 H1) as [A1 A2].
  destruct (toFixed2_close _ (high_value_arg_nonneg u H0 H1)) as [C1 C2].
  split; lra.
Qed.

(** It is the hundredth nearest to [20 + 30 u], unless that number lies
    within [10^-13] of the middle of two hundredths. *)
Lemma high_value_nearest (n : Z) (u : Q) :
  0 <= u -> u <= 1 ->
  inject_Z n - (1 # 2) + (1 # 100000000000) <= (u * 30 + 20) * 100 ->
  (u * 30 + 20) * 100 <= inject_Z n + (1 # 2) - (1 # 100000000000) ->
  high_value u = n # 100.
Proof.
  intros H0 H1 L U. unfold high_value.
  destruct (high_value_arg u H0 H1) as [A1 A2].
  apply toFixed2_near; [apply high_value_arg_nonneg; assumption | lra | lra].
Qed.

Lemma high_value_mono (u1 u2 : Q) :
  0 <= u1 -> u1 <= u2 -> high_value u1 <= high_value u2.
Proof.
  intros H0 H12. unfold high_value.
  pose proof (b64_nonneg (u1 * 30)) as P1.
  assert (M : b64 (u1 * 30) <= b64 (u2 * 30)) by (apply b64_mono; lra).
  apply toFixed2_mono.
  - apply b64_nonneg. lra.
  - apply b64_mono; lra.
Qed.

(** Every two-decimal value from 20.00 to 50.00 is the high value of a
    draw of the grid. *)
Lemma high_value_onto (n : Z) :
  (2000 <= n <= 5000)%Z ->
  exists k : Z, (0 <= k < grid)%Z /\ high_value (grid_draw k) = n # 100.
Proof.
  intro Hn.
  assert (N1 : inject_Z 2000 <= inject_Z n) by (rewrite <- Zle_Qle; lia).
  assert (N2 : inject_Z n <= inject_Z 5000) by (rewrite <- Zle_Qle; lia).
  change (inject_Z 2000) with 2000 in N1.
  change (inject_Z 5000) with 5000 in N2.
  destruct (Z.eq_dec n 5000) as [-> | Hne].
  - destruct (grid_below (9999 # 10000)) as (k & Hk & L & U);
      [lra | lra |].
    exists k. split; [exact Hk|].
    apply high_value_nearest; unfold inject_Z; lra.
  - assert (N3 : inject_Z n <= inject_Z 4999) by (rewrite <- Zle_Qle; lia).
    change (inject_Z 4999) with 4999 in N3.
    destruct (grid_below ((inject_Z n - 2000) * (1 # 3000))) as (k & Hk & L & U);
      [lra | lra |].
    exists k. split; [exact Hk|].
    destruct (grid_draw_range k Hk) as [K0 _].
    apply high_value_nearest; lra.
Qed.

End Generator.

(** The double 0.3 as the coin draw, with the counter in range: the band
    path. *)
Example coin_draws_band :
  coin_draws 0 < 0.3 /\
  takes_high_value coin_draws (set_crashCounter 9%Z boot) = false.
Proof. split; vm_compute; reflexivity. Qed.

(** ** The coin and the high value over the grid *)

(** Of the [2^52] draws of the grid, 1351079888211149 are below the double
    0.3: three tenths of them, rounded up. *)
Lemma coin_count :
  count_draws (fun c => Qltb c (b64 0.3)) = 1351079888211149%Z.
Proof.
  assert (E : b64 0.3 == 5404319552844595 # 18014398509481984)
    by (vm_compute; reflexivity).
  unfold count_draws, grid.
  assert (W : (1351079888211149 - 0
               <= count_range (fun k => Qltb (grid_draw k) (b64 0.3))
                    0 4503599627370496
               <= 1351079888211149 - 0)%Z).
  { apply (count_range_window _ 0 0 0 1351079888211149 1351079888211149);
      try lia.
    - intros k Hk. apply Qltb_lt. rewrite E, grid_draw_eq.
      assert (K : inject_Z k <= inject_Z 1351079888211148)
        by (rewrite <- Zle_Qle; lia).
      unfold inject_Z in *. lra.
    - intros k Hk. apply Qltb_ge. rewrite E, grid_draw_eq.
      assert (K : inject_Z 1351079888211149 <= inject_Z k)
        by (rewrite <- Zle_Qle; lia).
      unfold inject_Z in *. lra. }
  lia.
Qed.

(** A draw [k / 2^52] gives [n] hundredths when [k] is at least 20 inside
    the interval of the draws whose exact image rounds to [n], and does not
    when it is at least 20 outside. *)
Lemma high_value_is_inside (n k : Z) :
  (0 <= k < grid)%Z ->
  (2 * inject_Z n - 4001) * (4503599627370496 # 6000) + 20 <= inject_Z k ->
  inject_Z k <= (2 * inject_Z n - 3999) * (4503599627370496 # 6000) - 20 ->
  high_value_is n (grid_draw k) = true.
Proof.
  intros Hk L U. destruct (grid_draw_range k Hk) as [G0 G1].
  unfold high_value_is. apply Qeq_bool_iff.
  pose proof (grid_draw_eq k) as Eg.
  rewrite (high_value_nearest n (grid_draw k)); [reflexivity | lra ..].
Qed.

Lemma high_value_is_outside (n k : Z) :
  (0 <= k < grid)%Z ->
  inject_Z k <= (2 * inject_Z n - 4001) * (4503599627370496 # 6000) - 20 \/
  (2 * inject_Z n - 3999) * (4503599627370496 # 6000) + 20 <= inject_Z k ->
  high_value_is n (grid_draw k) = false.
Proof.
  intros Hk Hout. destruct (grid_draw_range k Hk) as [G0 G1].
  destruct (high_value_is n (grid_draw k)) eqn:E; [|reflexivity].
  exfalso. unfold high_value_is in E. apply Qeq_bool_iff in E.
  rewrite (cents_eq n) in E.
  pose proof (grid_draw_eq k) as Eg.
  assert (G1' : grid_draw k <= 1) by lra.
  destruct (high_value_close (grid_draw k) G0 G1') as [C1 C2].
  destruct Hout; lra.
Qed.

(** Each two-decimal value strictly between 20.00 and 50.00 is returned for
    one draw of the grid in 3000, up to 50 draws. *)
Lemma high_value_count (n : Z) :
  (2000 < n < 5000)%Z ->
  (grid - 150000 <= 3000 * count_draws (high_value_is n) <= grid + 150000)%Z.
Proof.
  intro Hn. unfold count_draws.
  assert (N1 : inject_Z 2001 <= inject_Z n) by (rewrite <- Zle_Qle; lia).
  assert (N2 : inject_Z n <= inject_Z 4999) by (rewrite <- Zle_Qle; lia).
  set (Lq := (2 * inject_Z n - 4001) * (4503599627370496 # 6000)).
  set (Rq := (2 * inject_Z n - 3999) * (4503599627370496 # 6000)).
  destruct (floor_bounds Lq) as [L1 L2]. destruct (floor_bounds Rq) as [R1 R2].
  set (fL := Qfloor Lq) in *. set (fR := Qfloor Rq) in *.
  assert (Z0 : (0 <= fL - 20)%Z) by (unfold Lq in *; from_Q).
  assert (Z1 : (fL + 21 <= fR - 20)%Z) by (unfold Lq, Rq in *; from_Q).
  assert (Z2 : (fR + 21 <= grid)%Z) by (unfold grid, Rq in *; from_Q).
  assert (W : (fR - 20 - (fL + 21)
               <= count_range (fun k => high_value_is n (grid_draw k)) 0 grid
               <= fR + 21 - (fL - 20))%Z).
  { apply count_range_window; try lia.
    - intros k [K0 K1]. apply high_value_is_outside; [lia|]. left.
      fold Lq. assert (K : (k <= fL - 21)%Z) by lia. to_Q K.
      unfold inject_Z in *. lra.
    - intros k [K0 K1]. apply high_value_is_inside; [lia | fold Lq | fold Rq].
      + to_Q K0. unfold inject_Z in *. lra.
      + assert (K : (k <= fR - 21)%Z) by lia. to_Q K.
        unfold inject_Z in *. lra.
    - intros k [K0 K1]. apply high_value_is_outside; [lia|]. right.
      fold Rq. to_Q K0. unfold inject_Z in *. lra. }
  assert (D1 : (grid - 3000 <= 3000 * (fR - fL))%Z)
    by (unfold grid, Lq, Rq in *; from_Q).
  assert (D2 : (3000 * (fR - fL) <= grid + 3000)%Z)
    by (unfold grid, Lq, Rq in *; from_Q).
  lia.
Qed.

(** 20.00 and 50.00 are returned for one draw in 6000 each, up to 25
    draws. *)
Lemma high_value_count_ends (n : Z) :
  n = 2000%Z \/ n = 5000%Z ->
  (grid - 150000 <= 6000 * count_draws (high_value_is n) <= grid + 150000)%Z.
Proof.
  unfold count_draws.
  set (Lq := (2 * inject_Z n - 4001) * (4503599627370496 # 6000)).
  set (Rq := (2 * inject_Z n - 3999) * (4503599627370496 # 6000)).
  destruct (floor_bounds Lq) as [L1 L2]. destruct (floor_bounds Rq) as [R1 R2].
  set (fL := Qfloor Lq) in *. set (fR := Qfloor Rq) in *.
  intros [E | E]; subst n.
  - assert (Z1 : (0 <= fR - 20)%Z) by (unfold Rq in *; from_Q).
    assert (Z2 : (fR + 21 <= grid)%Z) by (unfold grid, Rq in *; from_Q).
    assert (W : (fR - 20 - 0
                 <= count_range (fun k => high_value_is 2000 (grid_draw k))
                      0 grid
                 <= fR + 21 - 0)%Z).
    { apply (count_range_window _ 0 0 0 (fR - 20) (fR + 21)); try lia.
      - intros k [K0 K1]. apply high_value_is_inside; [lia | | fold Rq].
        + to_Q K0. unfold inject_Z in *. lra.
        + assert (K : (k <= fR - 21)%Z) by lia. to_Q K.
          unfold inject_Z in *. lra.
      - intros k [K0 K1]. apply high_value_is_outside; [lia|]. right.
        fold Rq. to_Q K0. unfold inject_Z in *. lra. }
    assert (D1 : (grid - 6000 <= 6000 * fR)%Z)
      by (unfold grid, Rq in *; from_Q).
    assert (D2 : (6000 * fR <= grid)%Z) by (unfold grid, Rq in *; from_Q).
    lia.
  - assert (Z0 : (0 <= fL - 20)%Z) by (unfold Lq in *; from_Q).
    assert (Z1 : (fL + 21 <= grid)%Z) by (unfold grid, Lq in *; from_Q).
    assert (W : (grid - (fL + 21)
                 <= count_range (fun k => high_value_is 5000 (grid_draw k))
                      0 grid
                 <= grid - (fL - 20))%Z).
    { apply (count_range_window _ 0 (fL - 20) (fL + 21) grid grid); try lia.
      - intros k [K0 K1]. apply high_value_is_outside; [lia|]. left.
        fold Lq. assert (K : (k <= fL - 21)%Z) by lia. to_Q K.
        unfold inject_Z in *. lra.
      - intros k [K0 K1]. apply high_value_is_inside; [lia | fold Lq |].
        + to_Q K0. unfold inject_Z in *. lra.
        + unfold grid in K1. to_Q K1. unfold inject_Z in *. lra. }
    assert (D1 : (grid <= 6000 * (grid - fL))%Z)
      by (unfold grid, Lq in *; from_Q).
    assert (D2 : (6000 * (grid - fL) <= grid + 6000)%Z)
      by (unfold grid, Lq in *; from_Q).
    lia.
Qed.

(** No draw gives a value outside [20.00, 50.00]: the counts above are those
    of all [2^52] draws. *)
Lemma high_value_count_none (n : Z) :
  ~ (2000 <= n <= 5000)%Z -> count_draws (high_value_is n) = 0%Z.
Proof.
  intro Hn. unfold count_draws. apply count_range_false.
  intros k Hk. destruct (grid_draw_range k Hk) as [G0 G1].
  destruct (high_value_is n (grid_draw k)) eqn:E; [|reflexivity].
  exfalso. apply Hn. unfold high_value_is in E. apply Qeq_bool_iff in E.
  rewrite (cents_eq n) in E.
  pose proof (high_value_between (grid_draw k) (conj G0 G1)) as B.
  fold (high_value (grid_draw k)) in B.
  split; from_Q.
Qed.

(** ** The roll over the grid *)

(** The roll does not decrease when the draw grows. *)
Lemma roll_mono (d1 d2 : Q) :
  0 <= d1 -> d1 <= d2 -> b64 (d1 * 100) <= b64 (d2 * 100).
Proof. intros H0 H. apply b64_mono; lra. Qed.

(** The draws whose roll is below [t] are those up to a last one [k0]. *)
Lemma roll_below_count (t k0 : Z) :
  (0 <= k0)%Z -> (k0 + 1 < grid)%Z ->
  roll_below t (grid_draw k0) = true ->
  roll_below t (grid_draw (k0 + 1)) = false ->
  count_draws (roll_below t) = (k0 + 1)%Z.
Proof.
  intros H0 H1 Hlo Hhi. unfold count_draws.
  unfold roll_below in Hlo, Hhi.
  apply Qltb_lt in Hlo. apply Qltb_ge in Hhi.
  assert (W : (k0 + 1 - 0
               <= count_range (fun k => roll_below t (grid_draw k)) 0 grid
               <= k0 + 1 - 0)%Z).
  { apply (count_range_window _ 0 0 0 (k0 + 1) (k0 + 1)); try lia.
    - intros k [K0 K1]. unfold roll_below. apply Qltb_lt.
      destruct (grid_draw_range k) as [G0 _]; [lia|].
      assert (M : b64 (grid_draw k * 100) <= b64 (grid_draw k0 * 100)).
      { apply roll_mono; [exact G0|].
        unfold grid_draw, Qle; cbn [Qnum Qden]. lia. }
      lra.
    - intros k [K0 K1]. unfold roll_below. apply Qltb_ge.
      destruct (grid_draw_range (k0 + 1)) as [G0 _]; [lia|].
      assert (M : b64 (grid_draw (k0 + 1) * 100) <= b64 (grid_draw k * 100)).
      { apply roll_mono; [exact G0|].
        unfold grid_draw, Qle; cbn [Qnum Qden]. lia. }
      lra. }
  lia.
Qed.

(** Of the [2^52] draws, 55, 80 and 95 in 100 give a roll below 55, 80
    and 95, to the draw, and all of them one below 100. *)
Lemma roll_counts :
  count_draws (roll_below 55) = 2476979795053773%Z /\
  count_draws (roll_below 80) = 3602879701896397%Z /\
  count_draws (roll_below 95) = 4278419646001971%Z /\
  count_draws (roll_below 100) = grid.
Proof.
  split; [|split; [|split]].
  - apply (roll_below_count 55 2476979795053772);
      [lia | reflexivity | vm_compute; reflexivity ..].
  - apply (roll_below_count 80 3602879701896396);
      [lia | reflexivity | vm_compute; reflexivity ..].
  - apply (roll_below_count 95 4278419646001970);
      [lia | reflexivity | vm_compute; reflexivity ..].
  - unfold count_draws. rewrite count_range_true; [lia | unfold grid; lia |].
    intros k Hk. unfold roll_below. apply Qltb_lt.
    destruct (grid_draw_range k Hk) as [G0 G1].
    assert (D : grid_draw k <= 1 - (1 # 9007199254740992)).
    { rewrite (grid_draw_eq k).
      assert (K : (k <= 4503599627370495)%Z) by (unfold grid in Hk; lia).
      to_Q K. unfold inject_Z in *. lra. }
    exact (proj2 (roll_range (grid_draw k) (conj G0 G1)) D).
Qed.

(** ** Tables *)

Section Tables.

Context {A : Type} (key : A -> Z).

Lemma ascending_bounds (l : list A) :
  forall lo hi, ascending key lo l hi -> (lo <= hi)%Z.
Proof.
  induction l as [|x l IH]; intros lo hi H; cbn in H; [exact H|].
  destruct H as [H1 H2]. apply IH in H2. lia.
Qed.

Lemma ascending_weaken (l : list A) :
  forall lo lo' hi, (lo' <= lo)%Z -> ascending key lo l hi -> ascending key lo' l hi.
Proof.
  destruct l as [|x l]; intros lo lo' hi Hle H; cbn in *; [lia|].
  destruct H as [H1 H2]. split; [lia | exact H2].
Qed.

Lemma ascending_in (l : list A) :
  forall lo hi x, ascending key lo l hi -> In x l -> (lo <= key x < hi)%Z.
Proof.
  induction l as [|y l IH]; intros lo hi x H Hin; [destruct Hin|].
  cbn in H. destruct H as [H1 H2].
  destruct Hin as [-> | Hin].
  - apply ascending_bounds in H2. lia.
  - specialize (IH _ _ _ H2 Hin). lia.
Qed.

Lemma ascending_app (l1 l2 : list A) :
  forall lo mid hi,
    ascending key lo l1 mid -> ascending key mid l2 hi ->
    ascending key lo (l1 ++ l2) hi.
Proof.
  induction l1 as [|x l1 IH]; intros lo mid hi H1 H2; cbn in *.
  - eapply ascending_weaken; eauto.
  - destruct H1 as [Ha Hb]. split; [exact Ha | eapply IH; eauto].
Qed.

Lemma ascending_snoc (l : list A) (x : A) :
  forall lo hi,
    ascending key lo l hi -> key x = hi -> ascending key lo (l ++ [x]) (hi + 1)%Z.
Proof.
  intros lo hi H Hx. apply ascending_app with (mid := hi); [exact H|].
  cbn. lia.
Qed.

Lemma ascending_split (l1 l2 : list A) :
  forall lo hi,
    ascending key lo (l1 ++ l2) hi ->
    exists mid, ascending key lo l1 mid /\ ascending key mid l2 hi.
Proof.
  induction l1 as [|x l1 IH]; intros lo hi H; cbn in *.
  - exists lo. split; [lia | exact H].
  - destruct H as [Ha Hb]. destruct (IH _ _ Hb) as (mid & M1 & M2).
    exists mid. auto.
Qed.

Lemma ascending_filter (f : A -> bool) (l : list A) :
  forall lo hi, ascending key lo l hi -> ascending key lo (filter f l) hi.
Proof.
  induction l as [|x l IH]; intros lo hi H; cbn in *; [exact H|].
  destruct H as [H1 H2]. specialize (IH _ _ H2).
  destruct (f x); cbn.
  - split; assumption.
  - eapply ascending_weaken; [|exact IH]. lia.
Qed.

(** On a well-formed table [ORDER BY key ASC] is the table itself. *)
Lemma order_by_asc (l : list A) :
  forall lo hi, ascending key lo l hi -> order_by key false l = l.
Proof.
  induction l as [|x l IH]; intros lo hi H; [reflexivity|].
  cbn in H. destruct H as [H1 H2].
  cbn [order_by fold_right]. fold (order_by key false l).
  rewrite (IH _ _ H2).
  destruct l as [|y l]; [reflexivity|].
  cbn in H2. destruct H2 as [H2 _].
  cbn [insert_row]. unfold comes_first.
  destruct (Z.leb_spec (key x) (key y)); [reflexivity | lia].
Qed.

Lemma insert_row_desc_last (x : A) (m : list A) :
  (forall y, In y m -> (key x < key y)%Z) ->
  insert_row key true x m = m ++ [x].
Proof.
  induction m as [|y m IH]; intro H; [reflexivity|].
  cbn [insert_row]. unfold comes_first.
  destruct (Z.leb_spec (key y) (key x)) as [Hle|Hlt].
  - specialize (H y (or_introl eq_refl)). lia.
  - cbn. f_equal. apply IH. intros z Hz. apply H. right. exact Hz.
Qed.

(** ... and [ORDER BY key DESC] is the table reversed. *)
Lemma order_by_desc (l : list A) :
  forall lo hi, ascending key lo l hi -> order_by key true l = rev l.
Proof.
  induction l as [|x l IH]; intros lo hi H; [reflexivity|].
  cbn in H. destruct H as [H1 H2].
  cbn [order_by fold_right]. fold (order_by key true l).
  rewrite (IH _ _ H2). cbn [rev].
  apply insert_row_desc_last.
  intros y Hy. apply in_rev in Hy.
  pose proof (ascending_in _ _ _ _ H2 Hy). lia.
Qed.

(** Filtering a well-formed table on membership of the keys of its last
    [n] rows keeps exactly those rows. *)
Lemma keep_latest (n : nat) (l : list A) :
  forall lo hi,
    ascending key lo l hi ->
    filter (fun r => existsb (Z.eqb (key r))
                       (map key (firstn n (order_by key true l)))) l
    = lastn n l.
Proof.
  intros lo hi H. rewrite (order_by_desc l lo hi H), firstn_rev.
  unfold lastn. set (k := (length l - n)%nat).
  rewrite <- (firstn_skipn k l) in H |- * at 1.
  destruct (ascending_split _ _ _ _ H) as (mid & M1 & M2).
  rewrite filter_app.
  assert (Hin : forall r, In r (skipn k l) ->
            existsb (Z.eqb (key r)) (map key (rev (skipn k l))) = true).
  { intros r Hr. apply existsb_exists. exists (key r).
    split; [|apply Z.eqb_refl].
    apply in_map. apply -> in_rev. exact Hr. }
  assert (Hout : forall r, In r (firstn k l) ->
            existsb (Z.eqb (key r)) (map key (rev (skipn k l))) = false).
  { intros r Hr.
    destruct (existsb (Z.eqb (key r)) (map key (rev (skipn k l)))) eqn:E;
      [|reflexivity].
    apply existsb_exists in E. destruct E as (z & Hz & Heq).
    apply Z.eqb_eq in Heq. subst z.
    apply in_map_iff in Hz. destruct Hz as (y & Hy & Hyin).
    apply in_rev in Hyin.
    pose proof (ascending_in _ _ _ _ M1 Hr).
    pose proof (ascending_in _ _ _ _ M2 Hyin). lia. }
  assert (F1 : filter (fun r => existsb (Z.eqb (key r))
                  (map key (rev (skipn k l)))) (firstn k l) = []).
  { clear - Hout. induction (firstn k l) as [|a m IH]; [reflexivity|].
    cbn. rewrite (Hout a (or_introl eq_refl)). apply IH.
    intros r Hr. apply Hout. right. exact Hr. }
  assert (F2 : forall m, (forall r, In r m ->
                  existsb (Z.eqb (key r)) (map key (rev (skipn k l))) = true) ->
               filter (fun r => existsb (Z.eqb (key r))
                  (map key (rev (skipn k l)))) m = m).
  { induction m as [|a m IH]; intro Hm; [reflexivity|].
    cbn. rewrite (Hm a (or_introl eq_refl)). f_equal. apply IH.
    intros r Hr. apply Hm. right. exact Hr. }
  rewrite F1, (F2 _ Hin). reflexivity.
Qed.

End Tables.

(** ** The effect of each operation on the state *)

Section Effects.

Variable random : nat -> Q.
Variable clock : nat -> Z.

Lemma bind_run {A B : Type} (m : M A) (k : A -> M B) (s : State) :
  bind m k s = k (fst (m s)) (snd (m s)).
Proof. unfold bind. destruct (m s). reflexivity. Qed.

(** The generator touches its counter and the draw cursor only. *)
Lemma generateCrashPoint_frame (s : State) :
  let s' := snd (generateCrashPoint random s) in
  currentRound s' = currentRound s /\ isCrashed s' = isCrashed s /\
  liveScore s' = liveScore s /\ interval s' = interval s /\
  luckyjet_round s' = luckyjet_round s /\ round_auto s' = round_auto s /\
  luckyjet_round_log s' = luckyjet_round_log s /\ log_auto s' = log_auto s /\
  clk s' = clk s /\ emitted s' = emitted s.
Proof.
  destruct (takes_high_value random s) eqn:E.
  - rewrite (generateCrashPoint_high random s E). cbn. tauto.
  - unfold generateCrashPoint, bind, incr_crashCounter.
    destruct (high_value_test_cases random (crashCounter s + 1)
                (set_crashCounter (crashCounter s + 1)%Z s))
      as [[_ ->] | [[_ ->] | [_ ->]]];
    unfold Math_random, modify, ret;
    case_Qltb; cbn; tauto.
Qed.

(** One iteration of the loop of [prefillRounds]. *)
Lemma prefill_loop_S (n : nat) (i : Z) (s : State) :
  prefill_loop random clock (S n) i s =
    let g := generateCrashPoint random (set_clk (S (clk s)) s) in
    prefill_loop random clock n (i + 1)
      (set_round_table
         (luckyjet_round (snd g) ++
            [mkRound (round_auto (snd g)) (clock (clk s) + i * 1000) (fst g)
               false (clock (clk (snd g)))])
         (round_auto (snd g) + 1)%Z
         (set_clk (S (clk (snd g))) (snd g))).
Proof.
  cbn [prefill_loop]. rewrite !bind_run. reflexivity.
Qed.

(** The loop of [prefillRounds] appends [n] fresh rows, none running, with
    the next [n] ids, and touches nothing else the scheduler looks at. *)
Lemma prefill_loop_effect (n : nat) :
  forall (i : Z) (s : State),
    let s' := snd (prefill_loop random clock n i s) in
    currentRound s' = currentRound s /\ isCrashed s' = isCrashed s /\
    liveScore s' = liveScore s /\ interval s' = interval s /\
    luckyjet_round_log s' = luckyjet_round_log s /\ log_auto s' = log_auto s /\
    emitted s' = emitted s /\
    round_auto s' = (round_auto s + Z.of_nat n)%Z /\
    exists fresh : list Round,
      luckyjet_round s' = luckyjet_round s ++ fresh /\
      length fresh = n /\ not_running fresh /\
      ascending id (round_auto s) fresh (round_auto s + Z.of_nat n)%Z.
Proof.
  induction n as [|n IH]; intros i s.
  - cbn. repeat split; try lia.
    exists []. rewrite app_nil_r. cbn. repeat split; [constructor | lia].
  - rewrite prefill_loop_S. cbn zeta.
    pose proof (generateCrashPoint_frame (set_clk (S (clk s)) s)) as F.
    destruct (generateCrashPoint random (set_clk (S (clk s)) s)) as [cp s1].
    cbn [fst snd] in *. cbn in F.
    destruct F as (F1 & F2 & F3 & F4 & F5 & F6 & F7 & F8 & F9 & F10).
    match goal with |- context [prefill_loop _ _ n ?j ?t] =>
      specialize (IH j t); cbn zeta in IH;
      destruct IH as (I1 & I2 & I3 & I4 & I5 & I6 & I7 & I8 & fresh & I9 & I10 & I11 & I12)
    end.
    cbn in I1, I2, I3, I4, I5, I6, I7, I8, I9, I12.
    repeat split; try congruence; try lia.
    exists (mkRound (round_auto s1) (clock (clk s) + i * 1000) cp false
              (clock (clk s1)) :: fresh).
    rewrite I9, <- app_assoc, F5. cbn [app].
    split; [reflexivity | split; [|split]].
    + cbn. lia.
    + constructor; [reflexivity | exact I11].
    + cbn [ascending id]. split; [lia|].
      replace (round_auto s + Z.of_nat (S n))%Z
        with (round_auto s1 + 1 + Z.of_nat n)%Z by lia.
      exact I12.
Qed.

End Effects.

(** ** The tick *)

(** The step added by [advance], tier by tier. *)
Lemma advance_tiers (ls : Q) :
  (ls < 1.5 -> advance ls = ls + 0.01) /\
  (1.5 <= ls < 3 -> advance ls = ls + 0.02) /\
  (3 <= ls < 5 -> advance ls = ls + 0.05) /\
  (5 <= ls < 10 -> advance ls = ls + 0.1) /\
  (10 <= ls < 50 -> advance ls = ls + 0.15) /\
  (50 <= ls -> advance ls = ls + 0.2).
Proof.
  unfold advance.
  destruct (Qltb ls 1.5) eqn:E1; [apply Qltb_lt in E1 | apply Qltb_ge in E1];
  (destruct (Qltb ls 3) eqn:E2; [apply Qltb_lt in E2 | apply Qltb_ge in E2]);
  (destruct (Qltb ls 5) eqn:E3; [apply Qltb_lt in E3 | apply Qltb_ge in E3]);
  (destruct (Qltb ls 10) eqn:E4; [apply Qltb_lt in E4 | apply Qltb_ge in E4]);
  (destruct (Qltb ls 50) eqn:E5; [apply Qltb_lt in E5 | apply Qltb_ge in E5]);
  repeat (split; [intro H; try reflexivity; lra|]);
  intro H; try reflexivity; lra.
Qed.

Lemma advance_bounds (ls : Q) : ls + 0.01 <= advance ls <= ls + 0.2.
Proof.
  unfold advance.
  case_Qltb; lra.
Qed.

(** Rounding after the step never loses what the step added. *)
Lemma tick_progress (ls : Q) :
  0 <= ls -> ls + (1 # 200) <= toFixed2 (advance ls).
Proof.
  intro H. pose proof (advance_bounds ls) as Hb.
  destruct (toFixed2_close (advance ls)) as [Hlo _]; lra.
Qed.

(** A number that is a whole number of hundredths is its own rounding. *)
Lemma toFixed2_fix (x : Q) (n : Z) :
  (0 <= n)%Z -> x == n # 100 -> toFixed2 x == x.
Proof.
  intros Hn Hx.
  assert (H0 : 0 <= x).
  { rewrite Hx. unfold Qle; cbn [Qnum Qden]. lia. }
  rewrite (toFixed2_nonneg x H0).
  assert (E : x * 100 + (1 # 2) == inject_Z n + (1 # 2)).
  { rewrite Hx, cents_eq. lra. }
  rewrite (Qfloor_comp _ _ E).
  assert (F : Qfloor (inject_Z n + (1 # 2)) = n).
  { unfold Qfloor, Qplus, inject_Z; cbn [Qnum Qden].
    symmetry. apply Z.div_unique with (r := 1%Z); lia. }
  rewrite F. symmetry. exact Hx.
Qed.

(** From a two-decimal score the step lands on a two-decimal score, so the
    rounding changes nothing. *)
Lemma advance_exact (ls : Q) :
  0 <= ls -> toFixed2 ls = ls -> toFixed2 (advance ls) == advance ls.
Proof.
  intros H0 Hfix.
  destruct (toFixed2_is_cents ls H0) as (m & Hm & Em).
  rewrite Hfix in Em.
  assert (Eq : ls == inject_Z m * (1 # 100)) by (rewrite Em; apply cents_eq).
  unfold advance.
  case_Qltb.
  - apply toFixed2_fix with (n := (m + 1)%Z); [lia|].
    rewrite (cents_eq (m + 1)), inject_Z_plus, Eq. change (inject_Z 1) with 1. lra.
  - apply toFixed2_fix with (n := (m + 2)%Z); [lia|].
    rewrite (cents_eq (m + 2)), inject_Z_plus, Eq. change (inject_Z 2) with 2. lra.
  - apply toFixed2_fix with (n := (m + 5)%Z); [lia|].
    rewrite (cents_eq (m + 5)), inject_Z_plus, Eq. change (inject_Z 5) with 5. lra.
  - apply toFixed2_fix with (n := (m + 10)%Z); [lia|].
    rewrite (cents_eq (m + 10)), inject_Z_plus, Eq. change (inject_Z 10) with 10. lra.
  - apply toFixed2_fix with (n := (m + 15)%Z); [lia|].
    rewrite (cents_eq (m + 15)), inject_Z_plus, Eq. change (inject_Z 15) with 15. lra.
  - apply toFixed2_fix with (n := (m + 20)%Z); [lia|].
    rewrite (cents_eq (m + 20)), inject_Z_plus, Eq. change (inject_Z 20) with 20. lra.
Qed.

Lemma tick_crashed (s : State) : isCrashed s = true -> tick s = (tt, s).
Proof. intro H. unfold tick. rewrite bind_run. cbn. rewrite H. reflexivity. Qed.

Lemma tick_live (s : State) :
  isCrashed s = false -> tick s = crash_check (scored s).
Proof.
  intro H. unfold tick. rewrite bind_run. cbn [gets fst snd]. rewrite H.
  rewrite !bind_run. reflexivity.
Qed.

Lemma crash_check_eq (s : State) (r : Round) :
  currentRound s = Some r ->
  crash_check s =
    if Qgeb (liveScore s) (crashPoint r)
    then (tt, set_interval false
                (emit (crashed (crashPoint r)) (set_isCrashed true s)))
    else (tt, s).
Proof.
  intro Hr. unfold crash_check. rewrite !bind_run. cbn [gets fst snd].
  rewrite Hr. destruct (Qgeb (liveScore s) (crashPoint r)); [|reflexivity].
  rewrite !bind_run. reflexivity.
Qed.

Lemma tick_crash (s : State) (r : Round) :
  isCrashed s = false -> currentRound s = Some r ->
  crashPoint r <= toFixed2 (advance (liveScore s)) ->
  tick s = (tt, set_interval false
                  (emit (crashed (crashPoint r))
                     (set_isCrashed true (scored s)))).
Proof.
  intros H Hr Hge. rewrite (tick_live s H).
  rewrite (crash_check_eq (scored s) r Hr).
  change (liveScore (scored s)) with (toFixed2 (advance (liveScore s))).
  apply Qgeb_le in Hge. rewrite Hge. reflexivity.
Qed.

Lemma tick_climb (s : State) (r : Round) :
  isCrashed s = false -> currentRound s = Some r ->
  toFixed2 (advance (liveScore s)) < crashPoint r ->
  tick s = (tt, scored s).
Proof.
  intros H Hr Hlt. rewrite (tick_live s H).
  rewrite (crash_check_eq (scored s) r Hr).
  change (liveScore (scored s)) with (toFixed2 (advance (liveScore s))).
  apply Qgeb_gt in Hlt. rewrite Hlt. reflexivity.
Qed.

Lemma timer_fire_armed (s : State) :
  interval s = true -> timer_fire s = tick s.
Proof. intro H. unfold timer_fire. rewrite bind_run. cbn. rewrite H. reflexivity. Qed.

Lemma timer_fire_cleared (s : State) :
  interval s = false -> timer_fire s = (tt, s).
Proof. intro H. unfold timer_fire. rewrite bind_run. cbn. rewrite H. reflexivity. Qed.

Lemma fire_cleared (n : nat) (s : State) :
  interval s = false -> fire n s = s.
Proof.
  intro H. induction n as [|n IH]; [reflexivity|].
  cbn [fire]. rewrite (timer_fire_cleared s H). exact IH.
Qed.

Lemma fire_S (n : nat) (s : State) :
  fire (S n) s = snd (timer_fire (fire n s)).
Proof.
  revert s. induction n as [|n IH]; intro s; [reflexivity|].
  cbn [fire] in *. apply IH.
Qed.

Lemma fire_add (n m : nat) (s : State) : fire (n + m) s = fire m (fire n s).
Proof.
  revert s. induction n as [|n IH]; intro s; [reflexivity|].
  cbn [fire Nat.add]. apply IH.
Qed.

Lemma scores_S (n : nat) (s : State) :
  scores (S n) s =
    liveScoreEvent (liveScore (snd (timer_fire s))) :: scores n (snd (timer_fire s)).
Proof.
  unfold scores. cbn [seq map]. f_equal.
  rewrite <- seq_shift, map_map. reflexivity.
Qed.

(** The firing that reaches the crash point. *)
Lemma crash_at_once (r : Round) (s : State) :
  currentRound s = Some r -> isCrashed s = false -> interval s = true ->
  crashPoint r <= toFixed2 (advance (liveScore s)) ->
  crashPoint r <= liveScore (fire 1 s) /\
  isCrashed (fire 1 s) = true /\ interval (fire 1 s) = false /\
  emitted (fire 1 s) = emitted s ++ scores 1 s ++ [crashed (crashPoint r)].
Proof.
  intros Hr Hc Hi Hge.
  rewrite scores_S. cbn [fire].
  rewrite (timer_fire_armed s Hi), (tick_crash s r Hc Hr Hge).
  cbn -[toFixed2 advance]. rewrite <- app_assoc.
  repeat split. exact Hge.
Qed.

(** A round whose crash point is within [(N + 1) / 200] of the score
    crashes within [N + 1] firings, at the first one whose score reaches the
    crash point; up to then every firing broadcast one score, and the crash
    broadcast follows the last of them. *)
Lemma crash_within (r : Round) (N : nat) :
  forall s : State,
    currentRound s = Some r -> isCrashed s = false -> interval s = true ->
    0 <= liveScore s ->
    crashPoint r <= liveScore s + (Z.of_nat N # 200) + (1 # 200) ->
    exists n : nat,
      (1 <= n <= S N)%nat /\
      (forall k, (k < n)%nat ->
         isCrashed (fire k s) = false /\ interval (fire k s) = true /\
         currentRound (fire k s) = Some r) /\
      (forall k, (1 <= k < n)%nat -> liveScore (fire k s) < crashPoint r) /\
      crashPoint r <= liveScore (fire n s) /\
      isCrashed (fire n s) = true /\ interval (fire n s) = false /\
      emitted (fire n s) = emitted s ++ scores n s ++ [crashed (crashPoint r)].
Proof.
  assert (Hone : forall (M : nat) (s : State),
            currentRound s = Some r -> isCrashed s = false ->
            interval s = true ->
            crashPoint r <= toFixed2 (advance (liveScore s)) ->
            exists n : nat,
              (1 <= n <= S M)%nat /\
              (forall k, (k < n)%nat ->
                 isCrashed (fire k s) = false /\ interval (fire k s) = true /\
                 currentRound (fire k s) = Some r) /\
              (forall k, (1 <= k < n)%nat -> liveScore (fire k s) < crashPoint r) /\
              crashPoint r <= liveScore (fire n s) /\
              isCrashed (fire n s) = true /\ interval (fire n s) = false /\
              emitted (fire n s)
                = emitted s ++ scores n s ++ [crashed (crashPoint r)]).
  { intros M s Hr Hc Hi Hge. exists 1%nat.
    split; [lia|]. split.
    { intros k Hk. assert (k = 0%nat) by lia. subst k. cbn [fire]. auto. }
    split; [intros k Hk; lia|].
    apply crash_at_once; assumption. }
  induction N as [|N IH]; intros s Hr Hc Hi H0 Hcp;
    pose proof (tick_progress (liveScore s) H0) as Hp;
    (destruct (Qlt_le_dec (toFixed2 (advance (liveScore s))) (crashPoint r))
      as [Hlt | Hge]; [|apply Hone; assumption]).
  - change (Z.of_nat 0 # 200) with (0 # 200) in Hcp.
    assert (Hz : 0 # 200 == 0) by reflexivity. rewrite Hz in Hcp. lra.
  - assert (E1 : snd (timer_fire s) = scored s).
    { rewrite (timer_fire_armed s Hi), (tick_climb s r Hc Hr Hlt). reflexivity. }
    assert (Hcp' : crashPoint r
                   <= liveScore (scored s) + (Z.of_nat N # 200) + (1 # 200)).
    { change (liveScore (scored s)) with (toFixed2 (advance (liveScore s))).
      assert (Hs : Z.of_nat (S N) # 200 == (Z.of_nat N # 200) + (1 # 200)).
      { unfold Qeq, Qplus; cbn [Qnum Qden]. lia. }
      rewrite Hs in Hcp. lra. }
    assert (H0' : 0 <= liveScore (scored s)).
    { change (liveScore (scored s)) with (toFixed2 (advance (liveScore s))). lra. }
    destruct (IH (scored s) Hr Hc Hi H0' Hcp')
      as (n & Hn & Hbefore & Hbelow & Hreach & Hlatch & Hstop & Htrace).
    exists (S n). split; [lia|].
    assert (F : forall k, fire (S k) s = fire k (scored s)).
    { intro k. cbn [fire]. rewrite E1. reflexivity. }
    split.
    { intros [|k] Hk; [cbn [fire]; auto | rewrite F; apply Hbefore; lia]. }
    split.
    { intros [|[|k]] Hk; [lia | | rewrite F; apply Hbelow; lia].
      rewrite F. cbn [fire]. exact Hlt. }
    rewrite F. repeat split; try assumption.
    rewrite Htrace, scores_S, E1.
    cbn [emitted scored emit]. rewrite <- !app_assoc. reflexivity.
Qed.

(** ** The transitions of the loop *)

Section Transitions.

Variable random : nat -> Q.
Variable clock : nat -> Z.

Lemma prefillRounds_eq (s : State) :
  prefillRounds random clock s =
    prefill_loop random clock
      (Z.to_nat (30 - Z.of_nat (length (luckyjet_round s)))) 0 s.
Proof. unfold prefillRounds. rewrite bind_run. reflexivity. Qed.

(** On a well-formed table the pull returns the first row. *)
Lemma select_earliest_round_eq (s : State) (lo : Z) :
  ascending id lo (luckyjet_round s) (round_auto s) ->
  select_earliest_round s = (firstn 1 (luckyjet_round s), s).
Proof.
  intro H. unfold select_earliest_round, gets.
  rewrite (order_by_asc id _ _ _ H). reflexivity.
Qed.

Lemma insert_round_eq (rid : Z) (cp : Q) (s : State) :
  insert_round clock rid cp s =
    (tt, set_round_table
           (luckyjet_round s ++ [mkRound (round_auto s) rid cp false (clock (clk s))])
           (round_auto s + 1)%Z (set_clk (S (clk s)) s)).
Proof. unfold insert_round. rewrite bind_run. reflexivity. Qed.

Lemma insert_log_eq (rid : Z) (cp : Q) (s : State) :
  insert_log clock rid cp s =
    (tt, set_log_table
           (luckyjet_round_log s ++ [mkLogRow (log_auto s) rid cp (clock (clk s))])
           (log_auto s + 1)%Z (set_clk (S (clk s)) s)).
Proof. unfold insert_log. rewrite bind_run. reflexivity. Qed.

(** Settle, statement by statement. *)
Lemma settle_eq (s : State) (r : Round) :
  currentRound s = Some r ->
  settle random clock s =
    let s1 := set_round_table
                (filter (fun x => negb (id x =? id r)%Z) (luckyjet_round s))
                (round_auto s) s in
    let s2 := snd (insert_log clock (roundId r) (crashPoint r) s1) in
    let s3 := set_log_table (trim_log (luckyjet_round_log s2)) (log_auto s2) s2 in
    let g := generateCrashPoint random (set_clk (S (clk s3)) s3) in
    insert_round clock (clock (clk s3)) (fst g) (snd g).
Proof.
  intro Hr. unfold settle. rewrite bind_run. cbn [gets fst snd]. rewrite Hr.
  rewrite !bind_run. reflexivity.
Qed.

(** What Settle leaves. *)
Lemma settle_effect (s : State) (r : Round) :
  currentRound s = Some r ->
  let s' := snd (settle random clock s) in
  currentRound s' = currentRound s /\ isCrashed s' = isCrashed s /\
  liveScore s' = liveScore s /\ interval s' = interval s /\
  emitted s' = emitted s /\
  round_auto s' = (round_auto s + 1)%Z /\ log_auto s' = (log_auto s + 1)%Z /\
  (exists t : Z,
     luckyjet_round_log s' =
       trim_log (luckyjet_round_log s ++
                   [mkLogRow (log_auto s) (roundId r) (crashPoint r) t])) /\
  (exists (g : State) (rid t : Z),
     crashCounter g = crashCounter s /\ rng g = rng s /\
     luckyjet_round s' =
       filter (fun x => negb (id x =? id r)%Z) (luckyjet_round s) ++
       [mkRound (round_auto s) rid (fst (generateCrashPoint random g)) false t]).
Proof.
  intro Hr. rewrite (settle_eq s r Hr). cbn zeta.
  rewrite insert_log_eq. cbn [snd].
  match goal with |- context [generateCrashPoint random ?g] =>
    set (g0 := g);
    pose proof (generateCrashPoint_frame random g0) as F
  end.
  rewrite insert_round_eq. cbn [snd].
  cbn zeta in F.
  destruct F as (F1 & F2 & F3 & F4 & F5 & F6 & F7 & F8 & F9 & F10).
  cbn [currentRound isCrashed liveScore interval emitted round_auto log_auto
       luckyjet_round luckyjet_round_log set_round_table set_clk].
  rewrite F1, F2, F3, F4, F5, F6, F7, F8, F10.
  subst g0.
  cbn [currentRound isCrashed liveScore interval emitted round_auto log_auto
       luckyjet_round luckyjet_round_log set_round_table set_clk set_log_table].
  split; [reflexivity|]. split; [reflexivity|]. split; [reflexivity|].
  split; [reflexivity|]. split; [reflexivity|]. split; [reflexivity|].
  split; [reflexivity|]. split.
  - eexists. reflexivity.
  - eexists. do 2 eexists. split; [|split; [|reflexivity]]; reflexivity.
Qed.

(** The six transitions as equations. *)
Lemma step_Idle (s : State) :
  step random clock Idle s = (BacklogCheck, snd (prefillRounds random clock s)).
Proof. cbn [step]. rewrite !bind_run. reflexivity. Qed.

Lemma step_refill (s : State) :
  luckyjet_round s = [] ->
  step random clock BacklogCheck s
    = (BacklogCheck, snd (prefillRounds random clock s)).
Proof.
  intro H. cbn [step]. rewrite bind_run.
  unfold select_earliest_round, gets. cbn [fst snd]. rewrite H. cbn.
  rewrite bind_run. reflexivity.
Qed.

Lemma step_pull (s : State) (r : Round) (rest : list Round) (lo : Z) :
  ascending id lo (luckyjet_round s) (round_auto s) ->
  luckyjet_round s = r :: rest ->
  step random clock BacklogCheck s
    = (RoundStart,
       set_liveScore 1.00 (set_isCrashed false (set_currentRound (Some r) s))).
Proof.
  intros Ha H. cbn [step]. rewrite bind_run.
  rewrite (select_earliest_round_eq s lo Ha). cbn [fst snd]. rewrite H.
  cbn [firstn]. rewrite !bind_run. reflexivity.
Qed.

Lemma step_start (s : State) (r : Round) :
  currentRound s = Some r ->
  step random clock RoundStart s
    = (LiveProgression,
       set_interval true
         (emit (roundStart (roundId r) (crashPoint r)
                  (latest_log 20 (luckyjet_round_log s)))
            (set_round_table (map (mark_running (id r)) (luckyjet_round s))
               (round_auto s) s))).
Proof.
  intro H. cbn [step]. rewrite bind_run. unfold start_round.
  rewrite bind_run. cbn [gets fst snd]. rewrite H.
  rewrite !bind_run. reflexivity.
Qed.

Lemma step_live (s : State) :
  step random clock LiveProgression s
    = (if isCrashed (snd (timer_fire s)) then Crashed else LiveProgression,
       snd (timer_fire s)).
Proof. cbn [step]. rewrite !bind_run. reflexivity. Qed.

Lemma step_settle (s : State) :
  step random clock Crashed s = (InterRoundPause, snd (settle random clock s)).
Proof. cbn [step]. rewrite bind_run. reflexivity. Qed.

Lemma step_pause (s : State) :
  step random clock InterRoundPause s = (BacklogCheck, s).
Proof. reflexivity. Qed.

Lemma run_S (n : nat) (c : Phase * State) :
  run random clock (S n) c
    = step random clock (fst (run random clock n c)) (snd (run random clock n c)).
Proof.
  revert c. induction n as [|n IH]; intro c; [reflexivity|].
  cbn [run] in *. apply IH.
Qed.

End Transitions.

(** ** Rows with other ids are left alone *)

Lemma mark_running_id (k : Z) (r : Round) : id (mark_running k r) = id r.
Proof. unfold mark_running. destruct (id r =? k)%Z; reflexivity. Qed.

Lemma mark_running_self (r : Round) :
  mark_running (id r) r = mkRound (id r) (roundId r) (crashPoint r) true (createdAt r).
Proof. unfold mark_running. rewrite Z.eqb_refl. reflexivity. Qed.

Lemma update_others (k : Z) (rows : list Round) :
  forall lo hi, ascending id lo rows hi -> (k < lo)%Z ->
  map (mark_running k) rows = rows.
Proof.
  induction rows as [|x rows IH]; intros lo hi H Hk; [reflexivity|].
  cbn in H. destruct H as [H1 H2]. cbn [map].
  rewrite (IH _ _ H2) by lia. f_equal.
  unfold mark_running. destruct (Z.eqb_spec (id x) k); [lia | reflexivity].
Qed.

Lemma delete_others (k : Z) (rows : list Round) :
  forall lo hi, ascending id lo rows hi -> (k < lo)%Z ->
  filter (fun x => negb (id x =? k)%Z) rows = rows.
Proof.
  induction rows as [|x rows IH]; intros lo hi H Hk; [reflexivity|].
  cbn in H. destruct H as [H1 H2]. cbn [filter].
  destruct (Z.eqb_spec (id x) k); [lia|]. cbn [negb].
  rewrite (IH _ _ H2) by lia. reflexivity.
Qed.

(** In a well-formed table, deleting by the id of a row removes that row
    and no other. *)
Lemma delete_exactly (k : Z) (rows : list Round) :
  forall lo hi, ascending id lo rows hi ->
  forall x, In x rows -> id x = k ->
  exists pre post,
    rows = pre ++ x :: post /\
    filter (fun y => negb (id y =? k)%Z) rows = pre ++ post.
Proof.
  induction rows as [|y rows IH]; intros lo hi H x Hin Hk; [destruct Hin|].
  cbn in H. destruct H as [H1 H2]. destruct Hin as [-> | Hin].
  - exists [], rows. split; [reflexivity|]. cbn [filter app].
    rewrite Hk, Z.eqb_refl. cbn [negb].
    apply (delete_others k rows _ _ H2). lia.
  - destruct (IH _ _ H2 x Hin Hk) as (pre & post & E1 & E2).
    exists (y :: pre), post. split; [rewrite E1; reflexivity|].
    cbn [filter]. pose proof (ascending_in id _ _ _ _ H2 Hin).
    destruct (Z.eqb_spec (id y) k); [lia|]. cbn [negb app].
    rewrite E2. reflexivity.
Qed.

Lemma trim_log_lastn (rows : list LogRow) (lo hi : Z) :
  ascending log_id lo rows hi -> trim_log rows = lastn 200 rows.
Proof. intro H. unfold trim_log, latest_log. exact (keep_latest log_id 200 rows lo hi H). Qed.

(** Of 205 log rows the trim keeps the 200 with the largest ids. *)
Example trim_log_205 :
  map log_id (trim_log (sample_log 205)) = map Z.of_nat (seq 6 200).
Proof. vm_compute. reflexivity. Qed.

Lemma latest_log_rev (n : nat) (rows : list LogRow) (lo hi : Z) :
  ascending log_id lo rows hi -> latest_log n rows = firstn n (rev rows).
Proof. intro H. unfold latest_log. rewrite (order_by_desc log_id rows lo hi H). reflexivity. Qed.

Lemma not_running_none (rows : list Round) :
  not_running rows -> filter isRunning rows = [].
Proof.
  induction 1 as [|x rows Hx _ IH]; [reflexivity|].
  cbn [filter]. rewrite Hx. exact IH.
Qed.

(** ** The invariant of the loop *)

Section Invariant.

Variable random : nat -> Q.
Variable clock : nat -> Z.

Lemma Inv_boot : Inv (Idle, boot).
Proof.
  unfold Inv, boot; cbn [fst snd luckyjet_round round_auto luckyjet_round_log
                           log_auto liveScore currentRound ascending].
  repeat split; try lia; try reflexivity. discriminate.
Qed.

Lemma Inv_refill (s : State) :
  ascending id 1%Z (luckyjet_round s) (round_auto s) ->
  ascending log_id 1%Z (luckyjet_round_log s) (log_auto s) ->
  1 <= liveScore s -> toFixed2 (liveScore s) = liveScore s ->
  luckyjet_round s = [] ->
  Inv (BacklogCheck, snd (prefillRounds random clock s)).
Proof.
  intros Ha Hl H1 Hfix Hrows.
  rewrite prefillRounds_eq, Hrows. cbn [length].
  change (Z.to_nat (30 - Z.of_nat 0)) with 30%nat.
  destruct (prefill_loop_effect random clock 30 0 s)
    as (E1 & E2 & E3 & E4 & E5 & E6 & E7 & E8 & fresh & E9 & E10 & E11 & E12).
  rewrite Hrows in E9, Ha. cbn [app] in E9. cbn [ascending] in Ha.
  unfold Inv; cbn [fst snd]. rewrite E3, E5, E6, E8, E9.
  split; [apply ascending_weaken with (lo := round_auto s); assumption|].
  split; [exact Hl|]. split; [exact H1|]. split; [exact Hfix|].
  split; assumption.
Qed.

Lemma step_Inv (p : Phase) (s : State) :
  Inv (p, s) -> Inv (step random clock p s).
Proof.
  unfold Inv at 1; cbn [fst snd]. intros (Ha & Hl & H1 & Hfix & Hp).
  destruct p.
  - (* Idle *)
    destruct Hp as [Hrows _]. rewrite step_Idle.
    apply Inv_refill; assumption.
  - (* BacklogCheck *)
    destruct Hp as [Hlen Hnr].
    destruct (luckyjet_round s) as [|r rest] eqn:Hrows; [discriminate Hlen|].
    assert (Ha' : ascending id 1%Z (luckyjet_round s) (round_auto s))
      by (rewrite Hrows; exact Ha).
    rewrite (step_pull random clock s r rest 1%Z Ha' Hrows).
    unfold Inv; cbn [fst snd]. cbn. rewrite Hrows.
    split; [exact Ha|]. split; [exact Hl|].
    split; [discriminate|]. split; [reflexivity|].
    split; [exact Hlen|]. split; [exact Hnr|].
    exists r, rest. repeat split.
  - (* RoundStart *)
    destruct Hp as (Hlen & Hnr & r & rest & Hcur & Hrows & Hc & Hone).
    rewrite (step_start random clock s r Hcur).
    unfold Inv; cbn [fst snd]. cbn -[toFixed2 latest_log].
    rewrite Hrows in *. cbn [ascending] in Ha. destruct Ha as [Ha1 Ha2].
    cbn [map]. rewrite (update_others (id r) rest _ _ Ha2) by lia.
    split.
    { cbn [ascending]. rewrite mark_running_id. split; assumption. }
    split; [exact Hl|]. split; [exact H1|]. split; [exact Hfix|].
    split; [exact Hlen|].
    exists r, rest. inversion Hnr; subst. repeat split; assumption.
  - (* LiveProgression *)
    destruct Hp as (Hlen & r & rest & Hcur & Hrows & Hnr & Hc & Hi).
    rewrite step_live, (timer_fire_armed s Hi).
    assert (H0 : 0 <= liveScore s) by lra.
    pose proof (tick_progress (liveScore s) H0) as Hp.
    assert (H0' : 0 <= advance (liveScore s)).
    { pose proof (advance_bounds (liveScore s)). lra. }
    destruct (Qlt_le_dec (toFixed2 (advance (liveScore s))) (crashPoint r))
      as [Hlt | Hge].
    + rewrite (tick_climb s r Hc Hcur Hlt). cbn [snd].
      unfold Inv, scored; cbn -[toFixed2 advance]. rewrite Hc.
      cbn -[toFixed2 advance].
      split; [exact Ha|]. split; [exact Hl|].
      split; [lra|]. split; [apply toFixed2_idem; exact H0'|].
      split; [exact Hlen|].
      exists r, rest. repeat split; assumption.
    + rewrite (tick_crash s r Hc Hcur Hge). cbn [snd].
      unfold Inv, scored; cbn -[toFixed2 advance].
      split; [exact Ha|]. split; [exact Hl|].
      split; [lra|]. split; [apply toFixed2_idem; exact H0'|].
      split; [exact Hlen|].
      exists r, rest. repeat split; assumption.
  - (* Crashed *)
    destruct Hp as (Hlen & r & rest & Hcur & Hrows & Hnr & Hc & Hi).
    rewrite step_settle.
    destruct (settle_effect random clock s r Hcur)
      as (E1 & E2 & E3 & E4 & E5 & E6 & E7 & (t & E8) & (g & rid & t' & _ & _ & E9)).
    unfold Inv; cbn [fst snd]. rewrite E3, E6, E7, E8, E9.
    rewrite Hrows in *. cbn [ascending] in Ha. destruct Ha as [Ha1 Ha2].
    rewrite mark_running_id in Ha1, Ha2.
    cbn [filter]. rewrite mark_running_id, Z.eqb_refl. cbn [negb].
    rewrite (delete_others (id r) rest _ _ Ha2) by lia.
    split.
    { apply ascending_snoc; [|reflexivity].
      apply ascending_weaken with (lo := (id r + 1)%Z); [lia | exact Ha2]. }
    split.
    { unfold trim_log. apply ascending_filter.
      apply ascending_snoc; [exact Hl | reflexivity]. }
    split; [exact H1|]. split; [exact Hfix|].
    split.
    { rewrite length_app. cbn [length] in *. lia. }
    apply Forall_app. split; [exact Hnr|].
    constructor; [reflexivity | constructor].
  - (* InterRoundPause *)
    rewrite step_pause. unfold Inv; cbn [fst snd]. tauto.
Qed.

Lemma run_Inv (n : nat) :
  forall c : Phase * State, Inv c -> Inv (run random clock n c).
Proof.
  induction n as [|n IH]; intros c H; [exact H|].
  cbn [run]. apply IH. destruct c as [p s]. apply step_Inv. exact H.
Qed.

End Invariant.

(** ** Rounds as the loop plays them *)

(** A live tick sets the score to the rounded advance and broadcasts it
    first. *)
Lemma tick_score (s : State) :
  isCrashed s = false ->
  liveScore (snd (tick s)) = toFixed2 (advance (liveScore s)) /\
  exists rest : list Event,
    emitted (snd (tick s))
      = emitted s ++ liveScoreEvent (toFixed2 (advance (liveScore s))) :: rest.
Proof.
  intro Hc. rewrite (tick_live s Hc).
  destruct (currentRound (scored s)) as [r|] eqn:Hr.
  - rewrite (crash_check_eq (scored s) r Hr).
    destruct (Qgeb (liveScore (scored s)) (crashPoint r)).
    + cbn -[toFixed2 advance]. split; [reflexivity|].
      exists [crashed (crashPoint r)]. rewrite <- app_assoc. reflexivity.
    + cbn -[toFixed2 advance]. split; [reflexivity|]. exists []. reflexivity.
  - unfold crash_check. rewrite !bind_run. cbn [gets fst snd]. rewrite Hr.
    cbn -[toFixed2 advance]. split; [reflexivity|]. exists []. reflexivity.
Qed.

Lemma timer_fire_mono (s : State) :
  0 <= liveScore s -> liveScore s <= liveScore (snd (timer_fire s)).
Proof.
  intro H0. destruct (interval s) eqn:Hi.
  - rewrite (timer_fire_armed s Hi). destruct (isCrashed s) eqn:Hc.
    + rewrite (tick_crashed s Hc). cbn [snd]. lra.
    + destruct (tick_score s Hc) as [-> _].
      pose proof (tick_progress (liveScore s) H0). lra.
  - rewrite (timer_fire_cleared s Hi). cbn [snd]. lra.
Qed.

Lemma fire_nonneg (k : nat) (s : State) :
  0 <= liveScore s -> 0 <= liveScore (fire k s).
Proof.
  intro H0. induction k as [|k IH]; [exact H0|].
  rewrite fire_S. pose proof (timer_fire_mono (fire k s) IH). lra.
Qed.

Section Rounds.

Variable random : nat -> Q.
Variable clock : nat -> Z.

(** While the firings leave the latch unset the loop stays in
    [LiveProgression], one firing per step. *)
Lemma run_live (k : nat) (s : State) :
  (forall j, (1 <= j <= k)%nat -> isCrashed (fire j s) = false) ->
  run random clock k (LiveProgression, s) = (LiveProgression, fire k s).
Proof.
  induction k as [|k IH]; intro H; [reflexivity|].
  rewrite run_S, IH by (intros j Hj; apply H; lia).
  cbn [fst snd]. rewrite step_live, <- fire_S.
  rewrite (H (S k)) by lia. reflexivity.
Qed.

Lemma step_not_Idle (p : Phase) (s : State) :
  fst (step random clock p s) <> Idle.
Proof.
  destruct p; cbn [step]; rewrite ?bind_run; cbn [fst snd ret];
    try discriminate.
  - destruct (fst (select_earliest_round s)); rewrite ?bind_run;
      cbn [fst snd ret]; discriminate.
  - match goal with |- context [if ?b then _ else _] => destruct b end;
      discriminate.
Qed.

Lemma run_not_Idle (n : nat) (c : Phase * State) :
  fst (run random clock (S n) c) <> Idle.
Proof. rewrite run_S. apply step_not_Idle. Qed.

(** [prefillRounds] tops the backlog up to 30. *)
Lemma prefillRounds_size (s : State) :
  (backlogSize s <= 30)%Z ->
  backlogSize (snd (prefillRounds random clock s)) = 30%Z.
Proof.
  unfold backlogSize. intro H. rewrite prefillRounds_eq.
  destruct (prefill_loop_effect random clock
              (Z.to_nat (30 - Z.of_nat (length (luckyjet_round s)))) 0 s)
    as (_ & _ & _ & _ & _ & _ & _ & _ & fresh & E & L & _ & _).
  rewrite E, length_app, L. lia.
Qed.

End Rounds.

(** The scores are [liveScore] broadcasts, one per firing. *)
Lemma scores_only_liveScore (n : nat) (s : State) :
  filter is_crashed (scores n s) = [] /\
  filter is_liveScore (scores n s) = scores n s /\
  length (scores n s) = n.
Proof.
  unfold scores. split; [|split].
  - induction (seq 1 n) as [|k l IH]; [reflexivity | exact IH].
  - induction (seq 1 n) as [|k l IH]; [reflexivity|].
    cbn [map filter is_liveScore]. f_equal. exact IH.
  - rewrite length_map, length_seq. reflexivity.
Qed.

(** Whenever the loop is in [LiveProgression] a round is being played. *)
Lemma live_round_state (random : nat -> Q) (clock : nat -> Z) (n : nat) :
  let c := run random clock n (Idle, boot) in
  fst c = LiveProgression ->
  exists r : Round,
    currentRound (snd c) = Some r /\ isCrashed (snd c) = false /\
    interval (snd c) = true /\ 1 <= liveScore (snd c) /\
    toFixed2 (liveScore (snd c)) = liveScore (snd c).
Proof.
  intros c Hp.
  pose proof (run_Inv random clock n (Idle, boot) Inv_boot) as HI.
  fold c in HI. unfold Inv in HI. rewrite Hp in HI.
  destruct HI as (_ & _ & H1 & Hfix & _ & r & rest & Hcur & _ & _ & Hc & Hi).
  exists r. auto.
Qed.

(** * The properties of the specification *)

(** C1, as amended: for every counter value and all draws in [0, 1), the
    crash point returned by [generateCrashPoint] is at least 1.00 (1.00
    itself included), at most 50.00, and equal to its own rounding to two
    decimal places. *)
Theorem C1_crash_point_range (random : nat -> Q) (s : State) :
  (forall i : nat, 0 <= random i < 1) ->
  let v := fst (generateCrashPoint random s) in
  1 <= v <= 50 /\ toFixed2 v = v.
Proof.
  intros Hrand v. subst v.
  destruct (takes_high_value random s) eqn:E.
  - rewrite (generateCrashPoint_high random s E). cbn [fst].
    pose proof (high_value_between (random (S (rng s))) (Hrand _)) as Hb.
    split; [lra|].
    apply toFixed2_idem. specialize (Hrand (S (rng s))).
    apply high_value_arg_nonneg; lra.
  - destruct (generateCrashPoint_band random s E) as (s2 & _ & _ & _ & ->).
    cbn [fst].
    set (roll := band_roll random s).
    set (u := random (S (rng s2))).
    assert (Hu : 0 <= u < 1) by apply Hrand.
    destruct (band_value_between roll u Hu) as (B1 & B2 & B3 & B4).
    split.
    + destruct (Qlt_le_dec roll 55); [lra|].
      destruct (Qlt_le_dec roll 80); [lra|].
      destruct (Qlt_le_dec roll 95); [lra|].
      specialize (B4 ltac:(assumption)). lra.
    + apply toFixed2_idem, band_value_nonneg. lra.
Qed.

(** A run of C1's theorem: draws all 1/2, from the boot state. *)
Lemma C1_crash_point_range_witness :
  (forall i : nat, 0 <= half_draws i < 1) /\
  (1 <= fst (generateCrashPoint half_draws boot) <= 50 /\
   toFixed2 (fst (generateCrashPoint half_draws boot)) =
     fst (generateCrashPoint half_draws boot)).
Proof.
  assert (H : forall i : nat, 0 <= half_draws i < 1).
  { draws_in_range. }
  split; [exact H | exact (C1_crash_point_range half_draws boot H)].
Defined.

(** C1 as stated fails: with draws all 1/1024 the first call returns 1.00,
    which is not strictly greater than 1.00. *)
Lemma C1_counterexample :
  (forall i : nat, 0 <= tiny_draws i < 1) /\
  fst (generateCrashPoint tiny_draws boot) = 1.00 /\
  ~ (1 < fst (generateCrashPoint tiny_draws boot)).
Proof.
  split; [|split].
  - draws_in_range.
  - vm_compute. reflexivity.
  - vm_compute. discriminate.
Qed.

(** C2: when the incremented counter lies in 7..15 and the coin draw is
    below the double [0.3], the call takes the high-value branch, returns
    the next draw [u] mapped to [u * 30 + 20] in double precision and rounded
    to two decimals, a value of [20.00, 50.00], and leaves the counter at 0.

    The value follows the uniform draw: it is within half a hundredth (and
    the rounding error of the two operations, below [10^-13]) of
    [20 + 30 u], it is the hundredth nearest to [20 + 30 u] unless that
    number lies within [10^-13] of the middle of two hundredths, and it does
    not decrease when the draw grows.  Over the [2^52] equally likely draws
    of the grid: every two-decimal value strictly between 20.00 and 50.00 is
    returned for one draw in 3000, up to 50 draws; 20.00 and 50.00, which
    only half an interval rounds to, for one draw in 6000 each; no other
    value is returned, and each of the values is returned for some draw.

    The probability of the coin: the threshold is within [2^-54] of 3/10,
    and 1351079888211149 of the [2^52] draws are below it, which is
    [3/10 * 2^52] rounded up. *)
Theorem C2_high_value_branch (random : nat -> Q) (s : State) :
  (forall i : nat, 0 <= random i < 1) ->
  (7 <= crashCounter s + 1 <= 15)%Z ->
  random (rng s) < b64 0.3 ->
  let u := random (S (rng s)) in
  let v := fst (generateCrashPoint random s) in
  let s' := snd (generateCrashPoint random s) in
  takes_high_value random s = true /\
  v = toFixed2 (b64 (b64 (u * 30) + 20)) /\
  20 <= v <= 50 /\ toFixed2 v = v /\
  crashCounter s' = 0%Z /\
  (u * 30 + 20 - ((1 # 200) + (1 # 10000000000000)) <= v /\
   v <= u * 30 + 20 + ((1 # 200) + (1 # 10000000000000))) /\
  (forall n : Z,
     inject_Z n - (1 # 2) + (1 # 100000000000) <= (u * 30 + 20) * 100 ->
     (u * 30 + 20) * 100 <= inject_Z n + (1 # 2) - (1 # 100000000000) ->
     v = n # 100) /\
  (forall u1 u2 : Q, 0 <= u1 -> u1 <= u2 -> high_value u1 <= high_value u2) /\
  (forall n : Z, (2000 < n < 5000)%Z ->
     (grid - 150000 <= 3000 * count_draws (high_value_is n)
      <= grid + 150000)%Z) /\
  (forall n : Z, n = 2000%Z \/ n = 5000%Z ->
     (grid - 150000 <= 6000 * count_draws (high_value_is n)
      <= grid + 150000)%Z) /\
  (forall n : Z, ~ (2000 <= n <= 5000)%Z ->
     count_draws (high_value_is n) = 0%Z) /\
  (forall n : Z, (2000 <= n <= 5000)%Z ->
     exists k : Z,
       (0 <= k < grid)%Z /\ high_value (grid_draw k) = n # 100) /\
  (0.3 - (1 # 18014398509481984) <= b64 0.3 /\ b64 0.3 <= 0.3) /\
  count_draws (fun c => Qltb c (b64 0.3)) = 1351079888211149%Z /\
  (3 * grid <= 10 * 1351079888211149 <= 3 * grid + 10)%Z.
Proof.
  intros Hrand Hc Hcoin u v s'. subst v s'.
  assert (E : takes_high_value random s = true).
  { unfold takes_high_value.
    destruct (high_value_test_cases random (crashCounter s + 1) s)
      as [[_ E] | [[[_ Hr] _] | [Hn _]]];
      [rewrite E; reflexivity | lra | contradiction]. }
  rewrite (generateCrashPoint_high random s E). cbn [fst snd]. fold u.
  assert (Hu : 0 <= u < 1) by apply Hrand.
  destruct Hu as [U0 U1].
  assert (U1' : u <= 1) by lra.
  split; [exact E|]. split; [reflexivity|].
  split; [apply high_value_between; split; assumption|].
  split; [apply toFixed2_idem, high_value_arg_nonneg; assumption|].
  split; [reflexivity|].
  split; [exact (high_value_close u U0 U1')|].
  split; [intros n L U; exact (high_value_nearest n u U0 U1' L U)|].
  split; [exact high_value_mono|].
  split; [exact high_value_count|].
  split; [exact high_value_count_ends|].
  split; [exact high_value_count_none|].
  split; [exact high_value_onto|].
  split; [split; vm_compute; discriminate|].
  split; [exact coin_count | unfold grid; lia].
Qed.

(** A run of C2's theorem: counter 9, coin 1/1024, value draw
    [8256599316846 / 2^52].  The exact [20 + 30 u] lies just above 20.055;
    the double-precision sum lies below it and the call returns 20.05. *)
Lemma C2_high_value_branch_witness :
  20.055 < grid_draws 1 * 30 + 20 /\
  fst (generateCrashPoint grid_draws (set_crashCounter 9%Z boot)) = 20.05 /\
  crashCounter (snd (generateCrashPoint grid_draws (set_crashCounter 9%Z boot)))
    = 0%Z.
Proof.
  assert (Hrand : forall i : nat, 0 <= grid_draws i < 1).
  { intros [|i]; split; vm_compute; first [discriminate | reflexivity]. }
  assert (Hc : (7 <= crashCounter (set_crashCounter 9%Z boot) + 1 <= 15)%Z).
  { simpl. lia. }
  assert (Hcoin : grid_draws (rng (set_crashCounter 9%Z boot)) < b64 0.3).
  { vm_compute. reflexivity. }
  destruct (C2_high_value_branch grid_draws (set_crashCounter 9%Z boot)
              Hrand Hc Hcoin) as (_ & Hv & _ & _ & Hz & _).
  split; [vm_compute; reflexivity|].
  split; [rewrite Hv; vm_compute; reflexivity | exact Hz].
Defined.

(** C3: a call that does not take the high-value branch draws [d] and takes
    as band roll [r] the double-precision product [d * 100], a number of
    [0, 100], below 100 when the draw is a double (at most [1 - 2^-53]).
    It returns a value of [1.00, 2.00] when [r < 55], of [2.00, 10.00] when
    [55 <= r < 80], of [10.00, 30.00] when [80 <= r < 95] and of
    [30.00, 50.00] when [95 <= r]; the value is rounded to two decimals and
    the counter is left at its incremented value, not reset.

    The roll is uniform as the draw is: over the [2^52] equally likely draws
    of the grid the roll is below 55, 80 and 95 for 55, 80 and 95 draws
    in 100, to the draw, and below 100 for all of them, which makes the
    weights of the four bands 55, 25, 15 and 5 in 100. *)
Theorem C3_band_classification (random : nat -> Q) (s : State) :
  (forall i : nat, 0 <= random i < 1) ->
  takes_high_value random s = false ->
  let d := random (rng (snd (high_value_test random (crashCounter s + 1) s))) in
  let r := band_roll random s in
  let v := fst (generateCrashPoint random s) in
  let s' := snd (generateCrashPoint random s) in
  r = b64 (d * 100) /\
  0 <= r <= 100 /\
  (d <= 1 - (1 # 9007199254740992) -> r < 100) /\
  (r < 55 -> 1 <= v <= 2) /\
  (55 <= r < 80 -> 2 <= v <= 10) /\
  (80 <= r < 95 -> 10 <= v <= 30) /\
  (95 <= r -> 30 <= v <= 50) /\
  toFixed2 v = v /\
  crashCounter s' = (crashCounter s + 1)%Z /\
  (55 * grid - 100 <= 100 * count_draws (roll_below 55) <= 55 * grid + 100)%Z /\
  (80 * grid - 100 <= 100 * count_draws (roll_below 80) <= 80 * grid + 100)%Z /\
  (95 * grid - 100 <= 100 * count_draws (roll_below 95) <= 95 * grid + 100)%Z /\
  count_draws (roll_below 100) = grid.
Proof.
  intros Hrand E d r v s'. subst v s'.
  destruct (generateCrashPoint_band random s E) as (s2 & _ & _ & Hc & ->).
  cbn [fst snd]. fold r.
  set (u := random (S (rng s2))).
  assert (Hu : 0 <= u < 1) by apply Hrand.
  assert (Hd : 0 <= d < 1) by apply Hrand.
  destruct (band_value_between r u Hu) as (B1 & B2 & B3 & B4).
  destruct (roll_range d Hd) as [R1 R2].
  destruct roll_counts as (N1 & N2 & N3 & N4).
  split; [reflexivity|].
  split; [exact R1|]. split; [exact R2|].
  split; [exact B1|]. split; [exact B2|]. split; [exact B3|].
  split; [exact B4|].
  split; [apply toFixed2_idem, band_value_nonneg; lra|].
  split; [exact Hc|].
  rewrite N1, N2, N3. unfold grid.
  split; [lia|]. split; [lia|]. split; [lia | exact N4].
Qed.

(** A run of C3's theorem: from the boot state, the double 0.95 as the
    draw of the roll and 1/2 as the draw of the value.  The exact product is
    below 95; the roll is the double 95, the call is in the last band and
    returns 40.00. *)
Lemma C3_band_classification_witness :
  boundary_draws 0 * 100 < 95 /\
  band_roll boundary_draws boot == 95 /\
  fst (generateCrashPoint boundary_draws boot) = 40.00 /\
  30 <= fst (generateCrashPoint boundary_draws boot) <= 50 /\
  crashCounter (snd (generateCrashPoint boundary_draws boot)) = 1%Z.
Proof.
  assert (Hrand : forall i : nat, 0 <= boundary_draws i < 1).
  { intros [|i]; split; vm_compute; first [discriminate | reflexivity]. }
  assert (E : takes_high_value boundary_draws boot = false) by reflexivity.
  destruct (C3_band_classification boundary_draws boot Hrand E)
    as (_ & _ & _ & _ & _ & _ & B4 & _ & Hc & _).
  split; [vm_compute; reflexivity|].
  split; [vm_compute; reflexivity|].
  split; [vm_compute; reflexivity|].
  split; [apply B4; vm_compute; discriminate | exact Hc].
Defined.

(** C4: whenever the loop is in [LiveProgression] a round [r] is being
    played with the latch unset and the timer armed; from such a state there
    is a firing [n] of the timer such that no earlier firing saw the score
    reach the crash point, firing [n] is the first whose score is at least
    [crashPoint r], it sets the latch and clears the timer, and the loop
    leaves [LiveProgression] for [Crashed] at that step; whatever number of
    firings is attempted afterwards, the broadcasts of the round are the [n]
    scores followed by [crashed (crashPoint r)], the only [crashed] among
    them, and the callback itself does nothing once the latch is set. *)
Theorem C4_crash_fires_once (random : nat -> Q) (clock : nat -> Z) :
  (forall n : nat,
     let c := run random clock n (Idle, boot) in
     fst c = LiveProgression ->
     exists r : Round,
       currentRound (snd c) = Some r /\ isCrashed (snd c) = false /\
       interval (snd c) = true /\ 0 <= liveScore (snd c)) /\
  (forall (s : State) (r : Round),
     currentRound s = Some r -> isCrashed s = false -> interval s = true ->
     0 <= liveScore s ->
     exists n : nat,
       (1 <= n)%nat /\
       (forall k, (k < n)%nat -> isCrashed (fire k s) = false) /\
       (forall k, (1 <= k < n)%nat -> liveScore (fire k s) < crashPoint r) /\
       crashPoint r <= liveScore (fire n s) /\
       isCrashed (fire n s) = true /\ interval (fire n s) = false /\
       run random clock n (LiveProgression, s) = (Crashed, fire n s) /\
       (forall m, (n <= m)%nat ->
          fire m s = fire n s /\
          emitted (fire m s)
            = emitted s ++ scores n s ++ [crashed (crashPoint r)]) /\
       filter is_crashed (scores n s ++ [crashed (crashPoint r)])
         = [crashed (crashPoint r)] /\
       filter is_liveScore (scores n s ++ [crashed (crashPoint r)])
         = scores n s /\
       length (scores n s) = n /\
       tick (fire n s) = (tt, fire n s)).
Proof.
  split.
  { intros n c Hp.
    destruct (live_round_state random clock n Hp) as (r & Hr & Hc & Hi & H1 & _).
    exists r. fold c in Hr, Hc, Hi, H1.
    split; [exact Hr|]. split; [exact Hc|]. split; [exact Hi|]. lra. }
  intros s r Hr Hc Hi H0.
  set (N := Z.to_nat (Qceiling ((crashPoint r - liveScore s) * 200))).
  assert (HN : crashPoint r <= liveScore s + (Z.of_nat N # 200) + (1 # 200)).
  { pose proof (Qle_ceiling ((crashPoint r - liveScore s) * 200)) as Hce.
    assert (HZ : (Qceiling ((crashPoint r - liveScore s) * 200) <= Z.of_nat N)%Z)
      by (unfold N; lia).
    assert (HQ : inject_Z (Qceiling ((crashPoint r - liveScore s) * 200))
                 <= inject_Z (Z.of_nat N))
      by (rewrite <- Zle_Qle; exact HZ).
    assert (E : Z.of_nat N # 200 == inject_Z (Z.of_nat N) * (1 # 200)).
    { unfold Qeq, Qmult, inject_Z; cbn [Qnum Qden]. lia. }
    rewrite E. lra. }
  destruct (crash_within r N s Hr Hc Hi H0 HN)
    as (n & Hn & Hbefore & Hbelow & Hreach & Hlatch & Hstop & Htrace).
  destruct (scores_only_liveScore n s) as (S1 & S2 & S3).
  exists n. split; [lia|].
  split; [intros k Hk; apply (Hbefore k Hk)|].
  split; [exact Hbelow|]. split; [exact Hreach|].
  split; [exact Hlatch|]. split; [exact Hstop|].
  split.
  { destruct n as [|n]; [lia|].
    rewrite run_S, run_live by (intros j Hj; apply Hbefore; lia).
    cbn [fst snd]. rewrite step_live, <- fire_S, Hlatch. reflexivity. }
  split.
  { intros m Hm. replace m with (n + (m - n))%nat by lia.
    rewrite fire_add, (fire_cleared _ _ Hstop). split; [reflexivity | exact Htrace]. }
  split; [rewrite filter_app, S1; reflexivity|].
  split; [rewrite filter_app, S2; cbn; apply app_nil_r|].
  split; [exact S3|].
  apply tick_crashed, Hlatch.
Qed.

(** A run of C4's theorem: the round with crash point 1.05 crashes at the
    fifth firing. *)
Lemma C4_crash_fires_once_witness :
  exists n : nat,
    (1 <= n)%nat /\
    crashPoint sample_round <= liveScore (fire n sample_live) /\
    isCrashed (fire n sample_live) = true /\
    forall m, (n <= m)%nat ->
      emitted (fire m sample_live)
        = emitted sample_live ++ scores n sample_live ++ [crashed 1.05].
Proof.
  destruct (C4_crash_fires_once half_draws zero_clock) as (_ & H).
  destruct (H sample_live sample_round eq_refl eq_refl eq_refl)
    as (n & H1 & _ & _ & H2 & H3 & _ & _ & H4 & _).
  - vm_compute. discriminate.
  - exists n. split; [exact H1|]. split; [exact H2|]. split; [exact H3|].
    intros m Hm. exact (proj2 (H4 m Hm)).
Defined.

(** C5: every state in which the loop is in [LiveProgression] has the latch
    unset, the timer armed and a two-decimal score of at least 1.00; from
    such a state a tick adds to the score exactly the step of its tier (0.01
    below 1.5, 0.02 in [1.5, 3), 0.05 in [3, 5), 0.10 in [5, 10), 0.15 in
    [10, 50), 0.20 from 50 on), the result is a two-decimal value and is
    broadcast as a [liveScore] event; the score never decreases from one
    firing to the next; and every pull of a new round sets it to 1.00. *)
Theorem C5_live_progression (random : nat -> Q) (clock : nat -> Z) :
  (forall n : nat,
     let c := run random clock n (Idle, boot) in
     fst c = LiveProgression ->
     isCrashed (snd c) = false /\ interval (snd c) = true /\
     1 <= liveScore (snd c) /\ toFixed2 (liveScore (snd c)) = liveScore (snd c)) /\
  (forall s : State,
     isCrashed s = false -> 0 <= liveScore s ->
     toFixed2 (liveScore s) = liveScore s ->
     let ls := liveScore s in
     let ls' := liveScore (snd (tick s)) in
     (ls < 1.5 -> ls' == ls + 0.01) /\
     (1.5 <= ls < 3 -> ls' == ls + 0.02) /\
     (3 <= ls < 5 -> ls' == ls + 0.05) /\
     (5 <= ls < 10 -> ls' == ls + 0.1) /\
     (10 <= ls < 50 -> ls' == ls + 0.15) /\
     (50 <= ls -> ls' == ls + 0.2) /\
     toFixed2 ls' = ls' /\
     (exists rest : list Event,
        emitted (snd (tick s)) = emitted s ++ liveScoreEvent ls' :: rest) /\
     ls <= ls') /\
  (forall (s : State) (k : nat),
     0 <= liveScore s -> liveScore (fire k s) <= liveScore (fire (S k) s)) /\
  (forall s : State,
     fst (step random clock BacklogCheck s) = RoundStart ->
     liveScore (snd (step random clock BacklogCheck s)) = 1.00 /\
     isCrashed (snd (step random clock BacklogCheck s)) = false).
Proof.
  split; [|split; [|split]].
  - intros n c Hp.
    destruct (live_round_state random clock n Hp) as (r & _ & Hc & Hi & H1 & Hfix).
    auto.
  - intros s Hc H0 Hfix ls ls'. subst ls ls'.
    set (ls := liveScore s) in *. set (ls' := liveScore (snd (tick s))).
    destruct (tick_score s Hc) as [E [rest Hem]]. fold ls in E, Hem.
    pose proof (advance_exact ls H0 Hfix) as Hex.
    pose proof (advance_bounds ls) as Hb.
    destruct (advance_tiers ls) as (T1 & T2 & T3 & T4 & T5 & T6).
    assert (Els : ls' == advance ls) by (unfold ls'; rewrite E; exact Hex).
    split; [intro H; rewrite Els, (T1 H); reflexivity|].
    split; [intro H; rewrite Els, (T2 H); reflexivity|].
    split; [intro H; rewrite Els, (T3 H); reflexivity|].
    split; [intro H; rewrite Els, (T4 H); reflexivity|].
    split; [intro H; rewrite Els, (T5 H); reflexivity|].
    split; [intro H; rewrite Els, (T6 H); reflexivity|].
    split; [unfold ls'; rewrite E; apply toFixed2_idem; lra|].
    split; [exists rest; unfold ls'; rewrite E; exact Hem|].
    rewrite Els. lra.
  - intros s k H0. rewrite fire_S.
    apply timer_fire_mono, fire_nonneg, H0.
  - intros s Hp. cbn [step] in *. rewrite bind_run in *.
    destruct (fst (select_earliest_round s)) as [|r rows].
    + rewrite bind_run in Hp. discriminate Hp.
    + rewrite !bind_run. split; reflexivity.
Qed.

(** A run of C5's theorem: the first tick of the sample round takes the
    score from 1.00 to 1.01. *)
Lemma C5_live_progression_witness :
  liveScore (snd (tick sample_live)) == liveScore sample_live + 0.01.
Proof.
  destruct (C5_live_progression half_draws zero_clock) as (_ & H & _ & _).
  destruct (H sample_live eq_refl) as (T1 & _).
  - vm_compute. discriminate.
  - vm_compute. reflexivity.
  - apply T1. vm_compute. reflexivity.
Defined.

(** C6: a BacklogCheck that finds the backlog empty inserts freshly
    generated rows, none of them running, until the backlog holds exactly 30,
    stays in BacklogCheck, and the retried pull then takes the first of them;
    [prefillRounds] brings any backlog of at most 30 rows to exactly 30; the
    backlog size is never negative along any run, and from the empty tables
    it is 30 after every transition. *)
Theorem C6_backlog_refill (random : nat -> Q) (clock : nat -> Z) :
  (forall s : State,
     luckyjet_round s = [] ->
     let c := step random clock BacklogCheck s in
     fst c = BacklogCheck /\
     backlogSize (snd c) = 30%Z /\
     not_running (luckyjet_round (snd c)) /\
     exists r rest,
       luckyjet_round (snd c) = r :: rest /\
       step random clock BacklogCheck (snd c)
         = (RoundStart,
            set_liveScore 1.00
              (set_isCrashed false (set_currentRound (Some r) (snd c))))) /\
  (forall s : State,
     (backlogSize s <= 30)%Z ->
     backlogSize (snd (prefillRounds random clock s)) = 30%Z) /\
  (forall (n : nat) (c : Phase * State),
     (0 <= backlogSize (snd (run random clock n c)))%Z) /\
  (forall n : nat,
     backlogSize (snd (run random clock (S n) (Idle, boot))) = 30%Z).
Proof.
  split; [|split; [|split]].
  - intros s Hrows c. subst c. rewrite (step_refill random clock s Hrows).
    cbn [fst snd]. rewrite prefillRounds_eq, Hrows. cbn [length].
    change (Z.to_nat (30 - Z.of_nat 0)) with 30%nat.
    destruct (prefill_loop_effect random clock 30 0 s)
      as (_ & _ & _ & _ & _ & _ & _ & E8 & fresh & E9 & E10 & E11 & E12).
    rewrite Hrows in E9. cbn [app] in E9.
    set (s1 := snd (prefill_loop random clock 30 0 s)) in *.
    split; [reflexivity|].
    split; [unfold backlogSize; rewrite E9, E10; reflexivity|].
    split; [rewrite E9; exact E11|].
    destruct fresh as [|r rest]; [discriminate E10|].
    exists r, rest. split; [exact E9|].
    apply step_pull with (rest := rest) (lo := round_auto s); [|exact E9].
    rewrite E9, E8. exact E12.
  - apply prefillRounds_size.
  - intros n c. unfold backlogSize. lia.
  - intro n.
    pose proof (run_Inv random clock (S n) (Idle, boot) Inv_boot) as HI.
    pose proof (run_not_Idle random clock n (Idle, boot)) as Hp.
    unfold Inv in HI. unfold backlogSize.
    destruct (fst (run random clock (S n) (Idle, boot)));
      [contradiction | | | | |];
      destruct HI as (_ & _ & _ & _ & -> & _); reflexivity.
Qed.

(** A run of C6's theorem: the first BacklogCheck over the empty tables. *)
Lemma C6_backlog_refill_witness :
  fst (step half_draws zero_clock BacklogCheck boot) = BacklogCheck /\
  backlogSize (snd (step half_draws zero_clock BacklogCheck boot)) = 30%Z.
Proof.
  destruct (C6_backlog_refill half_draws zero_clock) as (H & _).
  destruct (H boot eq_refl) as (H1 & H2 & _).
  split; [exact H1 | exact H2].
Defined.

(** C7: when the loop is at [Crashed] the current round has its row in a
    well-formed backlog; Settle from such a state removes that row and no
    other, appends one log row with the round's [roundId] and [crashPoint],
    keeps the 200 most recently inserted log rows, and appends one new
    backlog row, not running, whose crash point comes from one call of the
    generator; the backlog size is unchanged. *)
Theorem C7_settle (random : nat -> Q) (clock : nat -> Z) :
  (forall n : nat,
     let c := run random clock n (Idle, boot) in
     fst c = Crashed ->
     exists r x,
       currentRound (snd c) = Some r /\ In x (luckyjet_round (snd c)) /\
       id x = id r /\
       ascending id 1%Z (luckyjet_round (snd c)) (round_auto (snd c)) /\
       ascending log_id 1%Z (luckyjet_round_log (snd c)) (log_auto (snd c))) /\
  (forall (s : State) (r x : Round),
     currentRound s = Some r -> In x (luckyjet_round s) -> id x = id r ->
     ascending id 1%Z (luckyjet_round s) (round_auto s) ->
     ascending log_id 1%Z (luckyjet_round_log s) (log_auto s) ->
     let s' := snd (settle random clock s) in
     (exists pre post g rid t,
        luckyjet_round s = pre ++ x :: post /\
        crashCounter g = crashCounter s /\ rng g = rng s /\
        luckyjet_round s' =
          (pre ++ post) ++
          [mkRound (round_auto s) rid (fst (generateCrashPoint random g)) false t]) /\
     (exists t,
        luckyjet_round_log s' =
          lastn 200 (luckyjet_round_log s ++
                       [mkLogRow (log_auto s) (roundId r) (crashPoint r) t])) /\
     (length (luckyjet_round_log s') <= 200)%nat /\
     backlogSize s' = backlogSize s).
Proof.
  split.
  - intros n c Hp.
    pose proof (run_Inv random clock n (Idle, boot) Inv_boot) as HI.
    fold c in HI. unfold Inv in HI. rewrite Hp in HI.
    destruct HI as (Ha & Hl & _ & _ & _ & r & rest & Hcur & Hrows & _).
    exists r, (mark_running (id r) r).
    split; [exact Hcur|]. split; [rewrite Hrows; left; reflexivity|].
    split; [apply mark_running_id|]. split; assumption.
  - intros s r x Hcur Hin Hid Ha Hl s'.
    destruct (settle_effect random clock s r Hcur)
      as (_ & _ & _ & _ & _ & _ & _ & (t & E8) & (g & rid & t' & G1 & G2 & E9)).
    fold s' in E8, E9.
    destruct (delete_exactly (id r) (luckyjet_round s) _ _ Ha x Hin Hid)
      as (pre & post & P1 & P2).
    assert (Hl' : ascending log_id 1%Z
                    (luckyjet_round_log s ++
                       [mkLogRow (log_auto s) (roundId r) (crashPoint r) t])
                    (log_auto s + 1)%Z)
      by (apply ascending_snoc; [exact Hl | reflexivity]).
    rewrite (trim_log_lastn _ _ _ Hl') in E8.
    split.
    { exists pre, post, g, rid, t'. rewrite <- P2. auto. }
    split; [exists t; exact E8|].
    split.
    { rewrite E8. unfold lastn. rewrite length_skipn. lia. }
    unfold backlogSize. rewrite E9, P2, P1, !length_app. cbn [length]. lia.
Qed.

(** A run of C7's theorem: Settle of the crashed sample round. *)
Lemma C7_settle_witness :
  backlogSize (snd (settle half_draws zero_clock sample_crashed))
    = backlogSize sample_crashed /\
  (length (luckyjet_round_log (snd (settle half_draws zero_clock sample_crashed)))
     <= 200)%nat.
Proof.
  destruct (C7_settle half_draws zero_clock) as (_ & H).
  assert (Hcur : currentRound sample_crashed = Some sample_round)
    by (vm_compute; reflexivity).
  assert (Hin : In (mkRound 1 42 1.05 true 0) (luckyjet_round sample_crashed))
    by (vm_compute; left; reflexivity).
  assert (Ha : ascending id 1%Z (luckyjet_round sample_crashed)
                 (round_auto sample_crashed))
    by (vm_compute; repeat split; discriminate).
  assert (Hl : ascending log_id 1%Z (luckyjet_round_log sample_crashed)
                 (log_auto sample_crashed))
    by (vm_compute; discriminate).
  destruct (H sample_crashed sample_round (mkRound 1 42 1.05 true 0)
              Hcur Hin eq_refl Ha Hl) as (_ & _ & H1 & H2).
  split; [exact H2 | exact H1].
Defined.

(** C8: at every point of a run from the empty tables at most one backlog
    row is running; in [LiveProgression] exactly one is, the row of the
    current round, and in [BacklogCheck] and [InterRoundPause] none is. *)
Theorem C8_one_running (random : nat -> Q) (clock : nat -> Z) (n : nat) :
  let c := run random clock n (Idle, boot) in
  (length (running_rows (snd c)) <= 1)%nat /\
  (fst c = LiveProgression ->
     exists r, currentRound (snd c) = Some r /\
               running_rows (snd c) = [mark_running (id r) r]) /\
  (fst c = BacklogCheck \/ fst c = InterRoundPause ->
     running_rows (snd c) = []).
Proof.
  intro c.
  pose proof (run_Inv random clock n (Idle, boot) Inv_boot) as HI.
  fold c in HI. unfold Inv in HI. unfold running_rows.
  destruct HI as (_ & _ & _ & _ & HI).
  assert (Hone : forall r rest, not_running rest ->
            filter isRunning (mark_running (id r) r :: rest)
              = [mark_running (id r) r]).
  { intros r rest Hnr. cbn [filter]. rewrite mark_running_self at 1.
    cbn [isRunning]. rewrite (not_running_none rest Hnr). reflexivity. }
  destruct (fst c).
  - destruct HI as [-> _]. cbn. split; [lia|].
    split; [discriminate | reflexivity].
  - destruct HI as [_ Hnr]. rewrite (not_running_none _ Hnr). cbn.
    split; [lia|]. split; [discriminate | reflexivity].
  - destruct HI as (_ & Hnr & _). rewrite (not_running_none _ Hnr). cbn.
    split; [lia|]. split; [discriminate | intros [H|H]; discriminate H].
  - destruct HI as (_ & r & rest & Hcur & -> & Hnr & _).
    rewrite (Hone r rest Hnr). cbn [length].
    split; [lia|]. split; [|intros [H|H]; discriminate H].
    intros _. exists r. split; [exact Hcur | reflexivity].
  - destruct HI as (_ & r & rest & Hcur & -> & Hnr & _).
    rewrite (Hone r rest Hnr). cbn [length].
    split; [lia|]. split; [discriminate | intros [H|H]; discriminate H].
  - destruct HI as [_ Hnr]. rewrite (not_running_none _ Hnr). cbn.
    split; [lia|]. split; [discriminate | reflexivity].
Qed.

(** A run of C8's theorem: three transitions after the start the first
    round is being played and its row is the one running row. *)
Lemma C8_one_running_witness :
  fst (run half_draws zero_clock 3 (Idle, boot)) = LiveProgression /\
  (length (running_rows (snd (run half_draws zero_clock 3 (Idle, boot)))) <= 1)%nat.
Proof.
  split; [vm_compute; reflexivity|].
  exact (proj1 (C8_one_running half_draws zero_clock 3)).
Defined.




(** C10: once the counter exceeds 15, no later call takes the high-value
    branch and each call adds exactly 1 to the counter: after [n] calls it is
    the starting value plus [n], so the reset of the high-value branch is
    never reached again. *)
Theorem C10_breaker_disabled (random : nat -> Q) (s : State) :
  (15 < crashCounter s)%Z ->
  forall n : nat,
    let sn := generate_many random n s in
    takes_high_value random sn = false /\
    crashCounter sn = (crashCounter s + Z.of_nat n)%Z /\
    crashCounter (snd (generateCrashPoint random sn)) = (crashCounter sn + 1)%Z.
Proof.
  intros Hc n. revert s Hc.
  assert (Hone : forall t : State, (15 < crashCounter t)%Z ->
            takes_high_value random t = false /\
            crashCounter (snd (generateCrashPoint random t))
              = (crashCounter t + 1)%Z).
  { intros t Ht.
    assert (E : takes_high_value random t = false).
    { unfold takes_high_value.
      destruct (high_value_test_cases random (crashCounter t + 1) t)
        as [[[Hr _] _] | [[_ E] | [_ E]]]; [lia | | ]; rewrite E; reflexivity. }
    split; [exact E|].
    destruct (generateCrashPoint_band random t E) as (s2 & _ & _ & H2 & ->).
    exact H2. }
  induction n as [|n IH]; intros s Hc sn; subst sn.
  - cbn [generate_many]. destruct (Hone s Hc) as [H1 H2].
    repeat split; [exact H1 | lia | exact H2].
  - cbn [generate_many].
    destruct (Hone s Hc) as [_ H2].
    destruct (IH (snd (generateCrashPoint random s)) ltac:(lia)) as (I1 & I2 & I3).
    repeat split; [exact I1 | lia | exact I3].
Qed.

(** A run of C10's theorem: with draws all 1/2 the coin never succeeds, 16
    calls from the start leave the counter at 16, and five more at 21. *)
Lemma C10_breaker_disabled_witness :
  crashCounter (generate_many half_draws 16 boot) = 16%Z /\
  crashCounter (generate_many half_draws 5 (generate_many half_draws 16 boot))
    = 21%Z.
Proof.
  assert (H16 : crashCounter (generate_many half_draws 16 boot) = 16%Z)
    by (vm_compute; reflexivity).
  assert (Hc : (15 < crashCounter (generate_many half_draws 16 boot))%Z)
    by (rewrite H16; lia).
  destruct (C10_breaker_disabled half_draws (generate_many half_draws 16 boot)
              Hc 5) as (_ & H & _).
  split; [exact H16 | rewrite H, H16; reflexivity].
Defined.

(** * Further properties of the code *)

(** ** The generator *)

(** X1: a call of [generateCrashPoint] consumes two draws, or three when
    the incremented counter lies in 7..15 and the coin draw fails; it leaves
    the counter at 0 or at its incremented value and changes nothing else:
    not the tables, the live state, the clock cursor or the broadcasts. *)
Theorem X1_generator_footprint (random : nat -> Q) (s : State) :
  let s' := snd (generateCrashPoint random s) in
  rng s' = (rng s +
            (if ((7 <=? crashCounter s + 1) && (crashCounter s + 1 <=? 15))%Z
                && negb (Qltb (random (rng s)) (b64 0.3))
             then 3 else 2))%nat /\
  (crashCounter s' = 0%Z \/ crashCounter s' = (crashCounter s + 1)%Z) /\
  currentRound s' = currentRound s /\ isCrashed s' = isCrashed s /\
  liveScore s' = liveScore s /\ interval s' = interval s /\
  luckyjet_round s' = luckyjet_round s /\ round_auto s' = round_auto s /\
  luckyjet_round_log s' = luckyjet_round_log s /\ log_auto s' = log_auto s /\
  clk s' = clk s /\ emitted s' = emitted s.
Proof.
  intro s'. split; [|split; [|apply generateCrashPoint_frame]]; subst s'.
  - pose proof (high_value_test_cases random (crashCounter s + 1) s) as Hcases.
    destruct (takes_high_value random s) eqn:E.
    + rewrite (generateCrashPoint_high random s E). cbn [snd rng set_rng].
      unfold takes_high_value in E.
      destruct Hcases as [[[Hc Hr] _] | [[_ E'] | [_ E']]];
        [|rewrite E' in E; discriminate E ..].
      apply Qltb_lt in Hr. rewrite Hr, andb_false_r. lia.
    + destruct (generateCrashPoint_band random s E) as (s2 & _ & Hr & _ & ->).
      cbn [snd rng set_rng]. rewrite Hr.
      destruct Hcases as [[_ E'] | [[[[H1 H2] Hge] E'] | [Hn E']]];
        rewrite E'; cbn [snd rng set_rng].
      * unfold takes_high_value in E. rewrite E' in E. discriminate E.
      * apply Z.leb_le in H1. apply Z.leb_le in H2. apply Qltb_ge in Hge.
        rewrite H1, H2, Hge. cbn. lia.
      * destruct ((7 <=? crashCounter s + 1) && (crashCounter s + 1 <=? 15))%Z
          eqn:B; [|cbn; lia].
        apply andb_true_iff in B. destruct B as [B1 B2].
        apply Z.leb_le in B1. apply Z.leb_le in B2. exfalso. apply Hn. lia.
  - destruct (takes_high_value random s) eqn:E.
    + rewrite (generateCrashPoint_high random s E). left. reflexivity.
    + destruct (generateCrashPoint_band random s E) as (s2 & _ & _ & Hc & ->).
      right. exact Hc.
Qed.

(** X2: the high-value branch is taken only by a call that finds the
    counter between 6 and 14, so after a reset to 0 the next six calls are
    band calls and leave the counter at 1, 2, ..., 6. *)
Theorem X2_high_value_cooldown (random : nat -> Q) :
  (forall s : State,
     takes_high_value random s = true -> (6 <= crashCounter s <= 14)%Z) /\
  (forall (s : State) (k : nat),
     crashCounter s = 0%Z -> (k < 6)%nat ->
     takes_high_value random (generate_many random k s) = false /\
     crashCounter (generate_many random (S k) s) = Z.of_nat (S k)).
Proof.
  assert (Hhigh : forall s : State,
            takes_high_value random s = true -> (6 <= crashCounter s <= 14)%Z).
  { intros s E. unfold takes_high_value in E.
    destruct (high_value_test_cases random (crashCounter s + 1) s)
      as [[[Hc _] _] | [[_ E'] | [_ E']]];
      [lia | rewrite E' in E; discriminate E ..]. }
  split; [exact Hhigh|].
  assert (Hgen : forall (k : nat) (s : State),
            (crashCounter s + Z.of_nat k < 6)%Z -> (0 <= crashCounter s)%Z ->
            takes_high_value random (generate_many random k s) = false /\
            crashCounter (generate_many random (S k) s)
              = (crashCounter s + Z.of_nat (S k))%Z).
  { induction k as [|k IH]; intros s Hk H0.
    - cbn [generate_many].
      destruct (takes_high_value random s) eqn:E;
        [apply Hhigh in E; lia|].
      split; [reflexivity|].
      destruct (generateCrashPoint_band random s E) as (s2 & _ & _ & Hc & ->).
      cbn [snd crashCounter set_rng]. rewrite Hc. lia.
    - destruct (takes_high_value random s) eqn:E;
        [apply Hhigh in E; lia|].
      destruct (generateCrashPoint_band random s E) as (s2 & _ & _ & Hc & G).
      assert (Hc' : crashCounter (snd (generateCrashPoint random s))
                    = (crashCounter s + 1)%Z) by (rewrite G; exact Hc).
      destruct (IH (snd (generateCrashPoint random s))) as [I1 I2]; [lia | lia |].
      change (generate_many random (S k) s)
        with (generate_many random k (snd (generateCrashPoint random s))).
      change (generate_many random (S (S k)) s)
        with (generate_many random (S k) (snd (generateCrashPoint random s))).
      split; [exact I1 | rewrite I2; lia]. }
  intros s k Hc Hk. destruct (Hgen k s) as [G1 G2]; [lia | lia |].
  split; [exact G1 | rewrite G2, Hc; lia].
Qed.

(** ** [ORDER BY] on any table *)

Section OrderByAny.

Context {A : Type} (key : A -> Z) (desc : bool).

Lemma insert_row_perm (x : A) (l : list A) :
  Permutation (insert_row key desc x l) (x :: l).
Proof.
  induction l as [|y l IH]; [reflexivity|].
  cbn [insert_row]. destruct (comes_first key desc x y); [reflexivity|].
  rewrite IH. apply perm_swap.
Qed.

Lemma order_by_perm (l : list A) : Permutation (order_by key desc l) l.
Proof.
  induction l as [|x l IH]; [reflexivity|].
  cbn [order_by fold_right]. fold (order_by key desc l).
  rewrite insert_row_perm. apply perm_skip, IH.
Qed.

Lemma comes_first_total (a b : A) :
  comes_first key desc a b = false -> comes_first key desc b a = true.
Proof.
  unfold comes_first. destruct desc; intro H;
    apply Z.leb_gt in H; apply Z.leb_le; lia.
Qed.

Lemma comes_first_trans (a b c : A) :
  comes_first key desc a b = true -> comes_first key desc b c = true ->
  comes_first key desc a c = true.
Proof.
  unfold comes_first. destruct desc; intros H1 H2;
    apply Z.leb_le in H1; apply Z.leb_le in H2; apply Z.leb_le; lia.
Qed.

Lemma insert_row_sorted (x : A) (l : list A) :
  Sorted (fun a b => comes_first key desc a b = true) l ->
  Sorted (fun a b => comes_first key desc a b = true) (insert_row key desc x l).
Proof.
  induction 1 as [|y l Hs IH Hd]; [repeat constructor|].
  cbn [insert_row]. destruct (comes_first key desc x y) eqn:E.
  - constructor; [constructor; assumption | constructor; exact E].
  - constructor; [exact IH|].
    destruct l as [|z l]; cbn [insert_row].
    + constructor. apply comes_first_total, E.
    + destruct (comes_first key desc x z).
      * constructor. apply comes_first_total, E.
      * inversion Hd; subst. constructor. assumption.
Qed.

Lemma order_by_sorted (l : list A) :
  StronglySorted (fun a b => comes_first key desc a b = true)
    (order_by key desc l).
Proof.
  apply Sorted_StronglySorted.
  - intros a b c. apply comes_first_trans.
  - induction l as [|x l IH]; [constructor|].
    cbn [order_by fold_right]. apply insert_row_sorted, IH.
Qed.

Lemma sorted_app_inv (R : A -> A -> Prop) (l1 l2 : list A) :
  StronglySorted R (l1 ++ l2) ->
  StronglySorted R l1 /\
  forall x y, In x l1 -> In y l2 -> R x y.
Proof.
  induction l1 as [|a l1 IH]; intro H.
  - split; [constructor | intros x y []].
  - cbn in H. apply StronglySorted_inv in H. destruct H as [Hs Hf].
    destruct (IH Hs) as [I1 I2]. split.
    + constructor; [exact I1|].
      apply Forall_forall. intros z Hz.
      apply (proj1 (Forall_forall _ _) Hf). apply in_or_app. left. exact Hz.
    + intros x y [-> | Hx] Hy.
      * apply (proj1 (Forall_forall _ _) Hf). apply in_or_app. right. exact Hy.
      * apply I2; assumption.
Qed.

(** [ORDER BY key LIMIT n] on any table: at most [n] rows of the table, in
    order, and no row left out comes before a row returned. *)
Lemma order_by_limit (n : nat) (l : list A) :
  length (firstn n (order_by key desc l)) = Nat.min n (length l) /\
  (forall x, In x (firstn n (order_by key desc l)) -> In x l) /\
  StronglySorted (fun a b => comes_first key desc a b = true)
    (firstn n (order_by key desc l)) /\
  (forall x y, In x (firstn n (order_by key desc l)) -> In y l ->
               ~ In y (firstn n (order_by key desc l)) ->
               comes_first key desc x y = true).
Proof.
  pose proof (order_by_perm l) as Hp.
  pose proof (order_by_sorted l) as Hs.
  rewrite <- (firstn_skipn n (order_by key desc l)) in Hs.
  destruct (sorted_app_inv _ _ _ Hs) as [S1 S2].
  split; [rewrite length_firstn, (Permutation_length Hp); reflexivity|].
  split.
  { intros x Hx. apply (Permutation_in _ Hp).
    rewrite <- (firstn_skipn n). apply in_or_app. left. exact Hx. }
  split; [exact S1|].
  intros x y Hx Hy Hn. apply S2; [exact Hx|].
  apply (Permutation_in _ (Permutation_sym Hp)) in Hy.
  rewrite <- (firstn_skipn n) in Hy. apply in_app_or in Hy.
  destruct Hy as [Hy | Hy]; [contradiction | exact Hy].
Qed.

End OrderByAny.

(** X3: on any log table, [getLast20Rounds] changes nothing and returns
    min(20, size) rows of the log in non-increasing order of id; every log
    row it leaves out has an id no larger than those it returns. *)
Theorem X3_getLast20Rounds_any (s : State) :
  snd (getLast20Rounds s) = s /\
  length (fst (getLast20Rounds s)) = Nat.min 20 (length (luckyjet_round_log s)) /\
  (forall x, In x (fst (getLast20Rounds s)) -> In x (luckyjet_round_log s)) /\
  StronglySorted (fun a b => (log_id b <= log_id a)%Z) (fst (getLast20Rounds s)) /\
  (forall x y, In x (fst (getLast20Rounds s)) -> In y (luckyjet_round_log s) ->
               ~ In y (fst (getLast20Rounds s)) -> (log_id y <= log_id x)%Z).
Proof.
  unfold getLast20Rounds, gets, latest_log. cbn [fst snd].
  destruct (order_by_limit log_id true 20 (luckyjet_round_log s))
    as (H1 & H2 & H3 & H4).
  split; [reflexivity|]. split; [exact H1|]. split; [exact H2|].
  split.
  - clear - H3. induction H3 as [|a l Hs IH Hf]; constructor; [exact IH|].
    apply Forall_forall. intros z Hz.
    apply (proj1 (Forall_forall _ _) Hf) in Hz. apply Z.leb_le. exact Hz.
  - intros x y Hx Hy Hn. apply Z.leb_le. exact (H4 x y Hx Hy Hn).
Qed.

(** X4: on any backlog table, the pull of BacklogCheck changes nothing and
    returns no row exactly when the backlog is empty; otherwise it returns
    one row of the backlog, whose id is the smallest. *)
Theorem X4_select_earliest_any (s : State) :
  snd (select_earliest_round s) = s /\
  (fst (select_earliest_round s) = [] <-> luckyjet_round s = []) /\
  (forall r rows, fst (select_earliest_round s) = r :: rows ->
     rows = [] /\ In r (luckyjet_round s) /\
     forall y, In y (luckyjet_round s) -> (id r <= id y)%Z).
Proof.
  unfold select_earliest_round, gets. cbn [fst snd].
  pose proof (order_by_perm id false (luckyjet_round s)) as Hp.
  pose proof (order_by_sorted id false (luckyjet_round s)) as Hs.
  split; [reflexivity|]. split.
  - split; intro H.
    + destruct (order_by id false (luckyjet_round s)) as [|a l];
        [|discriminate H].
      apply Permutation_nil. exact Hp.
    + rewrite H. reflexivity.
  - intros r rows H.
    destruct (order_by id false (luckyjet_round s)) as [|a l] eqn:E;
      [discriminate H|].
    cbn in H. injection H as -> <-.
    split; [reflexivity|]. split.
    + apply (Permutation_in _ Hp). left. reflexivity.
    + intros y Hy. apply (Permutation_in _ (Permutation_sym Hp)) in Hy.
      apply StronglySorted_inv in Hs. destruct Hs as [_ Hf].
      destruct Hy as [<- | Hy]; [lia|].
      apply (proj1 (Forall_forall _ _) Hf) in Hy. apply Z.leb_le. exact Hy.
Qed.

(** ** The log trim *)

Lemma lastn_short {A : Type} (n : nat) (l : list A) :
  (length l <= n)%nat -> lastn n l = l.
Proof.
  intro H. unfold lastn.
  replace (length l - n)%nat with 0%nat by lia. reflexivity.
Qed.

Lemma lastn_length {A : Type} (n : nat) (l : list A) :
  length (lastn n l) = Nat.min n (length l).
Proof. unfold lastn. rewrite length_skipn. lia. Qed.

(** X5: on a log whose ids increase in insertion order, the trim of
    [maintainLogLimit] leaves a log of at most 200 rows as it is, is
    idempotent, keeps min(200, size) rows, and drops only a prefix of the
    log: the rows kept are the last ones, in their order. *)
Theorem X5_trim_log (rows : list LogRow) (lo hi : Z) :
  ascending log_id lo rows hi ->
  ((length rows <= 200)%nat -> trim_log rows = rows) /\
  trim_log (trim_log rows) = trim_log rows /\
  length (trim_log rows) = Nat.min 200 (length rows) /\
  exists old : list LogRow,
    rows = old ++ trim_log rows /\ length old = (length rows - 200)%nat.
Proof.
  intro Ha.
  assert (Ha' : ascending log_id lo (trim_log rows) hi)
    by (unfold trim_log; apply ascending_filter, Ha).
  rewrite (trim_log_lastn _ _ _ Ha') , (trim_log_lastn _ _ _ Ha).
  split; [apply lastn_short|].
  split; [apply lastn_short; rewrite lastn_length; lia|].
  split; [apply lastn_length|].
  exists (firstn (length rows - 200) rows). unfold lastn.
  split; [symmetry; apply firstn_skipn|].
  rewrite length_firstn. lia.
Qed.

(** A run of X5's theorem: a log of three rows is left as it is. *)
Lemma X5_trim_log_witness : trim_log (sample_log 3) = sample_log 3.
Proof.
  assert (Ha : ascending log_id 1%Z (sample_log 3) 4%Z)
    by (vm_compute; repeat split; discriminate).
  apply (proj1 (X5_trim_log (sample_log 3) 1%Z 4%Z Ha)).
  vm_compute. repeat constructor.
Defined.

(** ** [prefillRounds] *)

Section Prefill.

Variable random : nat -> Q.
Variable clock : nat -> Z.

(** X6: with 30 or more rows in the backlog [prefillRounds] does nothing at
    all: no row is inserted or removed, the generator is not called and
    neither a draw nor a clock reading is consumed. *)
Theorem X6_prefill_full (s : State) :
  (30 <= backlogSize s)%Z -> prefillRounds random clock s = (tt, s).
Proof.
  unfold backlogSize. intro H. rewrite prefillRounds_eq.
  replace (Z.to_nat (30 - Z.of_nat (length (luckyjet_round s)))) with 0%nat
    by lia.
  reflexivity.
Qed.

Lemma batch_roundIds_S (k : nat) (i : Z) (n : nat) :
  batch_roundIds clock k i (S n)
    = (clock k + i * 1000)%Z :: batch_roundIds clock (S (S k)) (i + 1) n.
Proof.
  unfold batch_roundIds. cbn [seq map]. f_equal.
  - rewrite Nat.mul_0_r, Nat.add_0_r. f_equal. lia.
  - rewrite <- seq_shift, map_map. apply map_ext. intro j.
    f_equal; [f_equal; lia | lia].
Qed.

(** The rows one loop of [prefillRounds] appends, by round id. *)
Lemma prefill_loop_batch (n : nat) :
  forall (i : Z) (s : State),
    exists fresh : list Round,
      luckyjet_round (snd (prefill_loop random clock n i s))
        = luckyjet_round s ++ fresh /\
      map roundId fresh = batch_roundIds clock (clk s) i n.
Proof.
  induction n as [|n IH]; intros i s.
  - exists []. cbn. rewrite app_nil_r. split; reflexivity.
  - rewrite prefill_loop_S. cbn zeta.
    pose proof (generateCrashPoint_frame random (set_clk (S (clk s)) s)) as F.
    destruct (generateCrashPoint random (set_clk (S (clk s)) s)) as [cp s1].
    cbn [fst snd] in *. cbn in F.
    destruct F as (_ & _ & _ & _ & F5 & _ & _ & _ & F9 & _).
    match goal with |- context [prefill_loop _ _ n ?j ?t] =>
      destruct (IH j t) as (fresh & I1 & I2)
    end.
    cbn in I1, I2. rewrite F9 in I2.
    exists (mkRound (round_auto s1) (clock (clk s) + i * 1000) cp false
              (clock (clk s1)) :: fresh).
    rewrite I1, <- app_assoc, F5. split; [reflexivity|].
    cbn [map roundId]. rewrite batch_roundIds_S, I2. reflexivity.
Qed.

Lemma batch_roundIds_lower (n : nat) :
  forall (k : nat) (i x : Z),
    (forall a b, (a <= b)%nat -> (clock a <= clock b)%Z) ->
    In x (batch_roundIds clock k i n) -> (clock k + i * 1000 <= x)%Z.
Proof.
  intros k i x Hmono Hin. unfold batch_roundIds in Hin.
  apply in_map_iff in Hin. destruct Hin as (j & <- & _).
  pose proof (Hmono k (k + 2 * j)%nat ltac:(lia)). lia.
Qed.

Lemma batch_roundIds_increasing (n : nat) :
  forall (k : nat) (i : Z),
    (forall a b, (a <= b)%nat -> (clock a <= clock b)%Z) ->
    StronglySorted Z.lt (batch_roundIds clock k i n).
Proof.
  induction n as [|n IH]; intros k i Hmono; [constructor|].
  rewrite batch_roundIds_S. constructor; [apply IH, Hmono|].
  apply Forall_forall. intros x Hx.
  apply (batch_roundIds_lower n _ _ _ Hmono) in Hx.
  pose proof (Hmono k (S (S k)) ltac:(lia)). lia.
Qed.

(** X7: [prefillRounds] keeps the rows of the backlog and appends the
    missing ones; row [j] of the batch gets the round id
    [Date.now() + j * 1000], and when the clock does not go backwards the
    round ids of the batch are strictly increasing, hence distinct. *)
Theorem X7_prefill_roundIds (s : State) :
  (forall a b, (a <= b)%nat -> (clock a <= clock b)%Z) ->
  exists fresh : list Round,
    luckyjet_round (snd (prefillRounds random clock s))
      = luckyjet_round s ++ fresh /\
    length fresh = Z.to_nat (30 - backlogSize s) /\
    map roundId fresh
      = batch_roundIds clock (clk s) 0 (Z.to_nat (30 - backlogSize s)) /\
    StronglySorted Z.lt (map roundId fresh).
Proof.
  intro Hmono. rewrite prefillRounds_eq. fold (backlogSize s).
  destruct (prefill_loop_batch (Z.to_nat (30 - backlogSize s)) 0 s)
    as (fresh & E1 & E2).
  exists fresh. split; [exact E1|].
  split.
  { rewrite <- (length_map roundId), E2. unfold batch_roundIds.
    rewrite length_map, length_seq. reflexivity. }
  split; [exact E2|].
  rewrite E2. apply batch_roundIds_increasing, Hmono.
Qed.

End Prefill.

(** A run of X6's theorem: a second prefill right after the first. *)
Lemma X6_prefill_full_witness :
  prefillRounds half_draws zero_clock
    (snd (prefillRounds half_draws zero_clock boot))
  = (tt, snd (prefillRounds half_draws zero_clock boot)).
Proof.
  apply X6_prefill_full. vm_compute. discriminate.
Defined.

(** A run of X7's theorem: the first prefill under a ticking clock. *)
Lemma X7_prefill_roundIds_witness :
  exists fresh : list Round,
    luckyjet_round (snd (prefillRounds half_draws ticking_clock boot)) = fresh /\
    length fresh = 30%nat /\
    StronglySorted Z.lt (map roundId fresh).
Proof.
  destruct (X7_prefill_roundIds half_draws ticking_clock boot)
    as (fresh & E1 & E2 & _ & E4).
  - intros a b Hab. unfold ticking_clock. lia.
  - exists fresh. split; [exact E1|]. split; [exact E2 | exact E4].
Defined.

(** ** The timer callback *)

Lemma tick_shape (s : State) :
  isCrashed s = false ->
  snd (tick s) = scored s \/
  exists r : Round,
    currentRound s = Some r /\
    crashPoint r <= toFixed2 (advance (liveScore s)) /\
    snd (tick s) = set_interval false
                     (emit (crashed (crashPoint r))
                        (set_isCrashed true (scored s))).
Proof.
  intro Hc. destruct (currentRound s) as [r|] eqn:Hr.
  - destruct (Qlt_le_dec (toFixed2 (advance (liveScore s))) (crashPoint r))
      as [Hlt | Hge].
    + left. rewrite (tick_climb s r Hc Hr Hlt). reflexivity.
    + right. exists r. rewrite (tick_crash s r Hc Hr Hge). auto.
  - left. rewrite (tick_live s Hc). unfold crash_check.
    rewrite !bind_run. cbn [gets fst snd].
    change (currentRound (scored s)) with (currentRound s). rewrite Hr.
    reflexivity.
Qed.

(** What no firing of the timer touches. *)
Lemma timer_fire_frame (s : State) :
  currentRound (snd (timer_fire s)) = currentRound s /\
  crashCounter (snd (timer_fire s)) = crashCounter s /\
  luckyjet_round (snd (timer_fire s)) = luckyjet_round s /\
  round_auto (snd (timer_fire s)) = round_auto s /\
  luckyjet_round_log (snd (timer_fire s)) = luckyjet_round_log s /\
  log_auto (snd (timer_fire s)) = log_auto s /\
  rng (snd (timer_fire s)) = rng s /\ clk (snd (timer_fire s)) = clk s.
Proof.
  destruct (interval s) eqn:Hi.
  - rewrite (timer_fire_armed s Hi). destruct (isCrashed s) eqn:Hc.
    + rewrite (tick_crashed s Hc). repeat split.
    + destruct (tick_shape s Hc) as [-> | (r & _ & _ & ->)]; repeat split.
  - rewrite (timer_fire_cleared s Hi). repeat split.
Qed.

(** X8: a firing of the timer never touches the tables, the generator
    counter, the oracle cursors or [currentRound]; it never unsets the latch
    and never re-arms a cleared timer; and once the timer is cleared or the
    latch is set it changes nothing at all. *)
Theorem X8_timer_footprint (s : State) :
  let s' := snd (timer_fire s) in
  (currentRound s' = currentRound s /\ crashCounter s' = crashCounter s /\
   luckyjet_round s' = luckyjet_round s /\ round_auto s' = round_auto s /\
   luckyjet_round_log s' = luckyjet_round_log s /\ log_auto s' = log_auto s /\
   rng s' = rng s /\ clk s' = clk s) /\
  (isCrashed s = true -> isCrashed s' = true) /\
  (interval s = false -> interval s' = false) /\
  (interval s = false \/ isCrashed s = true -> s' = s).
Proof.
  intro s'. subst s'. split; [apply timer_fire_frame|].
  destruct (interval s) eqn:Hi.
  - rewrite (timer_fire_armed s Hi). destruct (isCrashed s) eqn:Hc.
    + rewrite (tick_crashed s Hc). cbn [snd].
      split; [intros; congruence|]. split; [intros; congruence|]. reflexivity.
    + destruct (tick_shape s Hc) as [-> | (r & _ & _ & ->)];
        (split; [discriminate|]); (split; [discriminate|]);
        intros [H|H]; discriminate H.
  - rewrite (timer_fire_cleared s Hi). cbn [snd].
    split; [intros; congruence|]. split; [intros; congruence|]. reflexivity.
Qed.

Lemma fire_frame (n : nat) (s : State) :
  currentRound (fire n s) = currentRound s /\
  luckyjet_round (fire n s) = luckyjet_round s /\
  round_auto (fire n s) = round_auto s /\
  luckyjet_round_log (fire n s) = luckyjet_round_log s /\
  log_auto (fire n s) = log_auto s.
Proof.
  induction n as [|n IH]; [repeat split|].
  rewrite fire_S.
  destruct (timer_fire_frame (fire n s)) as (T1 & _ & T2 & T3 & T4 & T5 & _).
  destruct IH as (I1 & I2 & I3 & I4 & I5).
  repeat split; congruence.
Qed.

(** X9: in a round whose score starts at a two-decimal value no larger
    than the crash point, whenever the latch is set the score shown is at
    least the crash point and exceeds it by at most 0.2, the largest step. *)
Theorem X9_crash_overshoot (s : State) (r : Round) :
  currentRound s = Some r -> isCrashed s = false ->
  0 <= liveScore s -> toFixed2 (liveScore s) = liveScore s ->
  liveScore s <= crashPoint r ->
  forall n : nat,
    isCrashed (fire n s) = true ->
    crashPoint r <= liveScore (fire n s) <= crashPoint r + 0.2.
Proof.
  intros Hr Hc H0 Hfix Hle.
  set (J := fun t : State =>
              currentRound t = Some r /\ 0 <= liveScore t /\
              toFixed2 (liveScore t) = liveScore t /\
              (if isCrashed t
               then crashPoint r <= liveScore t <= crashPoint r + 0.2
               else liveScore t <= crashPoint r)).
  assert (Hstep : forall t, J t -> J (snd (timer_fire t))).
  { intros t (J1 & J2 & J3 & J4).
    destruct (interval t) eqn:Hi;
      [|rewrite (timer_fire_cleared t Hi); repeat split; assumption].
    rewrite (timer_fire_armed t Hi).
    destruct (isCrashed t) eqn:Ht.
    { rewrite (tick_crashed t Ht). cbn [snd]. unfold J. rewrite Ht. auto. }
    pose proof (advance_exact (liveScore t) J2 J3) as Hex.
    pose proof (advance_bounds (liveScore t)) as Hb.
    assert (Hidem : toFixed2 (toFixed2 (advance (liveScore t)))
                    = toFixed2 (advance (liveScore t)))
      by (apply toFixed2_idem; lra).
    destruct (Qlt_le_dec (toFixed2 (advance (liveScore t))) (crashPoint r))
      as [Hlt | Hge].
    - rewrite (tick_climb t r Ht J1 Hlt). unfold J, scored.
      cbn -[toFixed2 advance]. rewrite Ht.
      repeat split; try assumption; lra.
    - rewrite (tick_crash t r Ht J1 Hge). unfold J, scored.
      cbn -[toFixed2 advance].
      repeat split; try assumption; lra. }
  assert (Hall : forall n, J (fire n s)).
  { induction n as [|n IH].
    - cbn [fire]. unfold J. rewrite Hc. auto.
    - rewrite fire_S. apply Hstep, IH. }
  intros n Hn. destruct (Hall n) as (_ & _ & _ & J4).
  rewrite Hn in J4. exact J4.
Qed.

(** A run of X9's theorem: the sample round, of crash point 1.05, after
    five firings. *)
Lemma X9_crash_overshoot_witness :
  crashPoint sample_round <= liveScore (fire 5 sample_live)
    <= crashPoint sample_round + 0.2.
Proof.
  apply (X9_crash_overshoot sample_live sample_round eq_refl eq_refl).
  - vm_compute. discriminate.
  - vm_compute. reflexivity.
  - vm_compute. discriminate.
  - vm_compute. reflexivity.
Defined.

(** ** What the loop keeps, continued *)

Lemma observe_all_snoc (o : Observer) (evs : list Event) (e : Event) :
  observe_all o (evs ++ [e])
    = match observe_all o evs with
      | Some o' => observe o' e
      | None => None
      end.
Proof. unfold observe_all. rewrite fold_left_app. reflexivity. Qed.

Lemma mark_running_crashPoint (k : Z) (x : Round) :
  crashPoint (mark_running k x) = crashPoint x.
Proof. unfold mark_running. destruct (id x =? k)%Z; reflexivity. Qed.

Lemma Forall_filter_keep {A : Type} (P : A -> Prop) (f : A -> bool)
  (l : list A) : Forall P l -> Forall P (filter f l).
Proof.
  intro H. apply Forall_forall. intros x Hx.
  apply filter_In in Hx. destruct Hx as [Hx _].
  exact (proj1 (Forall_forall P l) H x Hx).
Qed.

Section Kept.

Variable random : nat -> Q.
Variable clock : nat -> Z.
Variable P : Q -> Prop.
Hypothesis generated : forall g : State, P (fst (generateCrashPoint random g)).

Lemma prefill_loop_generated (n : nat) :
  forall (i : Z) (s : State),
    Forall (fun x => P (crashPoint x)) (luckyjet_round s) ->
    Forall (fun x => P (crashPoint x))
      (luckyjet_round (snd (prefill_loop random clock n i s))).
Proof.
  induction n as [|n IH]; intros i s H; [exact H|].
  rewrite prefill_loop_S. cbn zeta. apply IH.
  destruct (generateCrashPoint_frame random (set_clk (S (clk s)) s))
    as (_ & _ & _ & _ & F5 & _).
  cbn [luckyjet_round set_round_table]. rewrite F5.
  cbn [luckyjet_round set_clk].
  apply Forall_app. split; [exact H|].
  constructor; [apply generated | constructor].
Qed.

Lemma step_Inv2 (p : Phase) (s : State) :
  Inv (p, s) -> Inv2 P (p, s) -> Inv2 P (step random clock p s).
Proof.
  unfold Inv at 1, Inv2 at 1; cbn [fst snd].
  intros (Ha & Hl & H1 & Hfix & Hp) (Klen & Krows & Klog & Kcur & Kobs).
  destruct p.
  - (* Idle *)
    destruct Hp as [Hrows _]. rewrite step_Idle, prefillRounds_eq.
    set (n := Z.to_nat (30 - Z.of_nat (length (luckyjet_round s)))).
    destruct (prefill_loop_effect random clock n 0 s)
      as (E1 & _ & _ & _ & E5 & _ & E7 & _).
    pose proof (prefill_loop_generated n 0 s Krows) as G.
    unfold Inv2, observer_of; cbn [fst snd]. rewrite E1, E5, E7.
    repeat split; assumption.
  - (* BacklogCheck *)
    destruct Hp as [Hlen _].
    destruct (luckyjet_round s) as [|r rest] eqn:Hrows; [discriminate Hlen|].
    assert (Ha' : ascending id 1%Z (luckyjet_round s) (round_auto s))
      by (rewrite Hrows; exact Ha).
    rewrite (step_pull random clock s r rest 1%Z Ha' Hrows).
    unfold Inv2, observer_of; cbn [fst snd]. cbn -[observe_all]. rewrite Hrows.
    split; [exact Klen|]. split; [exact Krows|]. split; [exact Klog|].
    split; [|exact Kobs].
    intros r' Hr'. injection Hr' as <-. inversion Krows; subst. assumption.
  - (* RoundStart *)
    destruct Hp as (_ & _ & r & rest & Hcur & Hrows & _ & Hone).
    rewrite (step_start random clock s r Hcur).
    unfold Inv2, observer_of; cbn [fst snd]. cbn -[toFixed2 latest_log observe_all].
    rewrite Hcur.
    split; [exact Klen|]. split.
    { apply Forall_forall. intros x Hx. apply in_map_iff in Hx.
      destruct Hx as (y & <- & Hy). rewrite mark_running_crashPoint.
      exact (proj1 (Forall_forall _ _) Krows y Hy). }
    split; [exact Klog|].
    split; [first [exact Kcur
                | intros r0 Hr0; injection Hr0 as <-; apply Kcur, Hcur]|].
    rewrite observe_all_snoc, Kobs. unfold observer_of; cbn [fst snd].
    cbn [observe]. rewrite Hone. reflexivity.
  - (* LiveProgression *)
    destruct Hp as (_ & r & rest & Hcur & _ & _ & Hc & Hi).
    unfold observer_of in Kobs; cbn [fst snd] in Kobs. rewrite Hcur in Kobs.
    rewrite step_live, (timer_fire_armed s Hi).
    assert (H0 : 0 <= liveScore s) by lra.
    pose proof (tick_progress (liveScore s) H0) as Hprog.
    assert (Hup : Qltb (liveScore s) (toFixed2 (advance (liveScore s))) = true)
      by (apply Qltb_lt; lra).
    destruct (Qlt_le_dec (toFixed2 (advance (liveScore s))) (crashPoint r))
      as [Hlt | Hge].
    + rewrite (tick_climb s r Hc Hcur Hlt). cbn [snd].
      unfold Inv2, observer_of, scored; cbn -[toFixed2 advance observe_all]. rewrite Hc.
      cbn -[toFixed2 advance observe_all]. rewrite Hcur.
      split; [exact Klen|]. split; [exact Krows|]. split; [exact Klog|].
      split; [first [exact Kcur
                  | intros r0 Hr0; injection Hr0 as <-; apply Kcur, Hcur]|].
      rewrite observe_all_snoc, Kobs. cbn [observe]. rewrite Hup.
      apply Qgeb_gt in Hlt. rewrite Hlt. reflexivity.
    + rewrite (tick_crash s r Hc Hcur Hge). cbn [snd].
      unfold Inv2, observer_of, scored; cbn -[toFixed2 advance observe_all].
      split; [exact Klen|]. split; [exact Krows|]. split; [exact Klog|].
      split; [first [exact Kcur
                  | intros r0 Hr0; injection Hr0 as <-; apply Kcur, Hcur]|].
      rewrite !observe_all_snoc, Kobs. cbn [observe]. rewrite Hup.
      apply Qgeb_le in Hge. rewrite Hge. cbn [observe].
      rewrite Qeq_bool_refl. reflexivity.
  - (* Crashed *)
    destruct Hp as (_ & r & rest & Hcur & _).
    rewrite step_settle.
    destruct (settle_effect random clock s r Hcur)
      as (E1 & _ & _ & _ & E5 & _ & _ & (t & E8) & (g & rid & t' & _ & _ & E9)).
    unfold Inv2, observer_of; cbn [fst snd]. rewrite E1, E5, E8, E9.
    assert (Hl' : ascending log_id 1%Z
                    (luckyjet_round_log s ++
                       [mkLogRow (log_auto s) (roundId r) (crashPoint r) t])
                    (log_auto s + 1)%Z)
      by (apply ascending_snoc; [exact Hl | reflexivity]).
    split.
    { rewrite (trim_log_lastn _ _ _ Hl'). unfold lastn.
      rewrite length_skipn. lia. }
    split.
    { apply Forall_app. split; [apply Forall_filter_keep, Krows|].
      constructor; [apply generated | constructor]. }
    split.
    { unfold trim_log. apply Forall_filter_keep, Forall_app.
      split; [exact Klog|]. constructor; [|constructor].
      cbn [log_crashPoint]. apply Kcur, Hcur. }
    split; [exact Kcur | exact Kobs].
  - (* InterRoundPause *)
    rewrite step_pause. unfold Inv2, observer_of; cbn [fst snd].
    repeat split; assumption.
Qed.

Lemma run_Inv2 (n : nat) :
  Inv (run random clock n (Idle, boot)) /\
  Inv2 P (run random clock n (Idle, boot)).
Proof.
  induction n as [|n [IH1 IH2]].
  - split; [apply Inv_boot|].
    unfold Inv2, observer_of, boot; cbn. repeat split; try constructor.
    + lia.
    + intros r H. discriminate H.
  - rewrite run_S.
    destruct (run random clock n (Idle, boot)) as [p s]. cbn [fst snd].
    split; [apply step_Inv, IH1 | apply step_Inv2; assumption].
Qed.

End Kept.

(** The generator's results lie in its range, and so does what a FLOAT
    column keeps of them, when the draws lie in [0, 1). *)
Lemma generateCrashPoint_valid (random : nat -> Q) :
  (forall i : nat, 0 <= random i < 1) ->
  forall g : State, valid_crashPoint (fst (generateCrashPoint random g)).
Proof.
  intros Hrand g. unfold valid_crashPoint.
  assert (R : 1 <= fst (generateCrashPoint random g) <= 50).
  { destruct (takes_high_value random g) eqn:E.
    - rewrite (generateCrashPoint_high random g E). cbn [fst].
      pose proof (Hrand (S (rng g))) as Hu.
      pose proof (high_value_between _ Hu). lra.
    - destruct (generateCrashPoint_band random g E) as (s2 & _ & _ & _ & ->).
      cbn [fst].
      pose proof (Hrand (S (rng s2))) as Hu.
      destruct (band_value_between (band_roll random g) _ Hu)
        as (B1 & B2 & B3 & B4).
      destruct (Qlt_le_dec (band_roll random g) 55) as [L1|L1];
        [specialize (B1 L1); lra|].
      destruct (Qlt_le_dec (band_roll random g) 80) as [L2|L2];
        [specialize (B2 (conj L1 L2)); lra|].
      destruct (Qlt_le_dec (band_roll random g) 95) as [L3|L3];
        [specialize (B3 (conj L2 L3)); lra|].
      specialize (B4 L3). lra. }
  split; [exact R|].
  apply (f32_between 1 50); [lia | reflexivity | unfold inject_Z; lra ..].
Qed.

(** X10: from the empty tables, at every point of the loop the ids of the
    backlog and of the log increase strictly in insertion order and lie
    below the table's AUTO_INCREMENT counter, and the log holds at most 200
    rows. *)
Theorem X10_store_wellformed (random : nat -> Q) (clock : nat -> Z) (n : nat) :
  let s := snd (run random clock n (Idle, boot)) in
  ascending id 1%Z (luckyjet_round s) (round_auto s) /\
  ascending log_id 1%Z (luckyjet_round_log s) (log_auto s) /\
  (forall x, In x (luckyjet_round s) -> (1 <= id x < round_auto s)%Z) /\
  (forall x, In x (luckyjet_round_log s) -> (1 <= log_id x < log_auto s)%Z) /\
  (length (luckyjet_round_log s) <= 200)%nat.
Proof.
  intro s.
  destruct (run_Inv2 random clock (fun _ => True) (fun _ => I) n)
    as [(Ha & Hl & _) (Klen & _)].
  fold s in Ha, Hl, Klen.
  split; [exact Ha|]. split; [exact Hl|].
  split; [intros x Hx; exact (ascending_in id _ _ _ _ Ha Hx)|].
  split; [intros x Hx; exact (ascending_in log_id _ _ _ _ Hl Hx) | exact Klen].
Qed.

(** X11: when the draws lie in [0, 1), at every point of the loop the
    crash point of every backlog row, of every log row and of the current
    round lies between 1 and 50, and so does the value a FLOAT column, of
    single precision, keeps of it. *)
Theorem X11_crash_points_valid
  (random : nat -> Q) (clock : nat -> Z) (n : nat) :
  (forall i : nat, 0 <= random i < 1) ->
  let s := snd (run random clock n (Idle, boot)) in
  Forall (fun x => 1 <= crashPoint x <= 50 /\ 1 <= f32 (crashPoint x) <= 50)
    (luckyjet_round s) /\
  Forall (fun x => 1 <= log_crashPoint x <= 50 /\
                   1 <= f32 (log_crashPoint x) <= 50)
    (luckyjet_round_log s) /\
  (forall r, currentRound s = Some r ->
     1 <= crashPoint r <= 50 /\ 1 <= f32 (crashPoint r) <= 50).
Proof.
  intros Hrand s.
  destruct (run_Inv2 random clock valid_crashPoint
              (generateCrashPoint_valid random Hrand) n)
    as [_ (_ & K1 & K2 & K3 & _)].
  split; [exact K1|]. split; [exact K2 | exact K3].
Qed.

(** A run of X11's theorem: the backlog after the first prefill. *)
Lemma X11_crash_points_valid_witness :
  Forall (fun x => 1 <= crashPoint x <= 50 /\ 1 <= f32 (crashPoint x) <= 50)
    (luckyjet_round (snd (run half_draws zero_clock 1 (Idle, boot)))).
Proof.
  apply (X11_crash_points_valid half_draws zero_clock 1).
  draws_in_range.
Defined.

(** X12: the broadcasts made up to any point of the loop are accepted by
    an observer who allows a round start only between rounds, then scores
    that increase strictly and stay below the announced crash point until
    one reaches it, then the crash of exactly that point; while a round is
    played the observer has seen its crash point and its current score, and
    otherwise is between rounds. *)
Theorem X12_broadcast_protocol
  (random : nat -> Q) (clock : nat -> Z) (n : nat) :
  observe_all Waiting (emitted (snd (run random clock n (Idle, boot))))
    = Some (observer_of (run random clock n (Idle, boot))).
Proof.
  destruct (run_Inv2 random clock (fun _ => True) (fun _ => I) n)
    as [_ (_ & _ & _ & _ & K)].
  exact K.
Qed.

(** ** A whole round *)

Lemma lastn_snoc {A : Type} (n : nat) (l : list A) (e : A) :
  lastn (S n) (l ++ [e]) = lastn n l ++ [e].
Proof.
  unfold lastn. rewrite length_app. cbn [length].
  replace (length l + 1 - S n)%nat with (length l - n)%nat by lia.
  rewrite skipn_app.
  replace (length l - n - length l)%nat with 0%nat by lia.
  reflexivity.
Qed.

Section WholeRound.

Variable random : nat -> Q.
Variable clock : nat -> Z.

Lemma run_add (n m : nat) (c : Phase * State) :
  run random clock (n + m) c = run random clock m (run random clock n c).
Proof.
  revert c. induction n as [|n IH]; intro c; [reflexivity|].
  cbn [run Nat.add]. apply IH.
Qed.

(** A round being played reaches [Crashed], with its scores and its crash
    broadcast behind it. *)
Lemma crash_eventually (s : State) (r : Round) :
  currentRound s = Some r -> isCrashed s = false -> interval s = true ->
  0 <= liveScore s ->
  exists k : nat,
    (1 <= k)%nat /\
    run random clock k (LiveProgression, s) = (Crashed, fire k s) /\
    emitted (fire k s) = emitted s ++ scores k s ++ [crashed (crashPoint r)].
Proof.
  intros Hr Hc Hi H0.
  set (N := Z.to_nat (Qceiling ((crashPoint r - liveScore s) * 200))).
  assert (HN : crashPoint r <= liveScore s + (Z.of_nat N # 200) + (1 # 200)).
  { pose proof (Qle_ceiling ((crashPoint r - liveScore s) * 200)) as Hce.
    assert (HZ : (Qceiling ((crashPoint r - liveScore s) * 200) <= Z.of_nat N)%Z)
      by (unfold N; lia).
    assert (HQ : inject_Z (Qceiling ((crashPoint r - liveScore s) * 200))
                 <= inject_Z (Z.of_nat N))
      by (rewrite <- Zle_Qle; exact HZ).
    assert (E : Z.of_nat N # 200 == inject_Z (Z.of_nat N) * (1 # 200)).
    { unfold Qeq, Qmult, inject_Z; cbn [Qnum Qden]. lia. }
    rewrite E. lra. }
  destruct (crash_within r N s Hr Hc Hi H0 HN)
    as (k & Hk & Hbefore & _ & _ & Hlatch & _ & Htrace).
  exists k. split; [lia|]. split; [|exact Htrace].
  destruct k as [|k]; [lia|].
  rewrite run_S, run_live by (intros j Hj; apply Hbefore; lia).
  cbn [fst snd]. rewrite step_live, <- fire_S, Hlatch. reflexivity.
Qed.

(** X13: from the empty tables, every time the loop is at its top it
    comes back to its top after finitely many transitions, having played
    exactly the first row of the backlog: the broadcasts gained are that
    round's start, its scores and its crash; the backlog is the other rows in
    their order followed by one new row; and the most recent entry of the
    history is the round just played. *)
Theorem X13_round_completes (n : nat) :
  fst (run random clock n (Idle, boot)) = BacklogCheck ->
  exists (m : nat) (r fresh : Round) (rest : list Round)
         (e : LogRow) (older : list LogRow) (shown : list Event),
    luckyjet_round (snd (run random clock n (Idle, boot))) = r :: rest /\
    (5 <= m)%nat /\
    fst (run random clock (n + m) (Idle, boot)) = BacklogCheck /\
    luckyjet_round (snd (run random clock (n + m) (Idle, boot)))
      = rest ++ [fresh] /\
    fst (getLast20Rounds (snd (run random clock (n + m) (Idle, boot))))
      = e :: older /\
    log_roundId e = roundId r /\ log_crashPoint e = crashPoint r /\
    emitted (snd (run random clock (n + m) (Idle, boot)))
      = emitted (snd (run random clock n (Idle, boot))) ++
        roundStart (roundId r) (crashPoint r)
          (fst (getLast20Rounds (snd (run random clock n (Idle, boot)))))
        :: shown ++ [crashed (crashPoint r)] /\
    filter is_liveScore shown = shown /\ length shown = (m - 4)%nat.
Proof.
  intro Hp.
  pose proof (run_Inv random clock n (Idle, boot) Inv_boot) as HI.
  destruct (run random clock n (Idle, boot)) as [p s] eqn:Hrun.
  cbn [fst snd] in *. subst p.
  unfold Inv in HI; cbn [fst snd] in HI.
  destruct HI as (Ha & Hl & _ & _ & Hlen & _).
  destruct (luckyjet_round s) as [|r rest] eqn:Hrows; [discriminate Hlen|].
  assert (Ha' : ascending id 1%Z (luckyjet_round s) (round_auto s))
    by (rewrite Hrows; exact Ha).
  cbn [ascending] in Ha. destruct Ha as [Ha1 Ha2].
  (* the pull and the start *)
  set (s1 := set_liveScore 1.00
               (set_isCrashed false (set_currentRound (Some r) s))).
  set (s2 := set_interval true
               (emit (roundStart (roundId r) (crashPoint r)
                        (latest_log 20 (luckyjet_round_log s1)))
                  (set_round_table
                     (map (mark_running (id r)) (luckyjet_round s1))
                     (round_auto s1) s1))).
  assert (R2 : run random clock 2 (BacklogCheck, s) = (LiveProgression, s2)).
  { cbn [run fst snd].
    rewrite (step_pull random clock s r rest 1%Z Ha' Hrows). cbn [fst snd].
    fold s1. rewrite (step_start random clock s1 r eq_refl). reflexivity. }
  (* the ticks *)
  destruct (crash_eventually s2 r eq_refl eq_refl eq_refl) as (k & Hk & Rk & Tk).
  { vm_compute. discriminate. }
  destruct (fire_frame k s2) as (C1 & C2 & C3 & C4 & C5).
  (* Settle and the pause *)
  destruct (settle_effect random clock (fire k s2) r)
    as (_ & _ & _ & _ & E5 & _ & _ & (t & E8) & (g & rid & t' & _ & _ & E9));
    [rewrite C1; reflexivity|].
  set (s4 := snd (settle random clock (fire k s2))) in *.
  assert (R4 : run random clock (2 + (k + 2)) (BacklogCheck, s)
               = (BacklogCheck, s4)).
  { rewrite run_add, R2, run_add, Rk. cbn [run fst snd].
    rewrite step_settle. reflexivity. }
  assert (Hrows2 : luckyjet_round s2 = mark_running (id r) r :: rest).
  { cbn. rewrite Hrows. cbn [map].
    rewrite (update_others (id r) rest _ _ Ha2) by lia. reflexivity. }
  assert (Hl' : ascending log_id 1%Z
                  (luckyjet_round_log s ++
                     [mkLogRow (log_auto s) (roundId r) (crashPoint r) t])
                  (log_auto s + 1)%Z)
    by (apply ascending_snoc; [exact Hl | reflexivity]).
  assert (Hlog4 : luckyjet_round_log s4
                  = lastn 199 (luckyjet_round_log s) ++
                    [mkLogRow (log_auto s) (roundId r) (crashPoint r) t]).
  { rewrite E8, C4, C5. cbn [luckyjet_round_log log_auto s2 s1 set_interval emit
      set_round_table set_liveScore set_isCrashed set_currentRound].
    rewrite (trim_log_lastn _ _ _ Hl'). apply lastn_snoc. }
  exists (k + 4)%nat, r,
    (mkRound (round_auto (fire k s2)) rid
       (fst (generateCrashPoint random g)) false t'),
    rest, (mkLogRow (log_auto s) (roundId r) (crashPoint r) t),
    (firstn 19 (rev (lastn 199 (luckyjet_round_log s)))),
    (scores k s2).
  replace (n + (k + 4))%nat with (n + (2 + (k + 2)))%nat by lia.
  rewrite run_add, Hrun, R4. cbn [fst snd].
  split; [reflexivity|]. split; [lia|]. split; [reflexivity|].
  split.
  { rewrite E9, C2, Hrows2. cbn [filter].
    rewrite mark_running_id, Z.eqb_refl. cbn [negb].
    rewrite (delete_others (id r) rest _ _ Ha2) by lia. reflexivity. }
  split.
  { unfold getLast20Rounds, gets. cbn [fst].
    assert (Ha4 : ascending log_id 1%Z (luckyjet_round_log s4) (log_auto s + 1)%Z).
    { rewrite E8, C4, C5. unfold trim_log. apply ascending_filter. exact Hl'. }
    rewrite (latest_log_rev 20 _ _ _ Ha4), Hlog4, rev_app_distr.
    reflexivity. }
  split; [reflexivity|]. split; [reflexivity|].
  destruct (scores_only_liveScore k s2) as (_ & S2 & S3).
  split; [|split; [exact S2 | rewrite S3; lia]].
  rewrite E5, Tk. cbn [emitted s2 set_interval emit].
  rewrite <- !app_assoc. reflexivity.
Qed.

End WholeRound.

(** A run of X13's theorem: the first round when every draw is 1/1024. *)
Lemma X13_round_completes_witness :
  exists m : nat,
    (5 <= m)%nat /\
    fst (run tiny_draws zero_clock (1 + m) (Idle, boot)) = BacklogCheck.
Proof.
  destruct (X13_round_completes tiny_draws zero_clock 1)
    as (m & _ & _ & _ & _ & _ & _ & _ & H1 & H2 & _).
  - vm_compute. reflexivity.
  - exists m. split; [exact H1 | exact H2].
Defined.

(** ** Settle without a row to delete *)

Lemma filter_all {A : Type} (f : A -> bool) (l : list A) :
  (forall x, In x l -> f x = true) -> filter f l = l.
Proof.
  induction l as [|a l IH]; intro H; [reflexivity|].
  cbn [filter]. rewrite (H a (or_introl eq_refl)). f_equal.
  apply IH. intros x Hx. apply H. right. exact Hx.
Qed.

(** X14: when no backlog row carries the id of the current round, the
    DELETE of Settle removes nothing: every row is kept, the round is logged
    all the same, one new row that is not running is appended, and the
    backlog grows by one. *)
Theorem X14_settle_missing_row
  (random : nat -> Q) (clock : nat -> Z) (s : State) (r : Round) :
  currentRound s = Some r ->
  (forall x, In x (luckyjet_round s) -> id x <> id r) ->
  let s' := snd (settle random clock s) in
  (exists fresh : Round,
     luckyjet_round s' = luckyjet_round s ++ [fresh] /\
     isRunning fresh = false /\ id fresh = round_auto s) /\
  (exists t : Z,
     luckyjet_round_log s' =
       trim_log (luckyjet_round_log s ++
                   [mkLogRow (log_auto s) (roundId r) (crashPoint r) t])) /\
  backlogSize s' = (backlogSize s + 1)%Z.
Proof.
  intros Hcur Hmiss s'.
  destruct (settle_effect random clock s r Hcur)
    as (_ & _ & _ & _ & _ & _ & _ & (t & E8) & (g & rid & t' & _ & _ & E9)).
  fold s' in E8, E9.
  rewrite filter_all in E9.
  2:{ intros x Hx. apply negb_true_iff, Z.eqb_neq, Hmiss, Hx. }
  split; [eexists; split; [exact E9 | split; reflexivity]|].
  split; [exists t; exact E8|].
  unfold backlogSize. rewrite E9, length_app. cbn [length]. lia.
Qed.

(** A run of X14's theorem: the current round has id 1, the only row id 2. *)
Lemma X14_settle_missing_row_witness :
  backlogSize (snd (settle half_draws zero_clock sample_orphan)) = 2%Z.
Proof.
  destruct (X14_settle_missing_row half_draws zero_clock sample_orphan
              sample_round eq_refl) as (_ & _ & H).
  - intros x [<- | []]. cbn. discriminate.
  - exact H.
Defined.

(** ** The score shown at the crash *)

(** X15: in a round whose crash point is a two-decimal value of at most
    1.50 and whose two-decimal score starts below it, the score climbs by
    hundredths and the score shown once the latch is set is the crash point
    itself. *)
Theorem X15_crash_exact (s : State) (r : Round) :
  currentRound s = Some r -> isCrashed s = false ->
  0 <= liveScore s -> toFixed2 (liveScore s) = liveScore s ->
  toFixed2 (crashPoint r) = crashPoint r ->
  liveScore s < crashPoint r -> crashPoint r <= 1.5 ->
  forall n : nat,
    isCrashed (fire n s) = true -> liveScore (fire n s) == crashPoint r.
Proof.
  intros Hr Hc H0 Hfix Hcp Hlt Hmax.
  set (J := fun t : State =>
              currentRound t = Some r /\ 0 <= liveScore t /\
              toFixed2 (liveScore t) = liveScore t /\
              (if isCrashed t
               then liveScore t == crashPoint r
               else liveScore t < crashPoint r)).
  assert (Hstep : forall t, J t -> J (snd (timer_fire t))).
  { intros t (J1 & J2 & J3 & J4).
    destruct (interval t) eqn:Hi;
      [|rewrite (timer_fire_cleared t Hi); repeat split; assumption].
    rewrite (timer_fire_armed t Hi).
    destruct (isCrashed t) eqn:Ht.
    { rewrite (tick_crashed t Ht). cbn [snd]. unfold J. rewrite Ht. auto. }
    pose proof (advance_exact (liveScore t) J2 J3) as Hex.
    destruct (advance_tiers (liveScore t)) as (T1 & _).
    rewrite T1 in Hex by lra.
    assert (Hidem : toFixed2 (toFixed2 (advance (liveScore t)))
                    = toFixed2 (advance (liveScore t))).
    { apply toFixed2_idem. pose proof (advance_bounds (liveScore t)). lra. }
    rewrite T1 in Hidem by lra.
    destruct (Qlt_le_dec (toFixed2 (advance (liveScore t))) (crashPoint r))
      as [Hlow | Hge].
    - rewrite (tick_climb t r Ht J1 Hlow). unfold J, scored.
      cbn -[toFixed2 advance]. rewrite Ht. rewrite T1 in * by lra.
      repeat split; try assumption; lra.
    - rewrite (tick_crash t r Ht J1 Hge). unfold J, scored.
      cbn -[toFixed2 advance]. rewrite T1 in * by lra.
      split; [exact J1|]. split; [lra|]. split; [exact Hidem|].
      (* both are whole numbers of hundredths, one apart at most *)
      destruct (toFixed2_is_cents (liveScore t) J2) as (a & Ha & Ea).
      destruct (toFixed2_is_cents (crashPoint r)) as (b & Hb & Eb); [lra|].
      rewrite J3 in Ea. rewrite Hcp in Eb.
      assert (Hab : (a < b)%Z).
      { rewrite Ea, Eb in J4. unfold Qlt in J4; cbn [Qnum Qden] in J4. lia. }
      assert (Hle : liveScore t + 0.01 <= crashPoint r).
      { rewrite Ea, Eb. unfold Qle, Qplus; cbn [Qnum Qden]. lia. }
      lra. }
  assert (Hall : forall n, J (fire n s)).
  { induction n as [|n IH].
    - cbn [fire]. unfold J. rewrite Hc. auto.
    - rewrite fire_S. apply Hstep, IH. }
  intros n Hn. destruct (Hall n) as (_ & _ & _ & J4).
  rewrite Hn in J4. exact J4.
Qed.

(** A run of X15's theorem: the sample round crashes showing 1.05. *)
Lemma X15_crash_exact_witness :
  liveScore (fire 5 sample_live) == crashPoint sample_round.
Proof.
  apply (X15_crash_exact sample_live sample_round eq_refl eq_refl).
  - vm_compute. discriminate.
  - vm_compute. reflexivity.
  - vm_compute. reflexivity.
  - vm_compute. reflexivity.
  - vm_compute. discriminate.
  - vm_compute. reflexivity.
Defined.

(** ** A late joiner and the other observers *)

Lemma on_connection_eq (s : State) :
  on_connection s =
    (mkInitData (option_map roundId (currentRound s))
       (option_map crashPoint (currentRound s))
       (latest_log 20 (luckyjet_round_log s)) (liveScore s), s).
Proof. unfold on_connection. rewrite !bind_run. reflexivity. Qed.

(** X16: while a round is played, the snapshot sent to a new observer
    carries the crash point and the score that an observer of all the
    broadcasts has last seen. *)
Theorem X16_late_joiner_agrees
  (random : nat -> Q) (clock : nat -> Z) (n : nat) :
  fst (run random clock n (Idle, boot)) = LiveProgression ->
  exists cp ls : Q,
    observe_all Waiting (emitted (snd (run random clock n (Idle, boot))))
      = Some (Watching cp ls) /\
    init_crashPoint
      (fst (on_connection (snd (run random clock n (Idle, boot))))) = Some cp /\
    init_liveScore
      (fst (on_connection (snd (run random clock n (Idle, boot))))) = ls.
Proof.
  intro Hp.
  destruct (run_Inv2 random clock (fun _ => True) (fun _ => I) n)
    as [HI (_ & _ & _ & _ & K)].
  unfold Inv in HI. unfold observer_of in K. rewrite Hp in HI, K.
  destruct HI as (_ & _ & _ & _ & _ & r & rest & Hcur & _).
  rewrite Hcur in K.
  exists (crashPoint r), (liveScore (snd (run random clock n (Idle, boot)))).
  split; [exact K|].
  rewrite on_connection_eq. cbn [fst init_crashPoint init_liveScore].
  rewrite Hcur. split; reflexivity.
Qed.

(** A run of X16's theorem: three transitions after the start. *)
Lemma X16_late_joiner_agrees_witness :
  exists cp ls : Q,
    observe_all Waiting
      (emitted (snd (run half_draws zero_clock 3 (Idle, boot))))
      = Some (Watching cp ls) /\
    init_liveScore
      (fst (on_connection (snd (run half_draws zero_clock 3 (Idle, boot)))))
      = ls.
Proof.
  destruct (X16_late_joiner_agrees half_draws zero_clock 3)
    as (cp & ls & H1 & _ & H2).
  - vm_compute. reflexivity.
  - exists cp, ls. split; [exact H1 | exact H2].
Defined.
